(** * data-redact: the pattern-matching and transformation engine of main.go

    The program masks text with three modes, [tokenize], [detokenize] and
    [redact], all of them built from Go's [regexp] package applied to a
    byte slice.  This development embeds

    - the part of Go's [unicode/utf8] decoder the matcher steps with,
    - a backtracking (leftmost-first) matcher for the regular expressions
      that main.go compiles,
    - [Regexp.ReplaceAll], [Regexp.ReplaceAllFunc] and [Regexp.FindAll],
    - the functions [tokenize], [detokenize], [redact] and the mode switch
      of [processFile],
    - the program around them: [main], [isIllegalDirectory], [listFiles],
      [approveFile] and the naming of the output file, over an operating
      system that is taken as it comes,

    and proves the properties of the specification about them, followed by
    further properties of the code. *)

From Stdlib Require Import List Bool Arith NArith Lia.
From Stdlib Require Import Strings.String Strings.Byte.
Import ListNotations.

#[local] Abbreviation length := Datatypes.length.

(** ** Bytes and runes *)

(** A document is a Go [[]byte]; a rune is a Unicode code point. *)
#[global] Abbreviation bytes := (list byte).
#[global] Abbreviation rune := N.

Definition bytes_of (s : string) : bytes := list_byte_of_string s.

Definition bval (b : byte) : N := Byte.to_N b.

Definition in_range (lo hi x : N) : bool := ((lo <=? x)%N && (x <=? hi)%N).

(** [utf8.RuneError] *)
Definition RuneError : rune := 65533%N.

Module Utf8.

(** The continuation byte range that may follow a leading byte ([first] and
    [acceptRanges] of unicode/utf8), with the length the leading byte
    announces; [None] for a byte that cannot start a multi-byte sequence. *)
Definition lead (p0 : N) : option (nat * N * N) :=
  (if in_range 194 223 p0 then Some (2%nat, 128, 191)
   else if (p0 =? 224) then Some (3%nat, 160, 191)
   else if in_range 225 236 p0 then Some (3%nat, 128, 191)
   else if (p0 =? 237) then Some (3%nat, 128, 159)
   else if in_range 238 239 p0 then Some (3%nat, 128, 191)
   else if (p0 =? 240) then Some (4%nat, 144, 191)
   else if in_range 241 243 p0 then Some (4%nat, 128, 191)
   else if (p0 =? 244) then Some (4%nat, 128, 143)
   else None)%N.

Definition cont (b : N) : bool := in_range 128%N 191%N b.

(** [utf8.DecodeRune]: the first rune of [p] and its width in bytes.  An
    invalid or truncated encoding decodes to [(RuneError, 1)], the empty
    slice to [(RuneError, 0)]. *)
Definition DecodeRune (p : bytes) : rune * nat :=
  match p with
  | [] => (RuneError, 0%nat)
  | b0 :: p1 =>
    let p0 := bval b0 in
    if (p0 <? 128) then (p0, 1%nat)
    else match lead p0 with
    | None => (RuneError, 1%nat)
    | Some (sz, lo, hi) =>
      if (length p <? sz)%nat then (RuneError, 1%nat) else
      match p1 with
      | [] => (RuneError, 1%nat)
      | c1 :: p2 =>
        let b1 := bval c1 in
        if negb (in_range lo hi b1) then (RuneError, 1%nat)
        else if (sz <=? 2)%nat then ((p0 mod 32) * 64 + b1 mod 64, 2%nat)
        else match p2 with
        | [] => (RuneError, 1%nat)
        | c2 :: p3 =>
          let b2 := bval c2 in
          if negb (cont b2) then (RuneError, 1%nat)
          else if (sz <=? 3)%nat then
            ((p0 mod 16) * 4096 + (b1 mod 64) * 64 + b2 mod 64, 3%nat)
          else match p3 with
          | [] => (RuneError, 1%nat)
          | c3 :: _ =>
            let b3 := bval c3 in
            if negb (cont b3) then (RuneError, 1%nat)
            else ((p0 mod 8) * 262144 + (b1 mod 64) * 4096
                  + (b2 mod 64) * 64 + b3 mod 64, 4%nat)
          end
        end
      end
    end
  end%N.

(** The runes of a string, or [None] when it is not valid UTF-8
    (what [regexp/syntax] reports as [ErrInvalidUTF8]). *)
Fixpoint runes (fuel : nat) (p : bytes) : option (list rune) :=
  match p with
  | [] => Some []
  | b0 :: _ =>
    match fuel with
    | 0 => None
    | S fuel' =>
      let '(r, w) := DecodeRune p in
      if (bval b0 <? 128)%N || (1 <? w)%nat then
        option_map (cons r) (runes fuel' (skipn w p))
      else None
    end
  end.

End Utf8.

(** ** Regular expressions *)

(** [\w] of RE2 syntax is ASCII only: [[0-9A-Za-z_]]. *)
Definition isWordRune (r : rune) : bool :=
  (in_range 48 57 r || in_range 65 90 r || in_range 97 122 r || (r =? 95))%N.

(** [\s] is [[\t\n\f\r ]]. *)
Definition isSpaceRune (r : rune) : bool :=
  ((r =? 9) || (r =? 10) || (r =? 12) || (r =? 13) || (r =? 32))%N.

Definition isWordByte (b : byte) : bool := isWordRune (bval b).

(** The runes that [unicode.SimpleFold] puts in one orbit with [r], for the
    orbits that contain an ASCII letter: a letter and its other case, and in
    addition U+017F (long s) with s and U+212A (Kelvin sign) with k.  The
    patterns of main.go fold ASCII literals and the range [a-z] only. *)
Definition orbit (r : rune) : list rune :=
  (if in_range 97 122 r then
     r :: (r - 32) :: (if r =? 115 then [383] else if r =? 107 then [8490] else [])
   else if in_range 65 90 r then
     r :: (r + 32) :: (if r =? 83 then [383] else if r =? 75 then [8490] else [])
   else if r =? 383 then [383; 115; 83]
   else if r =? 8490 then [8490; 107; 75]
   else [r])%N.

(** One-rune matchers.  [fold] is the [(?i)] flag. *)
Inductive cls : Type :=
| CLit (fold : bool) (c : rune)          (* a literal rune *)
| CRange (fold : bool) (lo hi : rune)    (* [lo-hi] *)
| CWord                                  (* \w *)
| CSpace.                                (* \s *)

Definition clsMatches (c : cls) (r : rune) : bool :=
  match c with
  | CLit false c => (r =? c)%N
  | CLit true c => existsb (N.eqb c) (orbit r)
  | CRange false lo hi => in_range lo hi r
  | CRange true lo hi => existsb (in_range lo hi) (orbit r)
  | CWord => isWordRune r
  | CSpace => isSpaceRune r
  end.

(** The fragment of RE2 syntax that main.go uses.  The only repetitions in
    its patterns are [[a-z]+] and [\w+], over a one-rune class. *)
Inductive regex : Type :=
| REmpty
| RChar (c : cls)
| RBound                       (* \b *)
| RSeq (a b : regex)
| RAlt (a b : regex)           (* a|b, a preferred *)
| ROpt (a : regex)             (* a?, greedy *)
| RPlus (c : cls)              (* c+, greedy *)
| RGroup (a : regex).          (* (a) and (?:a) *)

(** A position in the input: the byte before it, if any, and the bytes from
    it on. *)
#[global] Abbreviation state := (option byte * bytes)%type.

Definition wordBefore (st : state) : bool :=
  match fst st with Some b => isWordByte b | None => false end.
Definition wordAfter (st : state) : bool :=
  match snd st with b :: _ => isWordByte b | [] => false end.

(** [\b]: an ASCII word character on exactly one side. *)
Definition atBoundary (st : state) : bool := xorb (wordBefore st) (wordAfter st).

(** Moving [w] bytes forward. *)
Definition advance (w : nat) (st : state) : state :=
  (match rev (firstn w (snd st)) with b :: _ => Some b | [] => fst st end,
   skipn w (snd st)).

Definition stepCls (c : cls) (st : state) : option state :=
  match snd st with
  | [] => None
  | _ :: _ =>
    let '(r, w) := Utf8.DecodeRune (snd st) in
    if clsMatches c r then Some (advance w st) else None
  end.

Fixpoint plusFrom (fuel : nat) (c : cls) (st : state) : list state :=
  match fuel with
  | 0 => []
  | S fuel' =>
    match stepCls c st with
    | None => []
    | Some st' => plusFrom fuel' c st' ++ [st']
    end
  end.

(** The positions at which a match of [re] begun at [st] can end, in the
    order in which a backtracking search finds them; Go's leftmost-first
    match is the head of the list. *)
Fixpoint run (re : regex) (st : state) : list state :=
  match re with
  | REmpty => [st]
  | RChar c => match stepCls c st with Some st' => [st'] | None => [] end
  | RBound => if atBoundary st then [st] else []
  | RSeq a b => flat_map (run b) (run a st)
  | RAlt a b => run a st ++ run b st
  | ROpt a => run a st ++ [st]
  | RPlus c => plusFrom (length (snd st)) c st
  | RGroup a => run a st
  end.

(** The preferred match at this very position: the matched bytes and the
    position after them. *)
Definition matchHere (re : regex) (st : state) : option (bytes * state) :=
  match run re st with
  | [] => None
  | st' :: _ => Some (firstn (length (snd st) - length (snd st')) (snd st), st')
  end.

(** The leftmost match at or after [st], trying each rune boundary in turn:
    the bytes skipped before it, the matched bytes, the position after. *)
Fixpoint search (fuel : nat) (re : regex) (st : state)
  : option (bytes * bytes * state) :=
  match matchHere re st with
  | Some (m, st') => Some ([], m, st')
  | None =>
    match fuel, snd st with
    | S fuel', _ :: _ =>
      let w := snd (Utf8.DecodeRune (snd st)) in
      match search fuel' re (advance w st) with
      | Some (sk, m, st') => Some (firstn w (snd st) ++ sk, m, st')
      | None => None
      end
    | _, _ => None
    end
  end.

Definition find (re : regex) (st : state) : option (bytes * bytes * state) :=
  search (length (snd st)) re st.

(** ** Replacing and listing matches *)

Definition isNil (l : bytes) : bool := match l with [] => true | _ => false end.

(** The loop of [Regexp.replaceAll].  [st] is the search position
    [searchPos], [pending] holds [bsrc[lastMatchEnd:searchPos]] and [atStart]
    says that [searchPos] is 0.  A match [a] found after skipping [sk] bytes
    has [a[0] = searchPos + len sk] and [a[1] = a[0] + len m]; the
    replacement is left out for an empty match right after another match,
    and the search moves on by at least one rune. *)
Fixpoint replaceLoop (fuel : nat) (re : regex) (repl : bytes -> bytes)
    (atStart : bool) (pending : bytes) (st : state) : bytes :=
  match fuel with
  | 0 => pending ++ snd st
  | S fuel' =>
    match find re st with
    | None => pending ++ snd st
    | Some (sk, m, st') =>
      let ins :=
        if negb (isNil (pending ++ sk ++ m)) || (atStart && isNil sk)
        then repl m else [] in
      let w := snd (Utf8.DecodeRune (snd st)) in
      let a1 := length sk + length m in
      pending ++ sk ++ ins ++
      (if a1 <? w then
         replaceLoop fuel' re repl false
           (skipn a1 (firstn w (snd st))) (advance w st)
       else if a1 <? 1 then []
       else replaceLoop fuel' re repl false [] st')
    end
  end.

(** [Regexp.ReplaceAllFunc] *)
Definition ReplaceAllFunc (re : regex) (src : bytes) (repl : bytes -> bytes)
  : bytes :=
  replaceLoop (S (length src)) re repl true [] (None, src).

(** [Regexp.ReplaceAll] for a template without [$], which expands to
    itself (main.go's only template is [[redacted]]). *)
Definition ReplaceAll (re : regex) (src repl : bytes) : bytes :=
  ReplaceAllFunc re src (fun _ => repl).

(** The loop of [Regexp.allMatches] for [n < 0]: [st] is [pos] and
    [prevHere] says that the previous match ended at [pos]. *)
Fixpoint allMatches (fuel : nat) (re : regex) (prevHere : bool) (st : state)
  : list bytes :=
  match fuel with
  | 0 => []
  | S fuel' =>
    match find re st with
    | None => []
    | Some (sk, m, st') =>
      if isNil sk && isNil m then
        let w := snd (Utf8.DecodeRune (snd st)) in
        (if prevHere then [] else [m]) ++
        (if 0 <? w then allMatches fuel' re false (advance w st) else [])
      else m :: allMatches fuel' re true st'
    end
  end.

(** [Regexp.FindAll(b, -1)] *)
Definition FindAll (re : regex) (b : bytes) : list bytes :=
  allMatches (S (length b)) re false (None, b).

(** ** [strings.TrimSpace] *)

Module Strings.

(** [unicode.IsSpace] *)
Definition IsSpace (r : rune) : bool :=
  (in_range 9 13 r || (r =? 32) || (r =? 133) || (r =? 160) || (r =? 5760)
   || in_range 8192 8202 r || (r =? 8232) || (r =? 8233) || (r =? 8239)
   || (r =? 8287) || (r =? 12288))%N.

(** The [asciiSpace] table. *)
Definition asciiSpace (c : N) : bool := (in_range 9 13 c || (c =? 32))%N.

(** [utf8.RuneStart] *)
Definition RuneStart (b : byte) : bool := negb (Utf8.cont (bval b)).

(** How many bytes the backward scan of [utf8.DecodeLastRune] passes before
    it meets a rune start, looking at no more than [n] bytes of the reversed
    prefix [l]. *)
Fixpoint scanBack (n : nat) (l : bytes) : option nat :=
  match n, l with
  | S n', b :: l' =>
    if RuneStart b then Some 0 else option_map S (scanBack n' l')
  | _, _ => None
  end.

(** [utf8.DecodeLastRune] *)
Definition DecodeLastRune (p : bytes) : rune * nat :=
  match rev p with
  | [] => (RuneError, 0)
  | b :: before =>
    if (bval b <? 128)%N then (bval b, 1)
    else match scanBack 3 before with
    | None => (RuneError, 1)
    | Some k =>
      let '(r, size) := Utf8.DecodeRune (skipn (length p - (k + 2)) p) in
      if size =? k + 2 then (r, size) else (RuneError, 1)
    end
  end.

(** [TrimLeftFunc(s, unicode.IsSpace)] *)
Fixpoint TrimLeft (fuel : nat) (s : bytes) : bytes :=
  match fuel, s with
  | S fuel', _ :: _ =>
    let '(r, w) := Utf8.DecodeRune s in
    if IsSpace r then TrimLeft fuel' (skipn w s) else s
  | _, _ => s
  end.

(** [lastIndexFunc(s, unicode.IsSpace, false)]: the index of the last rune,
    decoded from the end, that is not white space; [None] stands for -1. *)
Fixpoint lastIndexNotSpace (fuel : nat) (s : bytes) : option nat :=
  match fuel, s with
  | S fuel', _ :: _ =>
    let '(r, w) := DecodeLastRune s in
    if IsSpace r then lastIndexNotSpace fuel' (firstn (length s - w) s)
    else Some (length s - w)
  | _, _ => None
  end.

(** [TrimRightFunc(s, unicode.IsSpace)] *)
Definition TrimRight (s : bytes) : bytes :=
  match lastIndexNotSpace (length s) s with
  | None => []
  | Some i =>
    match skipn i s with
    | c :: _ =>
      if (128 <=? bval c)%N
      then firstn (i + snd (Utf8.DecodeRune (skipn i s))) s
      else firstn (i + 1) s
    | [] => firstn (i + 1) s
    end
  end.

(** The second loop of [TrimSpace], on the reversed input: ASCII space is
    dropped from the end until a non-space ASCII byte stops the loop or a
    byte from 0x80 up hands over to [TrimRightFunc]. *)
Fixpoint trimTail (r : bytes) : bytes :=
  match r with
  | [] => []
  | c :: r' =>
    if (128 <=? bval c)%N then TrimRight (rev r)
    else if asciiSpace (bval c) then trimTail r'
    else rev r
  end.

(** [strings.TrimSpace]: the first loop drops ASCII space from the front
    and hands over to [TrimFunc] at a byte from 0x80 up. *)
Fixpoint TrimSpace (s : bytes) : bytes :=
  match s with
  | [] => []
  | c :: s' =>
    if (128 <=? bval c)%N then
      TrimRight (TrimLeft (length s) s)
    else if asciiSpace (bval c) then TrimSpace s'
    else trimTail (rev s)
  end.

End Strings.

(** ** The patterns of main.go *)

Module Pat.

(** A literal under [(?i)], rune by rune. *)
Fixpoint lit (fold : bool) (rs : list rune) : regex :=
  match rs with
  | [] => REmpty
  | [r] => RChar (CLit fold r)
  | r :: rs' => RSeq (RChar (CLit fold r)) (lit fold rs')
  end.

(** An ASCII literal of a [(?i)] pattern. *)
Definition word (s : string) : regex := lit true (map bval (bytes_of s)).

Fixpoint alt (rs : list regex) : regex :=
  match rs with
  | [] => REmpty
  | [r] => r
  | r :: rs' => RAlt r (alt rs')
  end.

Definition words (ss : list string) : regex := RGroup (alt (map word ss)).

(** [(?:[a-z]+\s)?] under [(?i)] *)
Definition qualifier : regex :=
  ROpt (RGroup (RSeq (RPlus (CRange true 97%N 122%N)) (RChar CSpace))).

(** [\s?] *)
Definition optSpace : regex := ROpt (RChar CSpace).

Fixpoint seq (rs : list regex) : regex :=
  match rs with
  | [] => REmpty
  | [r] => r
  | r :: rs' => RSeq r (seq rs')
  end.

Definition idWords : list string :=
  ["SSN"; "social security number"; "driver's license"; "passport";
   "credit card"; "debit card"; "bank account"]%string.
Definition nameWords : list string :=
  ["first"; "last"; "middle"; "maiden"; "previous"; "current"]%string.
Definition nameFields : list string := ["name"; "initials"]%string.
Definition contactWords : list string :=
  ["phone"; "fax"; "email"; "address"; "city"; "state"; "zip"; "postal"]%string.
Definition contactFields : list string := ["number"; "code"]%string.
Definition healthWords : list string :=
  ["medical"; "health"; "insurance"; "benefits"; "prescription";
   "treatment"]%string.
Definition healthFields : list string := ["information"; "record"]%string.
Definition identityWords : list string :=
  ["ethnicity"; "race"; "sexual"; "gender"; "religion"]%string.
Definition identityFields : list string := ["identity"; "orientation"]%string.

(** [\b(?:[a-z]+\s)?(?:SSN|...|bank account)\b] *)
Definition idPhrase : regex :=
  seq [RBound; qualifier; words idWords; RBound].

(** [\b(?:[a-z]+\s)?(?:w1|...)\s?(?:f1|...)\b] *)
Definition fieldPhrase (ws fs : list string) : regex :=
  seq [RBound; qualifier; words ws; optSpace; words fs; RBound].

(** The package-level [piiRegex] (line 21). *)
Definition piiRegex : regex :=
  RGroup (alt [idPhrase; fieldPhrase nameWords nameFields;
               fieldPhrase contactWords contactFields]).

(** The package-level [spiiRegex] (line 23). *)
Definition spiiRegex : regex :=
  RGroup (alt [fieldPhrase healthWords healthFields;
               fieldPhrase identityWords identityFields]).

(** The [piiRegex] local to [redact] (line 102). *)
Definition redactPii : regex := idPhrase.

(** The [spiiRegex] local to [redact] (line 103). *)
Definition redactSpii : regex := fieldPhrase healthWords healthFields.

(** [\b(\w+)\b] of [tokenize]. *)
Definition wordRun : regex := seq [RBound; RGroup (RPlus CWord); RBound].

(** [\b%s\b] around [regexp.QuoteMeta(token)]: every rune of the token is
    a literal.  Compiling fails on a token that is not valid UTF-8.  (The
    size limit of [regexp/syntax], some millions of runes, is out of reach
    of a command-line flag and is left out.) *)
Definition quoted (token : bytes) : option regex :=
  match Utf8.runes (length token) token with
  | Some rs => Some (seq [RBound; lit false rs; RBound])
  | None => None
  end.

End Pat.

(** ** The transformations of main.go *)

Definition redacted : bytes := bytes_of "[redacted]".

(** [tokenize] (lines 85-90) *)
Definition tokenize (input : bytes) (token : bytes) : bytes :=
  ReplaceAllFunc Pat.wordRun input (fun _ => token).

(** [detokenize] (lines 93-98); [None] is the panic of [regexp.MustCompile]. *)
Definition detokenize (input : bytes) (token : bytes) : option bytes :=
  match Pat.quoted token with
  | Some re => Some (ReplaceAllFunc re input Strings.TrimSpace)
  | None => None
  end.

(** [redact] (lines 101-107) *)
Definition redact (input : bytes) : bytes :=
  let input := ReplaceAll Pat.redactPii input redacted in
  let input := ReplaceAll Pat.redactSpii input redacted in
  input.

(** ** The mode switch of [processFile] *)

Inductive transformed : Type :=
| Output (output : bytes)
| UnknownMode                  (* the [default] branch *)
| Panicked.                    (* [regexp.MustCompile] panicked *)

(** The [switch *modePtr] of [processFile] (lines 170-181). *)
Definition applyMode (mode : string) (token : bytes) (inputFile : bytes)
  : transformed :=
  if String.eqb mode "tokenize" then Output (tokenize inputFile token)
  else if String.eqb mode "detokenize" then
    match detokenize inputFile token with
    | Some output => Output output
    | None => Panicked
    end
  else if String.eqb mode "redact" then Output (redact inputFile)
  else UnknownMode.

Module Driver.
Section ProcessFile.

(** The file system is the driver's: reading, writing and the naming of the
    output file (lines 184-192) are taken as they come. *)
Variable FS : Type.
Variable ReadFile : FS -> string -> option bytes.
Variable WriteFile : FS -> string -> bytes -> option FS.
Variable outputFileOf : FS -> string -> string -> string.

(** What [processFile] prints. *)
Inductive line : Type :=
| CouldNotRead (file : string)
| Found (file : string) (pii spii : nat)
| UnknownModeError (mode : string)
| CouldNotWrite (outputFile : string)
| Processed (file outputFile : string).

(** How [processFile] ends: it returns, leaving a file system and the lines
    it printed, or the process dies in a panic. *)
Inductive outcome : Type :=
| Returned (fs : FS) (printed : list line)
| Died (fs : FS) (printed : list line).

(** [processFile] (lines 156-199) *)
Definition processFile (fs : FS) (file mode : string) (token : bytes)
    (outputDir : string) : outcome :=
  match ReadFile fs file with
  | None => Returned fs [CouldNotRead file]
  | Some inputFile =>
    let piiMatches := FindAll Pat.piiRegex inputFile in
    let spiiMatches := FindAll Pat.spiiRegex inputFile in
    let found := Found file (length piiMatches) (length spiiMatches) in
    match applyMode mode token inputFile with
    | UnknownMode => Returned fs [found; UnknownModeError mode]
    | Panicked => Died fs [found]
    | Output output =>
      let outputFile := outputFileOf fs file outputDir in
      match WriteFile fs outputFile output with
      | None => Returned fs [found; CouldNotWrite outputFile]
      | Some fs' => Returned fs' [found; Processed file outputFile]
      end
    end
  end.

End ProcessFile.
End Driver.

(** ** The program: [main] and what it calls *)

Module Main.

(** What main.go asks of an [os.FileInfo]. *)
Record FileInfo : Type := { Name : string; IsDir : bool }.

(** [illegalDirs] (lines 114-121) *)
Definition illegalDirs : list string :=
  ["/etc"; "/var"; "C:/Program Files"; "C:/Program Files (x86)";
   "C:/Windows"; "C:/Windows/System32"]%string.

(** [strings.HasPrefix] *)
Definition HasPrefix (s prefix : string) : bool := String.prefix prefix s.

(** What the program prints: the lines of [main] and [approveFile], and
    those of [processFile]. *)
Inductive line : Type :=
| FileRequired
| CouldNotAccess
| IllegalDirectory
| CouldNotList
| AskAll (n : nat)
| AskFile (file : string)
| FromProcessFile (l : Driver.line).

(** How the program ends: [main] returns, [os.Exit(1)], or a panic. *)
Inductive status : Type := Finished | Exit1 | Crashed.

Section Program.

(** The operating system is taken as it comes: the file system with
    [os.Stat], [ioutil.ReadDir], [os.ReadFile], [os.WriteFile] and the
    naming of the output file; [filepath.Abs] and [filepath.Join];
    [strings.ToLower]; and standard input, of which [fmt.Scanln] takes one
    answer at a time. *)
Variable FS : Type.
Variable Console : Type.
Variable Stat : FS -> string -> option FileInfo.
Variable ReadDir : FS -> string -> option (list FileInfo).
Variable ReadFile : FS -> string -> option bytes.
Variable WriteFile : FS -> string -> bytes -> option FS.
Variable outputFileOf : FS -> string -> string -> string.
Variable Abs : string -> option string.
Variable Join : string -> string -> string.
Variable ToLower : string -> string.
Variable Scanln : Console -> string * Console.

(** The flags [-mode], [-token] and [-output]. *)
Variable mode : string.
Variable token : bytes.
Variable outputDir : string.

Record world : Type :=
  { fs : FS; console : Console; printed : list line }.

Definition print (w : world) (l : line) : world :=
  {| fs := fs w; console := console w; printed := printed w ++ [l] |}.

(** [isIllegalDirectory] (lines 110-130) *)
Definition isIllegalDirectory (fileInfo : FileInfo) : bool :=
  if IsDir fileInfo then
    match Abs (Name fileInfo) with
    | Some absPath => existsb (fun dir => HasPrefix absPath dir) illegalDirs
    | None => false
    end
  else false.

(** [listFiles] (lines 133-145) *)
Definition listFiles (f : FS) (directory : string) : option (list string) :=
  match ReadDir f directory with
  | None => None
  | Some fileInfos =>
    Some (map (fun fileInfo => Join directory (Name fileInfo))
              (filter (fun fileInfo => negb (IsDir fileInfo)) fileInfos))
  end.

(** [approveFile] (lines 148-153) *)
Definition approveFile (w : world) (file : string) : bool * world :=
  let w := print w (AskFile file) in
  let '(input, c) := Scanln (console w) in
  (String.eqb (ToLower input) "y",
   {| fs := fs w; console := c; printed := printed w |}).

(** A call of [processFile] from [main]: a panic ends the program. *)
Definition callProcessFile (w : world) (file : string) : status * world :=
  match Driver.processFile FS ReadFile WriteFile outputFileOf
          (fs w) file mode token outputDir with
  | Driver.Returned _ f ls =>
    (Finished, {| fs := f; console := console w;
                  printed := printed w ++ map FromProcessFile ls |})
  | Driver.Died _ f ls =>
    (Crashed, {| fs := f; console := console w;
                 printed := printed w ++ map FromProcessFile ls |})
  end.

(** The loop of lines 65-67. *)
Fixpoint processEach (w : world) (files : list string) : status * world :=
  match files with
  | [] => (Finished, w)
  | file :: files' =>
    match callProcessFile w file with
    | (Finished, w') => processEach w' files'
    | stopped => stopped
    end
  end.

(** The loop of lines 71-76. *)
Fixpoint approveEach (w : world) (files : list string) : status * world :=
  match files with
  | [] => (Finished, w)
  | file :: files' =>
    let '(ok, w1) := approveFile w file in
    if negb ok then approveEach w1 files'
    else
      match callProcessFile w1 file with
      | (Finished, w2) => approveEach w2 files'
      | stopped => stopped
      end
  end.

(** [main] (lines 25-82), after [flag.Parse]. *)
Definition main (file : string) (f0 : FS) (c0 : Console) : status * world :=
  let w := {| fs := f0; console := c0; printed := [] |} in
  if String.eqb file EmptyString then (Exit1, print w FileRequired)
  else
    match Stat f0 file with
    | None => (Exit1, print w CouldNotAccess)
    | Some fileInfo =>
      if isIllegalDirectory fileInfo then (Exit1, print w IllegalDirectory)
      else if IsDir fileInfo then
        match listFiles f0 file with
        | None => (Exit1, print w CouldNotList)
        | Some files =>
          if 20 <? length files then
            let w := print w (AskAll (length files)) in
            let '(input, c) := Scanln (console w) in
            let w := {| fs := fs w; console := c; printed := printed w |} in
            if negb (String.eqb (ToLower input) "y")
            then processEach w files
            else approveEach w files
          else approveEach w files
        end
      else
        let '(ok, w1) := approveFile w file in
        if ok then callProcessFile w1 file else (Finished, w1)
    end.

End Program.
End Main.

(** ** The name of the output file *)

Module Naming.

(** The byte [.] *)
Definition dot : Ascii.ascii :=
  Ascii.Ascii false true true true false true false false.

(** The bytes of a path, last byte first, put before [acc]. *)
Fixpoint backwards (path : string) (acc : list Ascii.ascii)
  : list Ascii.ascii :=
  match path with
  | EmptyString => acc
  | String c path' => backwards path' (c :: acc)
  end.

Section Names.

(** [os.Stat], [os.IsPathSeparator], [filepath.Join], [filepath.Dir] and
    [filepath.Base] are the operating system's. *)
Variable FS : Type.
Variable Stat : FS -> string -> option Main.FileInfo.
Variable IsPathSeparator : Ascii.ascii -> bool.
Variable Join : string -> string -> string.
Variable Dir : string -> string.
Variable Base : string -> string.

(** The loop of [filepath.Ext]: it walks back from the end of the path,
    [rpath] holding the bytes up to index [i], last first, and [suffix]
    those after [i]; it stops at a path separator. *)
Fixpoint extLoop (rpath : list Ascii.ascii) (suffix : string) : string :=
  match rpath with
  | [] => EmptyString
  | c :: rpath' =>
    if IsPathSeparator c then EmptyString
    else if Ascii.eqb c dot then String c suffix
    else extLoop rpath' (String c suffix)
  end.

(** [filepath.Ext] *)
Definition Ext (path : string) : string :=
  extLoop (backwards path []) EmptyString.

(** The name with an output directory: [Sprintf("%s_redacted.%s", ...)]
    (line 187). *)
Definition namedInto (file : string) : string :=
  (Base file ++ "_redacted." ++ Ext file)%string.

(** The name beside the input file: [Sprintf("%s_redacted%s", ...)]
    (line 191). *)
Definition namedBeside (file : string) : string :=
  (Base (substring 0 (String.length file - String.length (Ext file)) file)
   ++ "_redacted" ++ Ext file)%string.

(** Lines 184-192 of [processFile]. *)
Definition outputFileOf (f : FS) (file outputDir : string) : string :=
  let outputFile :=
    if negb (String.eqb outputDir EmptyString) then
      match Stat f outputDir with
      | Some fileInfo =>
        if Main.IsDir fileInfo then Join outputDir (namedInto file)
        else EmptyString
      | None => EmptyString
      end
    else EmptyString in
  if String.eqb outputFile EmptyString
  then Join (Dir file) (namedBeside file)
  else outputFile.

End Names.
End Naming.

(** ** Specification-level notions *)

(** What the specification says [tokenize] computes: every maximal run of
    word characters gives way to one copy of the token, every other byte
    stays.  [inWord] says that the byte before was a word character. *)
Fixpoint maskWords (token : bytes) (inWord : bool) (d : bytes) : bytes :=
  match d with
  | [] => []
  | b :: d' =>
    if isWordByte b
    then (if inWord then [] else token) ++ maskWords token true d'
    else b :: maskWords token false d'
  end.

(** The byte before the position reached by consuming [m] from a position
    whose preceding byte is [p]. *)
Definition after (p : option byte) (m : bytes) : option byte :=
  match rev m with b :: _ => Some b | [] => p end.

(** [Match re p m r]: begun with [p] before it and [m ++ r] ahead, [re] can
    consume exactly [m].  This is the declarative reading of [run]. *)
Inductive Match : regex -> option byte -> bytes -> bytes -> Prop :=
| MEmpty p r : Match REmpty p [] r
| MChar c p m r rn :
    m <> [] -> Utf8.DecodeRune (m ++ r) = (rn, length m) ->
    clsMatches c rn = true -> Match (RChar c) p m r
| MBound p r : atBoundary (p, r) = true -> Match RBound p [] r
| MSeq a b p m1 m2 r :
    Match a p m1 (m2 ++ r) -> Match b (after p m1) m2 r ->
    Match (RSeq a b) p (m1 ++ m2) r
| MAltL a b p m r : Match a p m r -> Match (RAlt a b) p m r
| MAltR a b p m r : Match b p m r -> Match (RAlt a b) p m r
| MOptSome a p m r : Match a p m r -> Match (ROpt a) p m r
| MOptNone a p r : Match (ROpt a) p [] r
| MPlusOne c p m r : Match (RChar c) p m r -> Match (RPlus c) p m r
| MPlusMore c p m1 m2 r :
    Match (RChar c) p m1 (m2 ++ r) -> Match (RPlus c) (after p m1) m2 r ->
    Match (RPlus c) p (m1 ++ m2) r
| MGroup a p m r : Match a p m r -> Match (RGroup a) p m r.

(** Whether [re] can match the empty string somewhere. *)
Fixpoint nullable (re : regex) : bool :=
  match re with
  | REmpty | RBound | ROpt _ => true
  | RChar _ | RPlus _ => false
  | RSeq a b => nullable a && nullable b
  | RAlt a b => nullable a || nullable b
  | RGroup a => nullable a
  end.

(** The one-rune classes that occur in [re]. *)
Fixpoint classes (re : regex) : list cls :=
  match re with
  | REmpty | RBound => []
  | RChar c | RPlus c => [c]
  | RSeq a b | RAlt a b => classes a ++ classes b
  | ROpt a | RGroup a => classes a
  end.

(** The position [i] bytes into [(p, s)]. *)
Definition posAt (p : option byte) (s : bytes) (i : nat) : state :=
  (after p (firstn i s), skipn i s).

(** [re] asks for a word boundary before anything else. *)
Definition boundFirst (re : regex) : Prop :=
  forall st, atBoundary st = false -> run re st = [].

(** One pass of replacement with a pattern that never matches the empty
    string, told match by match: [Pass re repl st out] says that replacing
    from position [st] on gives [out]. *)
Inductive Pass (re : regex) (repl : bytes -> bytes) : state -> bytes -> Prop :=
| PassDone st : find re st = None -> Pass re repl st (snd st)
| PassStep st sk m st' out :
    find re st = Some (sk, m, st') -> Pass re repl st' out ->
    Pass re repl st (sk ++ repl m ++ out).

(** Bytes from 0x80 up: the bytes of runes that take several bytes. *)
Definition highByte (b : byte) : Prop := (128 <= bval b)%N.

Definition allWord (m : bytes) : Prop := Forall (fun b => isWordByte b = true) m.
Definition noWord (m : bytes) : Prop := Forall (fun b => isWordByte b = false) m.

(** The longest prefix of word characters, and what follows it. *)
Fixpoint wordPrefix (s : bytes) : bytes :=
  match s with
  | b :: s' => if isWordByte b then b :: wordPrefix s' else []
  | [] => []
  end.
Fixpoint wordRest (s : bytes) : bytes :=
  match s with
  | b :: s' => if isWordByte b then wordRest s' else s
  | [] => []
  end.

(** A position is not inside a word. *)
Definition notInWord (st : state) : Prop :=
  wordBefore st = true -> wordAfter st = false.

(** A document cut into the stretches between matches and the matches:
    [original] puts it together again, [replaced] puts it together with
    every match replaced. *)
Fixpoint original (ps : list (bytes * bytes)) (tail : bytes) : bytes :=
  match ps with
  | [] => tail
  | (gap, m) :: ps' => gap ++ m ++ original ps' tail
  end.
Fixpoint replaced (repl : bytes -> bytes) (ps : list (bytes * bytes))
    (tail : bytes) : bytes :=
  match ps with
  | [] => tail
  | (gap, m) :: ps' => gap ++ repl m ++ replaced repl ps' tail
  end.

(** Every second component of [ps] is matched by [re] where it stands, in
    the document that begins after [p]. *)
Fixpoint matchedIn (re : regex) (p : option byte) (ps : list (bytes * bytes))
    (tail : bytes) : Prop :=
  match ps with
  | [] => True
  | (gap, m) :: ps' =>
    Match re (after p gap) m (original ps' tail)
    /\ matchedIn re (after p (gap ++ m)) ps' tail
  end.

(** The modes that [processFile] knows. *)
Definition knownMode (mode : string) : Prop :=
  mode = "tokenize"%string \/ mode = "detokenize"%string
  \/ mode = "redact"%string.

(** A token that [regexp.MustCompile] accepts: valid UTF-8. *)
Definition validToken (token : bytes) : Prop :=
  Utf8.runes (length token) token <> None.

(** [Decodes rs m r]: in front of [r], the bytes [m] are taken rune by
    rune as [rs], the way the matcher steps through its input. *)
Inductive Decodes : list rune -> bytes -> bytes -> Prop :=
| DecNil r : Decodes [] [] r
| DecCons rn rs m1 m2 r :
    m1 <> [] -> Utf8.DecodeRune (m1 ++ m2 ++ r) = (rn, length m1) ->
    Decodes rs m2 r -> Decodes (rn :: rs) (m1 ++ m2) r.

(** A string whose first rune, or last rune, is no white space; the empty
    string has neither. *)
Definition cleanStart (s : bytes) : Prop :=
  Strings.IsSpace (fst (Utf8.DecodeRune s)) = false.
Definition cleanEnd (s : bytes) : Prop :=
  Strings.IsSpace (fst (Strings.DecodeLastRune s)) = false.

(** Word character before a position, and at the head of what follows. *)
Definition wordP (p : option byte) : bool := wordBefore (p, []).
Definition wordS (s : bytes) : bool := wordAfter (None, s).

(** [re] begins, or ends, with [\b] on every branch. *)
Fixpoint startsBound (re : regex) : bool :=
  match re with
  | RBound => true
  | RSeq a _ => startsBound a
  | RAlt a b => startsBound a && startsBound b
  | RGroup a => startsBound a
  | _ => false
  end.
Fixpoint endsBound (re : regex) : bool :=
  match re with
  | RBound => true
  | RSeq _ b => endsBound b
  | RAlt a b => endsBound a && endsBound b
  | RGroup a => endsBound a
  | _ => false
  end.

(** No class of [re] matches the rune [x]. *)
Definition avoids (x : rune) (re : regex) : bool :=
  forallb (fun c => negb (clsMatches c x)) (classes re).

(** [re] has no match anywhere in [(p, s)]. *)
Definition NoMatch (re : regex) (p : option byte) (s : bytes) : Prop :=
  forall i, run re (posAt p s i) = [].

(** What the proof of idempotence asks of a pattern of [redact]: it begins
    and ends with [\b], never matches the empty string, matches none of the
    bytes [[] and []] nor [RuneError], and has no match inside the text
    [[redacted]]. *)
Definition redacting (re : regex) : bool :=
  startsBound re && endsBound re && negb (nullable re)
  && avoids 91 re && avoids 93 re && avoids RuneError re
  && forallb (fun k => match run re (posAt None redacted k) with
                       | [] => true
                       | _ :: _ => false
                       end) (seq 0 11).

(** Two bytes before the same text [s] that make no difference to a
    pattern beginning with [\b]: both word characters or both not, or the
    second none and [s] not beginning with one. *)
Definition sameSide (p p' : option byte) (s : bytes) : Prop :=
  wordP p = wordP p' \/ (wordP p' = false /\ wordS s = false).

(** A document that consists solely of copies of the token and of bytes
    that are no word characters. *)
Inductive OnlyTokens (T : bytes) : bytes -> Prop :=
| OnlyNil : OnlyTokens T []
| OnlySep b d : isWordByte b = false -> OnlyTokens T d -> OnlyTokens T (b :: d)
| OnlyToken d : OnlyTokens T d -> OnlyTokens T (T ++ d).

(** Case analysis on every test of a decoder, in the goal and in the
    hypotheses. *)
Ltac break_decode :=
  repeat match goal with
  | |- context [if negb ?c then _ else _] => destruct c eqn:?; cbn [negb]
  | |- context [if ?c then _ else _] => destruct c eqn:?
  | |- context [match ?x with _ => _ end] => destruct x eqn:?
  | H : context [if negb ?c then _ else _] |- _ => destruct c eqn:?; cbn [negb] in H
  | H : context [if ?c then _ else _] |- _ => destruct c eqn:?
  | H : context [match ?x with _ => _ end] |- _ => destruct x eqn:?
  end.

Arguments bval : simpl never.

(** ** Measures of a document *)

(** The number of maximal runs of word characters that begin in [d];
    [inWord] says that the byte before [d] was a word character. *)
Fixpoint wordRuns (inWord : bool) (d : bytes) : nat :=
  match d with
  | [] => 0
  | b :: d' =>
    if isWordByte b
    then (if inWord then 0 else 1) + wordRuns true d'
    else wordRuns false d'
  end.

(** The bytes of [d] that are no word characters, in order. *)
Definition nonWords (d : bytes) : bytes :=
  filter (fun b => negb (isWordByte b)) d.

(** The word characters of [d], in order. *)
Definition wordBytes (d : bytes) : bytes := filter isWordByte d.

(** Two documents with their words at the same places and the same bytes
    elsewhere. *)
Definition sameSkeleton (d d' : bytes) : Prop :=
  Forall2 (fun a b => isWordByte a = isWordByte b
                      /\ (isWordByte a = false -> a = b)) d d'.

(** The ASCII bytes that no class of [redact]'s patterns matches and that
    [[redacted]] does not contain: everything but the letters, the white
    space of [\s], the apostrophe and the two brackets. *)
Definition keptByte (b : byte) : bool :=
  ((bval b <? 128)
   && negb (in_range 65 90 (bval b) || in_range 97 122 (bval b)
            || isSpaceRune (bval b) || (bval b =? 39)
            || (bval b =? 91) || (bval b =? 93)))%N.

(** ASCII digits. *)
Definition isDigit (b : byte) : bool := in_range 48 57 (bval b).


(** ** Notions for the program's output *)


(** A question of [approveFile]. *)
Definition asksFile (l : Main.line) : bool :=
  match l with Main.AskFile _ => true | _ => false end.

(** A line printed by [processFile]. *)
Definition fromProcessFile (l : Main.line) : bool :=
  match l with Main.FromProcessFile _ => true | _ => false end.

(** The first line of a call of [processFile] on [file]. *)
Definition handles (file : string) (l : Main.line) : Prop :=
  l = Main.FromProcessFile (Driver.CouldNotRead file)
  \/ exists pii spii, l = Main.FromProcessFile (Driver.Found file pii spii).

(** A small operating system to run the program on: [docs] is a directory
    of one sub-directory and [n] files named [a.txt], [gone] does not
    exist, and every other path is a file holding [My SSN]; writing always
    works and leaves a trace, and standard input is a list of answers. *)
Module Sample.

Definition FS : Type := list (string * bytes).
Definition Console : Type := list string.

Definition Stat (f : FS) (path : string) : option Main.FileInfo :=
  if String.eqb path "docs" then Some {| Main.Name := "docs"; Main.IsDir := true |}
  else if String.eqb path "gone" then None
  else Some {| Main.Name := path; Main.IsDir := false |}.

Definition ReadDir (n : nat) (f : FS) (path : string)
  : option (list Main.FileInfo) :=
  if String.eqb path "docs"
  then Some ({| Main.Name := "old"; Main.IsDir := true |}
             :: repeat {| Main.Name := "a.txt"; Main.IsDir := false |} n)
  else None.

Definition ReadFile (f : FS) (path : string) : option bytes :=
  Some (bytes_of "My SSN").

Definition WriteFile (f : FS) (path : string) (data : bytes) : option FS :=
  Some ((path, data) :: f).

Definition outputFileOf (f : FS) (file outputDir : string) : string :=
  (file ++ "_redacted")%string.

Definition Abs (path : string) : option string :=
  Some ("/home/user/" ++ path)%string.

Definition Join (a b : string) : string := (a ++ "/" ++ b)%string.

Definition ToLower (s : string) : string :=
  if String.eqb s "Y" then "y"%string else s.

Definition Scanln (c : Console) : string * Console :=
  match c with
  | [] => (EmptyString, [])
  | answer :: c' => (answer, c')
  end.

(** The separator is [/]; for a path of one element, [filepath.Base] is
    the path and [filepath.Dir] is [.]. *)
Definition IsPathSeparator (c : Ascii.ascii) : bool :=
  Ascii.eqb c (Ascii.Ascii true true true true false true false false).
Definition Base (path : string) : string := path.
Definition Dir (path : string) : string := "."%string.

(** Standard input closed: [fmt.Scanln] reads nothing. *)
Definition closed (c : unit) : string * unit := (EmptyString, c).

(** The program on this system, with a directory of [n] files. *)
Definition main (n : nat) (mode : string) (token : bytes) (file : string)
    (answers : Console) : Main.status * Main.world FS Console :=
  Main.main FS Console Stat (ReadDir n) ReadFile WriteFile outputFileOf
    Abs Join ToLower Scanln mode token EmptyString file [] answers.

End Sample.

(** The file that a printed line is about, for the lines that name the
    file handed to [processFile]. *)
Definition subject (l : Main.line) : option string :=
  match l with
  | Main.FromProcessFile (Driver.CouldNotRead file) => Some file
  | Main.FromProcessFile (Driver.Found file _ _) => Some file
  | Main.FromProcessFile (Driver.Processed file _) => Some file
  | _ => None
  end.

(** Every printed line that is about a file is about one of [files]. *)
Definition within (files : list string) (ls : list Main.line) : Prop :=
  forall l x, In l ls -> subject l = Some x -> In x files.


(** What the loop of [filepath.Ext] has walked over, put back in front
    of what it has not. *)
Fixpoint forwards (rpath : list Ascii.ascii) (suffix : string) : string :=
  match rpath with
  | [] => suffix
  | c :: rpath' => forwards rpath' (String c suffix)
  end.

(* ================================================================== *)
(** * Properties *)

(** ** The examples of the specification *)

(** C1, as the specification has it, fails: the one-word qualifier [My] is
    part of the match. *)
Lemma redact_ssn_keeps_qualifier_fails :
  redact (bytes_of "My SSN is 123-45-6789")
  <> bytes_of "My [redacted] is 123-45-6789".
Proof. vm_compute. discriminate. Qed.

(** C1 (amended): on ["My SSN is 123-45-6789"] [redact] returns
    ["[redacted] is 123-45-6789"]: the phrase [SSN] is replaced together
    with the qualifier [My] before it, the digits stay. *)
Theorem redact_ssn_example :
  redact (bytes_of "My SSN is 123-45-6789")
  = bytes_of "[redacted] is 123-45-6789"
  /\ ReplaceAll Pat.redactPii (bytes_of "My SSN is 123-45-6789") redacted
     = bytes_of "[redacted] is 123-45-6789"
  /\ FindAll Pat.redactPii (bytes_of "My SSN is 123-45-6789")
     = [bytes_of "My SSN"].
Proof. vm_compute. repeat split. Qed.

(** C2, as the specification has it, fails: [Patient] is taken as the
    qualifier of [medical record]. *)
Lemma redact_medical_keeps_qualifier_fails :
  redact (bytes_of "Patient medical record attached")
  <> bytes_of "Patient [redacted] attached".
Proof. vm_compute. discriminate. Qed.

(** C2 (amended): on ["Patient medical record attached"] [redact] returns
    ["[redacted] attached"]: the match is [Patient medical record]. *)
Theorem redact_medical_example :
  redact (bytes_of "Patient medical record attached")
  = bytes_of "[redacted] attached"
  /\ FindAll Pat.redactSpii (bytes_of "Patient medical record attached")
     = [bytes_of "Patient medical record"].
Proof. vm_compute. repeat split. Qed.

(** C3: the detector counts [gender identity] as one SPII match (and
    [phone number] as one PII match), and [redact] returns both documents
    unchanged: its own patterns lack these alternatives. *)
Theorem redact_misses_detected_spii :
  FindAll Pat.spiiRegex (bytes_of "gender identity") = [bytes_of "gender identity"]
  /\ redact (bytes_of "gender identity") = bytes_of "gender identity"
  /\ FindAll Pat.piiRegex (bytes_of "phone number") = [bytes_of "phone number"]
  /\ redact (bytes_of "phone number") = bytes_of "phone number".
Proof. vm_compute. repeat split. Qed.

(** C10: [tokenize] with the default token is not idempotent: the word
    [TOKEN] inside the placeholder is replaced again, which gives
    [[[TOKEN]]]. *)
Theorem tokenize_not_idempotent :
  tokenize (bytes_of "secret") (bytes_of "[TOKEN]") = bytes_of "[TOKEN]"
  /\ tokenize (tokenize (bytes_of "secret") (bytes_of "[TOKEN]"))
       (bytes_of "[TOKEN]") = bytes_of "[[TOKEN]]"
  /\ exists D,
       tokenize (tokenize D (bytes_of "[TOKEN]")) (bytes_of "[TOKEN]")
       <> tokenize D (bytes_of "[TOKEN]").
Proof.
  split; [vm_compute; reflexivity|].
  split; [vm_compute; reflexivity|].
  exists (bytes_of "secret"). vm_compute. discriminate.
Qed.

(** ** The matcher *)

Lemma after_nil p : after p [] = p.
Proof. reflexivity. Qed.

Lemma after_app p m1 m2 : after p (m1 ++ m2) = after (after p m1) m2.
Proof.
  unfold after. rewrite rev_app_distr.
  destruct (rev m2) as [|b l]; simpl; [|reflexivity].
  reflexivity.
Qed.

Lemma advance_spec w p s :
  advance w (p, s) = (after p (firstn w s), skipn w s).
Proof. reflexivity. Qed.

(** A rune takes at least one byte and no more than there are. *)
Lemma DecodeRune_width b p r w :
  Utf8.DecodeRune (b :: p) = (r, w) -> 1 <= w <= length (b :: p).
Proof.
  unfold Utf8.DecodeRune.
  repeat match goal with
  | |- context [if ?c then _ else _] => destruct c
  | |- context [match ?x with _ => _ end] => destruct x
  end; intros H; inversion H; simpl; lia.
Qed.

Lemma stepCls_spec c p s st' :
  stepCls c (p, s) = Some st' ->
  exists m rn, m <> [] /\ s = m ++ snd st' /\ fst st' = after p m
    /\ Utf8.DecodeRune s = (rn, length m) /\ clsMatches c rn = true.
Proof.
  unfold stepCls. simpl. destruct s as [|b s0]; [discriminate|].
  destruct (Utf8.DecodeRune (b :: s0)) as [rn w] eqn:E.
  destruct (clsMatches c rn) eqn:M; [|discriminate].
  intros H. inversion H; subst st'. clear H.
  apply DecodeRune_width in E as W.
  exists (firstn w (b :: s0)), rn. simpl fst. simpl snd.
  rewrite firstn_skipn. rewrite length_firstn, Nat.min_l by lia.
  repeat split; auto.
  destruct w; [lia|]. simpl. discriminate.
Qed.

Lemma stepCls_complete c p m r rn :
  m <> [] -> Utf8.DecodeRune (m ++ r) = (rn, length m) ->
  clsMatches c rn = true ->
  stepCls c (p, m ++ r) = Some (after p m, r).
Proof.
  intros Hm E M. destruct m as [|b m0]; [congruence|].
  unfold stepCls. cbn [snd app].
  change (b :: m0 ++ r) with ((b :: m0) ++ r). rewrite E, M, advance_spec.
  rewrite firstn_app, Nat.sub_diag, firstn_all, firstn_O, app_nil_r.
  rewrite skipn_app, Nat.sub_diag, skipn_all, skipn_O. reflexivity.
Qed.

Lemma Match_char_inv c p m r :
  Match (RChar c) p m r ->
  m <> [] /\ exists rn,
    Utf8.DecodeRune (m ++ r) = (rn, length m) /\ clsMatches c rn = true.
Proof. intros H. inversion H; subst. eauto. Qed.

Lemma plusFrom_sound n c : forall p s st',
  In st' (plusFrom n c (p, s)) ->
  exists m, s = m ++ snd st' /\ fst st' = after p m
            /\ Match (RPlus c) p m (snd st').
Proof.
  induction n as [|n IH]; intros p s st' H; [contradiction|].
  simpl in H. destruct (stepCls c (p, s)) as [[p1 s1]|] eqn:E; [|contradiction].
  apply stepCls_spec in E as (m1 & rn & Hm1 & Hs & Hp & HD & HM).
  simpl in Hs, Hp. subst s p1.
  apply in_app_or in H as [H|[H|[]]].
  - apply IH in H as (m2 & Hs1 & Hp' & HM2). subst s1.
    exists (m1 ++ m2). rewrite <- app_assoc, after_app. repeat split; auto.
    apply MPlusMore; auto. econstructor; eauto.
  - subst st'. exists m1. repeat split. apply MPlusOne. econstructor; eauto.
Qed.

Lemma plusFrom_complete c p m r :
  Match (RPlus c) p m r ->
  forall n, length (m ++ r) <= n ->
  In (after p m, r) (plusFrom n c (p, m ++ r)).
Proof.
  remember (RPlus c) as re eqn:Ere. intros H. revert c Ere.
  induction H; intros c0 Ere; inversion Ere; subst; intros n Hn.
  - apply Match_char_inv in H as (Hm & rn & HD & HM).
    destruct n as [|n]; [destruct m; [congruence|simpl in Hn; lia]|].
    simpl. rewrite (stepCls_complete c0 p _ _ _ Hm HD HM).
    apply in_or_app. right. left. reflexivity.
  - apply Match_char_inv in H as (Hm & rn & HD & HM).
    destruct n as [|n]; [destruct m1; [congruence|simpl in Hn; lia]|].
    simpl. rewrite <- app_assoc.
    rewrite (stepCls_complete c0 p _ _ _ Hm HD HM).
    apply in_or_app. left. rewrite after_app.
    apply IHMatch2; auto.
    rewrite <- app_assoc, length_app in Hn.
    destruct m1; [congruence|simpl in Hn; lia].
Qed.

(** [run] lists exactly the ways [re] can match. *)
Lemma run_sound re : forall p s st',
  In st' (run re (p, s)) ->
  exists m, s = m ++ snd st' /\ fst st' = after p m /\ Match re p m (snd st').
Proof.
  induction re as [|c| |a IHa b IHb|a IHa b IHb|a IHa|c|a IHa];
    intros p s st' H; simpl in H.
  - destruct H as [H|[]]; subst st'. exists []. repeat split. constructor.
  - destruct (stepCls c (p, s)) as [st1|] eqn:E; [|contradiction].
    destruct H as [H|[]]; subst st1.
    apply stepCls_spec in E as (m & rn & Hm & Hs & Hp & HD & HM).
    exists m. repeat split; auto. subst s. econstructor; eauto.
  - destruct (atBoundary (p, s)) eqn:E; [|contradiction].
    destruct H as [H|[]]; subst st'. exists []. repeat split. constructor; auto.
  - apply in_flat_map in H as ([p1 s1] & H1 & H2).
    apply IHa in H1 as (m1 & Hs & Hp & HM1). simpl in Hs, Hp, HM1.
    apply IHb in H2 as (m2 & Hs2 & Hp2 & HM2). subst.
    exists (m1 ++ m2). rewrite <- app_assoc, after_app. repeat split; auto.
    constructor; auto.
  - apply in_app_or in H as [H|H].
    + apply IHa in H as (m & ? & ? & ?). exists m. repeat split; auto.
      apply MAltL; auto.
    + apply IHb in H as (m & ? & ? & ?). exists m. repeat split; auto.
      apply MAltR; auto.
  - apply in_app_or in H as [H|[H|[]]].
    + apply IHa in H as (m & ? & ? & ?). exists m. repeat split; auto.
      apply MOptSome; auto.
    + subst st'. exists []. repeat split. apply MOptNone.
  - apply plusFrom_sound in H. exact H.
  - apply IHa in H as (m & ? & ? & ?). exists m. repeat split; auto.
    constructor; auto.
Qed.

Lemma run_complete re p m r :
  Match re p m r -> In (after p m, r) (run re (p, m ++ r)).
Proof.
  induction 1; cbn [run app snd].
  - left. reflexivity.
  - rewrite (stepCls_complete c p _ _ _ H H0 H1). left. reflexivity.
  - rewrite H. left. reflexivity.
  - apply in_flat_map. exists (after p m1, m2 ++ r). split.
    + rewrite <- app_assoc. exact IHMatch1.
    + rewrite after_app. exact IHMatch2.
  - apply in_or_app. left. exact IHMatch.
  - apply in_or_app. right. exact IHMatch.
  - apply in_or_app. left. exact IHMatch.
  - apply in_or_app. right. left. reflexivity.
  - apply plusFrom_complete; [apply MPlusOne; auto|]. simpl. lia.
  - apply plusFrom_complete; [eapply MPlusMore; eauto|]. simpl. lia.
  - exact IHMatch.
Qed.

(** *** Bytes from 0x80 up *)

Lemma in_range_iff lo hi x : in_range lo hi x = true <-> (lo <= x <= hi)%N.
Proof.
  unfold in_range. rewrite andb_true_iff, !N.leb_le. reflexivity.
Qed.

Lemma in_range_false lo hi x :
  (x < lo \/ hi < x)%N -> in_range lo hi x = false.
Proof.
  intros H. destruct (in_range lo hi x) eqn:E; [|reflexivity].
  apply in_range_iff in E. lia.
Qed.

Lemma isWordRune_high r : (128 <= r)%N -> isWordRune r = false.
Proof.
  intros H. unfold isWordRune.
  rewrite !in_range_false by lia.
  destruct (N.eqb_spec r 95); [lia|reflexivity].
Qed.

Lemma highByte_not_word b : highByte b -> isWordByte b = false.
Proof. apply isWordRune_high. Qed.

Lemma lead_spec p0 sz lo hi :
  Utf8.lead p0 = Some (sz, lo, hi) ->
  (128 <= lo)%N /\ (128 <= p0)%N /\ (sz = 2 \/ sz = 3 \/ sz = 4).
Proof.
  unfold Utf8.lead.
  repeat match goal with
  | |- context [if ?c then _ else _] => destruct c eqn:?
  end; intros H; inversion H; subst;
  repeat match goal with
  | E : in_range _ _ _ = true |- _ => apply in_range_iff in E
  | E : (_ =? _)%N = true |- _ => apply N.eqb_eq in E
  end; repeat split; try lia; auto.
Qed.

(** A rune of more than one byte is made of bytes from 0x80 up. *)
Lemma DecodeRune_multi s r w :
  Utf8.DecodeRune s = (r, w) -> 1 < w -> Forall highByte (firstn w s).
Proof.
  unfold Utf8.DecodeRune.
  destruct s as [|b0 s]; [intros H; inversion H; lia|].
  destruct (bval b0 <? 128)%N eqn:E0; [intros H; inversion H; lia|].
  apply N.ltb_ge in E0.
  destruct (Utf8.lead (bval b0)) as [[[sz lo] hi]|] eqn:EL;
    [|intros H; inversion H; lia].
  apply lead_spec in EL as (Hlo & _ & _).
  assert (Hin : forall b, in_range lo hi (bval b) = true -> highByte b).
  { intros b Hb. apply in_range_iff in Hb. unfold highByte. lia. }
  assert (Hc : forall b, Utf8.cont (bval b) = true -> highByte b).
  { intros b Hb. apply in_range_iff in Hb. unfold highByte. lia. }
  repeat match goal with
  | |- context [if negb ?c then _ else _] => destruct c eqn:?; cbn [negb]
  | |- context [if ?c then _ else _] => destruct c
  | |- context [match ?x with _ => _ end] => destruct x
  end; intros H; inversion H; subst; intros Hw; try lia;
  cbn [firstn]; repeat constructor; auto.
Qed.

Lemma atBoundary_high p b s :
  highByte b -> wordBefore (p, b :: s) = false -> atBoundary (p, b :: s) = false.
Proof.
  intros Hb Hp. unfold atBoundary. rewrite Hp. unfold wordAfter. simpl.
  rewrite (highByte_not_word _ Hb). reflexivity.
Qed.

(** *** The leftmost match *)

Lemma firstn_plus {A} a b (l : list A) :
  firstn (a + b) l = firstn a l ++ firstn b (skipn a l).
Proof.
  revert l. induction a as [|a IH]; intros l; [reflexivity|].
  destruct l as [|x l]; [simpl; rewrite firstn_nil; reflexivity|].
  simpl. rewrite IH. reflexivity.
Qed.

Lemma Forall_firstn {A} (P : A -> Prop) n : forall l,
  Forall P l -> Forall P (firstn n l).
Proof.
  induction n as [|n IH]; intros l H; [constructor|].
  destruct H; simpl; constructor; auto.
Qed.

Lemma posAt_0 p s : posAt p s 0 = (p, s).
Proof. reflexivity. Qed.

Lemma posAt_plus p s a b :
  posAt p s (a + b) = posAt (after p (firstn a s)) (skipn a s) b.
Proof.
  unfold posAt. rewrite firstn_plus, after_app, skipn_skipn.
  rewrite (Nat.add_comm b a). reflexivity.
Qed.

Lemma posAt_app p m r : posAt p (m ++ r) (length m) = (after p m, r).
Proof.
  unfold posAt. rewrite firstn_app, Nat.sub_diag, firstn_all, firstn_O, app_nil_r.
  rewrite skipn_app, Nat.sub_diag, skipn_all, skipn_O. reflexivity.
Qed.

Lemma matchHere_Some re p s m st' :
  matchHere re (p, s) = Some (m, st') ->
  s = m ++ snd st' /\ fst st' = after p m /\ Match re p m (snd st').
Proof.
  unfold matchHere. destruct (run re (p, s)) as [|st1 l] eqn:E; [discriminate|].
  assert (Hin : In st1 (run re (p, s))) by (rewrite E; left; reflexivity).
  apply run_sound in Hin as (m0 & Hs & Hp & HM). subst s.
  cbn [snd]. rewrite length_app, Nat.add_sub.
  rewrite firstn_app, Nat.sub_diag, firstn_all, firstn_O, app_nil_r.
  intros H. inversion H; subst. auto.
Qed.

Lemma matchHere_None re st : matchHere re st = None <-> run re st = [].
Proof.
  unfold matchHere. destruct (run re st); split; intros; congruence.
Qed.

Lemma run_nil_no_match re p m r :
  run re (p, m ++ r) = [] -> ~ Match re p m r.
Proof.
  intros E H. apply run_complete in H. rewrite E in H. contradiction.
Qed.

(** Inside a rune of several bytes there is no word boundary. *)
Lemma no_boundary_inside_rune p s r w i :
  Utf8.DecodeRune s = (r, w) -> 0 < i < w -> atBoundary (posAt p s i) = false.
Proof.
  intros E Hi. assert (Hw : 1 < w) by lia.
  pose proof (DecodeRune_multi _ _ _ E Hw) as Hh.
  destruct s as [|b0 s0]; [simpl in E; inversion E; lia|].
  apply DecodeRune_width in E as Hlen.
  assert (Hs : b0 :: s0 = firstn i (b0 :: s0) ++ skipn i (b0 :: s0))
    by (symmetry; apply firstn_skipn).
  unfold posAt.
  assert (Hf : Forall highByte (firstn i (b0 :: s0))).
  { replace i with (Nat.min i w) by lia. rewrite <- firstn_firstn.
    apply Forall_firstn. exact Hh. }
  assert (Hk : exists c t, skipn i (b0 :: s0) = c :: t /\ highByte c).
  { replace w with (i + (w - i)) in Hh by lia. rewrite firstn_plus in Hh.
    apply Forall_app in Hh as [_ Hh].
    destruct (skipn i (b0 :: s0)) as [|c t] eqn:Ek.
    - apply (f_equal (@length byte)) in Ek. rewrite length_skipn in Ek.
      change (length (@nil byte)) with 0 in Ek. lia.
    - exists c, t. split; auto. destruct (w - i) eqn:Ew; [lia|].
      simpl in Hh. inversion Hh; auto. }
  destruct Hk as (c & t & Ek & Hc). rewrite Ek.
  apply atBoundary_high; auto.
  unfold wordBefore, after. cbn [fst].
  destruct (rev (firstn i (b0 :: s0))) as [|l ls] eqn:Er.
  - apply (f_equal (@length byte)) in Er. rewrite length_rev, length_firstn in Er.
    change (length (@nil byte)) with 0 in Er. lia.
  - apply highByte_not_word. eapply Forall_forall; [exact Hf|].
    apply in_rev. rewrite Er. left. reflexivity.
Qed.

Lemma search_spec re : forall fuel p s sk m st',
  search fuel re (p, s) = Some (sk, m, st') ->
  s = sk ++ m ++ snd st' /\ fst st' = after p (sk ++ m)
  /\ Match re (after p sk) m (snd st')
  /\ (sk <> [] -> snd (Utf8.DecodeRune s) <= length sk)
  /\ (boundFirst re -> forall i, i < length sk -> run re (posAt p s i) = []).
Proof.
  induction fuel as [|fuel IH]; intros p s sk m st' H; simpl in H;
    destruct (matchHere re (p, s)) as [[m0 st0]|] eqn:E.
  1,3: inversion H; subst; clear H;
    apply matchHere_Some in E as (Hs & Hp & HM);
    repeat split; auto; [congruence | simpl; intros; lia].
  - discriminate.
  - destruct s as [|b s0]; [discriminate|].
    destruct (Utf8.DecodeRune (b :: s0)) as [rn w] eqn:ED. cbn [snd] in H.
    rewrite advance_spec in H.
    destruct (search fuel re (after p (firstn w (b :: s0)), skipn w (b :: s0)))
      as [[[sk' m'] st'']|] eqn:ES; [|discriminate].
    inversion H; subst; clear H.
    apply IH in ES as (Hs & Hp & HM & _ & Hskip).
    apply DecodeRune_width in ED as Hw.
    assert (Hlen : length (firstn w (b :: s0)) = w)
      by (rewrite length_firstn; lia).
    repeat split.
    + rewrite <- app_assoc, <- Hs. symmetry. apply firstn_skipn.
    + rewrite Hp, <- app_assoc, !after_app. reflexivity.
    + rewrite after_app. exact HM.
    + intros _. rewrite length_app, Hlen. cbn [snd]. lia.
    + intros HB i Hi. rewrite length_app, Hlen in Hi.
      destruct (Nat.eq_dec i 0) as [->|Hi0].
      { rewrite posAt_0. apply matchHere_None. exact E. }
      destruct (Nat.lt_ge_cases i w) as [Hlt|Hge].
      { apply HB. eapply no_boundary_inside_rune; eauto. lia. }
      replace i with (w + (i - w)) by lia. rewrite posAt_plus.
      apply Hskip; auto. lia.
Qed.

Lemma search_none re : forall fuel p s,
  search fuel re (p, s) = None -> length s <= fuel -> boundFirst re ->
  forall i, run re (posAt p s i) = [].
Proof.
  induction fuel as [|fuel IH]; intros p s H Hf HB i; simpl in H;
    destruct (matchHere re (p, s)) as [[m0 st0]|] eqn:E; try discriminate.
  - destruct s; [|simpl in Hf; lia]. unfold posAt.
    rewrite firstn_nil, skipn_nil. apply matchHere_None. exact E.
  - destruct s as [|b s0].
    { unfold posAt. rewrite firstn_nil, skipn_nil. apply matchHere_None. exact E. }
    destruct (Utf8.DecodeRune (b :: s0)) as [rn w] eqn:ED. cbn [snd] in H.
    rewrite advance_spec in H.
    destruct (search fuel re (after p (firstn w (b :: s0)), skipn w (b :: s0)))
      as [[[sk' m'] st'']|] eqn:ES; [discriminate|].
    apply DecodeRune_width in ED as Hw.
    destruct (Nat.eq_dec i 0) as [->|Hi0].
    { rewrite posAt_0. apply matchHere_None. exact E. }
    destruct (Nat.lt_ge_cases i w) as [Hlt|Hge].
    { apply HB. eapply no_boundary_inside_rune; eauto. lia. }
    replace i with (w + (i - w)) by lia. rewrite posAt_plus.
    apply IH; auto. rewrite length_skipn. lia.
Qed.

(** *** Patterns without empty matches *)

Lemma nullable_false_nonempty re p m r :
  Match re p m r -> nullable re = false -> m <> [].
Proof.
  induction 1; cbn [nullable]; intros Hn; try discriminate.
  - exact H.
  - apply andb_false_iff in Hn as [Hn|Hn].
    + apply IHMatch1 in Hn. destruct m1; [congruence|discriminate].
    + apply IHMatch2 in Hn. destruct m2; [congruence|].
      destruct m1; discriminate.
  - apply orb_false_iff in Hn as [Hn _]. auto.
  - apply orb_false_iff in Hn as [_ Hn]. auto.
  - auto.
  - apply Match_char_inv in H as [H _]. destruct m1; [congruence|discriminate].
  - auto.
Qed.

(** A match that is not empty takes the whole first rune. *)
Lemma Match_first_rune re p m r :
  Match re p m r -> m <> [] -> snd (Utf8.DecodeRune (m ++ r)) <= length m.
Proof.
  induction 1; intros Hm; try congruence.
  - rewrite H0. cbn [snd]. lia.
  - rewrite <- app_assoc, length_app. destruct m1 as [|x m1].
    + apply IHMatch2. exact Hm.
    + assert (Hne : x :: m1 <> []) by discriminate.
      apply IHMatch1 in Hne. lia.
  - auto.
  - auto.
  - auto.
  - auto.
  - rewrite <- app_assoc, length_app.
    apply Match_char_inv in H as (Hne & rn & HD & _).
    rewrite HD. cbn [snd]. lia.
  - auto.
Qed.

Lemma find_spec re p s sk m st' :
  find re (p, s) = Some (sk, m, st') ->
  s = sk ++ m ++ snd st' /\ fst st' = after p (sk ++ m)
  /\ Match re (after p sk) m (snd st')
  /\ (sk <> [] -> snd (Utf8.DecodeRune s) <= length sk)
  /\ (boundFirst re -> forall i, i < length sk -> run re (posAt p s i) = []).
Proof. apply search_spec. Qed.

Lemma find_none re p s :
  find re (p, s) = None -> boundFirst re ->
  forall i, run re (posAt p s i) = [].
Proof. intros H. eapply search_none; eauto. Qed.

Lemma isNil_false (l : bytes) : l <> [] -> isNil l = false.
Proof. destruct l; [congruence|reflexivity]. Qed.

(** For such a pattern the loop of [replaceAll] goes from match to match. *)
Lemma replaceLoop_Pass re repl :
  nullable re = false ->
  forall fuel st b, length (snd st) < fuel ->
  Pass re repl st (replaceLoop fuel re repl b [] st).
Proof.
  intros Hn. induction fuel as [|fuel IH]; intros [p s] b Hf; [lia|].
  cbn [replaceLoop snd] in *.
  destruct (find re (p, s)) as [[[sk m] st']|] eqn:E.
  - apply find_spec in E as HS. destruct HS as (Hs & Hp & HM & Hw & _).
    pose proof (nullable_false_nonempty _ _ _ _ HM Hn) as Hm.
    assert (Hnil : isNil ([] ++ sk ++ m) = false).
    { apply isNil_false. destruct sk; [exact Hm|discriminate]. }
    rewrite Hnil. cbn [negb orb app].
    assert (Hlt : (length sk + length m <? snd (Utf8.DecodeRune s)) = false).
    { apply Nat.ltb_ge. destruct sk as [|b0 sk].
      - apply (Match_first_rune _ _ _ _ HM) in Hm. simpl in Hs. subst s.
        simpl. exact Hm.
      - assert (Hne : b0 :: sk <> []) by discriminate. apply Hw in Hne. lia. }
    rewrite Hlt.
    assert (Hlt1 : (length sk + length m <? 1) = false).
    { apply Nat.ltb_ge. destruct m; [congruence|simpl; lia]. }
    rewrite Hlt1. eapply PassStep; [exact E|].
    apply IH. apply (f_equal (@length byte)) in Hs.
    rewrite !length_app in Hs. destruct m; [congruence|simpl in Hs; lia].
  - simpl. replace s with (snd (p, s)) at 2 by reflexivity.
    apply PassDone. exact E.
Qed.

Lemma ReplaceAllFunc_Pass re repl src :
  nullable re = false -> Pass re repl (None, src) (ReplaceAllFunc re src repl).
Proof.
  intros Hn. unfold ReplaceAllFunc. apply replaceLoop_Pass; auto.
Qed.

(** *** Runes below 0x80 *)

Lemma mod64_cont x : (128 <= x <= 191)%N -> (x mod 64 = x - 128)%N.
Proof.
  intros H. replace x with ((x - 128) + 2 * 64)%N at 1 by lia.
  rewrite N.Div0.mod_add. apply N.mod_small. lia.
Qed.

Lemma lead_facts b0 sz lo hi :
  Utf8.lead (bval b0) = Some (sz, lo, hi) ->
  (128 <= lo)%N /\ (hi <= 191)%N /\
  ((sz = 2%nat /\ 2 <= bval b0 mod 32)
   \/ (sz = 3%nat /\ (1 <= bval b0 mod 16 \/ 160 <= lo))
   \/ (sz = 4%nat /\ (1 <= bval b0 mod 8 \/ 144 <= lo)))%N.
Proof.
  destruct b0; vm_compute; intros H; try discriminate;
    inversion H; subst; clear H;
    (split; [discriminate|]); (split; [discriminate|]);
    first [ left; split; [reflexivity|discriminate]
          | right; left; split; [reflexivity|];
            first [left; discriminate | right; discriminate]
          | right; right; split; [reflexivity|];
            first [left; discriminate | right; discriminate] ].
Qed.

(** A rune decoded from a byte from 0x80 up is no ASCII rune. *)
Lemma DecodeRune_high b0 s rn w :
  Utf8.DecodeRune (b0 :: s) = (rn, w) -> highByte b0 -> (128 <= rn)%N.
Proof.
  unfold Utf8.DecodeRune, highByte. intros H Hb.
  destruct (bval b0 <? 128)%N eqn:E0; [apply N.ltb_lt in E0; lia|].
  destruct (Utf8.lead (bval b0)) as [[[sz lo] hi]|] eqn:EL;
    [|inversion H; unfold RuneError; lia].
  apply lead_facts in EL as (Hlo & Hhi & Hsz).
  revert H.
  repeat match goal with
  | |- context [if negb ?c then _ else _] => destruct c eqn:?; cbn [negb]
  | |- context [if ?c then _ else _] => destruct c eqn:?
  | |- context [match ?x with _ => _ end] => destruct x eqn:?
  end; intros H; inversion H; subst; clear H; unfold RuneError; try lia;
  repeat match goal with
  | E : in_range _ _ _ = true |- _ => apply in_range_iff in E
  | E : Utf8.cont _ = true |- _ => apply in_range_iff in E
  | E : (_ <=? _)%nat = true |- _ => apply Nat.leb_le in E
  | E : (_ <=? _)%nat = false |- _ => apply Nat.leb_gt in E
  end;
  repeat match goal with
  | |- context [(bval ?c mod 64)%N] =>
      rewrite (mod64_cont (bval c)) by lia
  end;
  destruct Hsz as [[? ?]|[[? [?|?]]|[? [?|?]]]]; subst; try lia;
  repeat match goal with
  | |- context [(bval b0 mod ?k)%N] => generalize (bval b0 mod k)%N; intros
  end; lia.
Qed.

Lemma DecodeRune_ascii s rn w :
  Utf8.DecodeRune s = (rn, w) -> (rn < 128)%N ->
  exists b t, s = b :: t /\ w = 1 /\ bval b = rn.
Proof.
  intros H Hr. destruct s as [|b t].
  - simpl in H. inversion H; subst. unfold RuneError in Hr. lia.
  - exists b, t. destruct (N.lt_ge_cases (bval b) 128) as [Hb|Hb].
    + unfold Utf8.DecodeRune in H. apply N.ltb_lt in Hb. rewrite Hb in H.
      inversion H; auto.
    + apply DecodeRune_high in H; [lia|exact Hb].
Qed.

Lemma DecodeRune_ascii_byte b t :
  (bval b < 128)%N -> Utf8.DecodeRune (b :: t) = (bval b, 1).
Proof.
  intros Hb. unfold Utf8.DecodeRune. apply N.ltb_lt in Hb. rewrite Hb.
  reflexivity.
Qed.

Lemma isWordRune_ascii r : isWordRune r = true -> (r < 128)%N.
Proof.
  intros H. destruct (N.lt_ge_cases r 128) as [Hr|Hr]; [exact Hr|].
  rewrite isWordRune_high in H by exact Hr. discriminate.
Qed.

(** ** [tokenize] *)

Lemma after_cons p b l : after p (b :: l) = after (Some b) l.
Proof. change (b :: l) with ([b] ++ l). rewrite after_app. reflexivity. Qed.

Lemma posAt_S p b s i : posAt p (b :: s) (S i) = posAt (Some b) s i.
Proof. unfold posAt. cbn [firstn skipn]. rewrite after_cons. reflexivity. Qed.

Lemma wordByte_ascii b : isWordByte b = true -> (bval b < 128)%N.
Proof. apply isWordRune_ascii. Qed.

Lemma wordPrefix_split s : s = wordPrefix s ++ wordRest s.
Proof.
  induction s as [|b s IH]; [reflexivity|]. simpl.
  destruct (isWordByte b); simpl; congruence.
Qed.

Lemma wordPrefix_allWord s : allWord (wordPrefix s).
Proof.
  induction s as [|b s IH]; simpl; [constructor|].
  destruct (isWordByte b) eqn:E; constructor; auto.
Qed.

Lemma wordRest_start s : wordAfter (None, wordRest s) = false.
Proof.
  induction s as [|b s IH]; [reflexivity|]. simpl.
  destruct (isWordByte b) eqn:E; [exact IH|]. unfold wordAfter. simpl. exact E.
Qed.

Lemma plus_word_match m : forall p r,
  m <> [] -> allWord m -> Match (RPlus CWord) p m r.
Proof.
  induction m as [|b m IH]; intros p r Hm Hw; [congruence|].
  apply Forall_cons_iff in Hw as [Hb Hw'].
  assert (HC : forall t, Match (RChar CWord) p [b] t).
  { intros t. apply MChar with (rn := bval b); [discriminate| |exact Hb].
    apply DecodeRune_ascii_byte. apply wordByte_ascii. exact Hb. }
  destruct m as [|b' m'].
  - apply MPlusOne. apply HC.
  - change (b :: b' :: m') with ([b] ++ b' :: m').
    apply MPlusMore; [apply HC|]. apply IH; [discriminate|exact Hw'].
Qed.

Lemma char_word_inv p m r :
  Match (RChar CWord) p m r -> exists b, m = [b] /\ isWordByte b = true.
Proof.
  intros H. apply Match_char_inv in H as (Hm & rn & HD & HM).
  cbn [clsMatches] in HM. pose proof (isWordRune_ascii _ HM) as Hr.
  apply DecodeRune_ascii in HD as (b & t & Hs & Hl & Hb); [|exact Hr].
  destruct m as [|b0 [|b1 m]]; try (simpl in Hl; congruence).
  simpl in Hs. inversion Hs; subst. exists b. split; [reflexivity|].
  exact HM.
Qed.

Lemma plus_word_inv p m r :
  Match (RPlus CWord) p m r -> m <> [] /\ allWord m.
Proof.
  remember (RPlus CWord) as re eqn:E. intros H. revert E.
  induction H; intros E; inversion E; subst.
  - apply char_word_inv in H as (b & -> & Hb). split; [discriminate|].
    constructor; [exact Hb|constructor].
  - apply char_word_inv in H as (b & -> & Hb).
    destruct (IHMatch2 eq_refl) as [_ Hw]. split; [discriminate|].
    constructor; auto.
Qed.

Lemma wordRun_unfold :
  Pat.wordRun = RSeq RBound (RSeq (RGroup (RPlus CWord)) RBound).
Proof. reflexivity. Qed.

Lemma after_allWord p m : m <> [] -> allWord m -> wordBefore (after p m, @nil byte) = true.
Proof.
  intros Hm Hw. unfold wordBefore, after. cbn [fst].
  destruct (rev m) as [|b l] eqn:E.
  - apply (f_equal (@rev byte)) in E. rewrite rev_involutive in E.
    simpl in E. congruence.
  - eapply Forall_forall in Hw; [exact Hw|]. apply in_rev. rewrite E. left.
    reflexivity.
Qed.

Lemma wordRun_inv p m r :
  Match Pat.wordRun p m r ->
  m <> [] /\ allWord m /\ atBoundary (p, m ++ r) = true
  /\ atBoundary (after p m, r) = true.
Proof.
  rewrite wordRun_unfold. intros H.
  inversion H as [| | |? ? ? m1 m23 ? H1 H23| | | | | | |]; subst; clear H.
  inversion H1; subst; clear H1.
  inversion H23 as [| | |? ? ? m2 m3 ? H2 H3| | | | | | |]; subst; clear H23.
  inversion H3; subst; clear H3.
  inversion H2; subst; clear H2.
  match goal with H : Match (RPlus CWord) _ _ _ |- _ =>
    apply plus_word_inv in H as [Hm Hw] end.
  cbn [app after] in *. rewrite app_nil_r in *. rewrite after_nil in *.
  repeat split; auto.
Qed.

Lemma wordRun_match p w s :
  wordBefore (p, w :: s) = false -> isWordByte w = true ->
  exists m r, w :: s = m ++ r /\ Match Pat.wordRun p m r.
Proof.
  intros Hp Hw. exists (wordPrefix (w :: s)), (wordRest (w :: s)).
  split; [apply wordPrefix_split|].
  pose proof (wordPrefix_allWord (w :: s)) as Hall.
  pose proof (wordRest_start (w :: s)) as Hrest.
  assert (Hne : wordPrefix (w :: s) <> []) by (simpl; rewrite Hw; discriminate).
  remember (wordPrefix (w :: s)) as m. remember (wordRest (w :: s)) as r.
  rewrite wordRun_unfold.
  replace m with ([] ++ (m ++ [])) by (simpl; apply app_nil_r).
  apply MSeq.
  - apply MBound. rewrite app_nil_r. unfold atBoundary.
    replace (wordBefore (p, m ++ r)) with false by (symmetry; exact Hp).
    unfold wordAfter. cbn [snd]. destruct m as [|b m']; [congruence|].
    apply Forall_cons_iff in Hall as [Hb _]. simpl. rewrite Hb. reflexivity.
  - rewrite after_nil. apply MSeq.
    + apply MGroup. rewrite app_nil_l. apply plus_word_match; auto.
    + apply MBound. unfold atBoundary.
      replace (wordBefore (after p m, r)) with true
        by (symmetry; apply (after_allWord p m Hne Hall)).
      replace (wordAfter (after p m, r)) with false by (symmetry; exact Hrest).
      reflexivity.
Qed.

Lemma wordRun_boundFirst : boundFirst Pat.wordRun.
Proof. intros st H. rewrite wordRun_unfold. cbn [run]. rewrite H. reflexivity. Qed.

Lemma maskWords_noWord T f s : noWord s -> maskWords T f s = s.
Proof.
  revert f. induction s as [|b s IH]; intros f H; [reflexivity|].
  apply Forall_cons_iff in H as [Hb Hs]. simpl. rewrite Hb, IH; auto.
Qed.

Lemma maskWords_skip T f s t :
  noWord s -> s <> [] \/ f = false ->
  maskWords T f (s ++ t) = s ++ maskWords T false t.
Proof.
  intros H. revert f. induction H as [|b s Hb Hs IH]; intros f Hf.
  - destruct Hf as [Hf| ->]; [congruence|reflexivity].
  - simpl. rewrite Hb. f_equal. apply IH. right. reflexivity.
Qed.

Lemma maskWords_inWord T m t :
  allWord m -> maskWords T true (m ++ t) = maskWords T true t.
Proof.
  induction 1 as [|b m Hb Hm IH]; [reflexivity|]. simpl. rewrite Hb. exact IH.
Qed.

Lemma maskWords_run T m t :
  allWord m -> m <> [] ->
  maskWords T false (m ++ t) = T ++ maskWords T true t.
Proof.
  intros H Hm. destruct H as [|b m Hb H]; [congruence|].
  simpl. rewrite Hb. f_equal. apply maskWords_inWord. exact H.
Qed.

Lemma maskWords_flag T p t :
  wordAfter (p, t) = false -> maskWords T true t = maskWords T false t.
Proof.
  destruct t as [|b t]; [reflexivity|]. unfold wordAfter. simpl.
  intros ->. reflexivity.
Qed.

(** Where the search of [tokenize] finds nothing, there is no word
    character. *)
Lemma skipped_noWord n : forall p s,
  notInWord (p, s) ->
  (forall i, i < n -> run Pat.wordRun (posAt p s i) = []) ->
  n <= length s -> noWord (firstn n s).
Proof.
  induction n as [|n IH]; intros p s Hin Hno Hlen; [constructor|].
  destruct s as [|b s]; [simpl in Hlen; lia|].
  assert (Hb : isWordByte b = false).
  { destruct (isWordByte b) eqn:Hb; [|reflexivity]. exfalso.
    assert (Hp : wordBefore (p, b :: s) = false).
    { destruct (wordBefore (p, b :: s)) eqn:Hp; [|reflexivity].
      apply Hin in Hp. unfold wordAfter in Hp. simpl in Hp. congruence. }
    destruct (wordRun_match p b s Hp Hb) as (m & r & Hs & HM).
    apply run_complete in HM. rewrite <- Hs in HM.
    rewrite <- (posAt_0 p (b :: s)), Hno in HM by lia. contradiction. }
  cbn [firstn]. constructor; [exact Hb|].
  apply IH with (p := Some b).
  - intros Hw. unfold wordBefore in Hw. simpl in Hw. congruence.
  - intros i Hi. rewrite <- (posAt_S p). apply Hno. lia.
  - simpl in Hlen. lia.
Qed.

Lemma tokenize_Pass T st out :
  Pass Pat.wordRun (fun _ => T) st out -> notInWord st ->
  out = maskWords T false (snd st).
Proof.
  induction 1 as [[p s] Hf|[p s] sk m [p' s'] out Hf HP IH]; intros Hin.
  - cbn [snd]. symmetry. apply maskWords_noWord.
    rewrite <- (firstn_all s). apply skipped_noWord with (p := p); auto.
    intros i _. apply find_none; [exact Hf|apply wordRun_boundFirst].
  - apply find_spec in Hf as (Hs & Hp & HM & _ & Hskip). cbn [snd fst] in *.
    apply wordRun_inv in HM as (Hm & Hw & _ & Hend).
    assert (Hsk : noWord sk).
    { replace sk with (firstn (length sk) s)
        by (rewrite Hs, firstn_app, Nat.sub_diag, firstn_all, firstn_O;
            apply app_nil_r).
      apply skipped_noWord with (p := p); auto.
      - intros i Hi. apply Hskip; [apply wordRun_boundFirst|exact Hi].
      - rewrite Hs, length_app. lia. }
    assert (Hafter : wordAfter (p', s') = false).
    { unfold atBoundary in Hend.
      replace (wordBefore (after (after p sk) m, s')) with true in Hend
        by (symmetry; apply (after_allWord _ m Hm Hw)).
      destruct (wordAfter (after (after p sk) m, s')) eqn:E; [discriminate|].
      exact E. }
    rewrite IH by (intros _; exact Hafter).
    rewrite Hs. destruct sk as [|b sk].
    + cbn [app]. rewrite maskWords_run by auto.
      rewrite (maskWords_flag T p' s' Hafter). reflexivity.
    + rewrite maskWords_skip by (auto; left; discriminate).
      rewrite maskWords_run by auto.
      rewrite (maskWords_flag T p' s' Hafter). reflexivity.
Qed.

Lemma tokenize_maskWords D T : tokenize D T = maskWords T false D.
Proof.
  unfold tokenize.
  apply (tokenize_Pass T (None, D)).
  - apply ReplaceAllFunc_Pass. reflexivity.
  - intros H. discriminate.
Qed.

(** C5: [tokenize] is the function that replaces every maximal run of
    word characters by the token and keeps every other byte: a stretch
    without word characters stays as it is, the run of word characters
    after it gives way to one copy of the token, and so on to the end of the
    document. *)
Theorem tokenize_masks_every_word_run (D T : bytes) :
  tokenize D T = maskWords T false D
  /\ (noWord D -> tokenize D T = D)
  /\ (forall g w rest,
        D = g ++ w ++ rest -> noWord g -> allWord w -> w <> [] ->
        wordAfter (None, rest) = false ->
        tokenize D T = g ++ T ++ tokenize rest T).
Proof.
  split; [apply tokenize_maskWords|]. split.
  - intros H. rewrite tokenize_maskWords. apply maskWords_noWord. exact H.
  - intros g w rest -> Hg Hw Hne Hrest.
    rewrite !tokenize_maskWords.
    rewrite maskWords_skip by (auto; right; reflexivity).
    rewrite maskWords_run by auto.
    rewrite (maskWords_flag T None rest Hrest). reflexivity.
Qed.

Lemma tokenize_masks_every_word_run_witness :
  tokenize (bytes_of "Hello, world") (bytes_of "***") = bytes_of "***, ***".
Proof.
  destruct (tokenize_masks_every_word_run
              (bytes_of "Hello, world") (bytes_of "***")) as (_ & _ & H).
  rewrite (H [] (bytes_of "Hello") (bytes_of ", world"));
    [ reflexivity | reflexivity | constructor | repeat constructor
    | discriminate | reflexivity ].
Defined.

(** ** [redact] touches matched spans only *)

Lemma Pass_pieces re repl st out :
  Pass re repl st out -> nullable re = false ->
  exists ps tail,
    snd st = original ps tail /\ out = replaced repl ps tail
    /\ matchedIn re (fst st) ps tail
    /\ forall fuel b, length (snd st) < fuel ->
         allMatches fuel re b st = map snd ps.
Proof.
  intros H Hn.
  induction H as [[p s] Hf|[p s] sk m [p' s'] out Hf HP IH].
  - exists [], s. cbn. repeat split; auto.
    intros [|fuel] b Hl; [lia|]. cbn [allMatches]. rewrite Hf. reflexivity.
  - destruct IH as (ps & tail & Hs' & Hout & HM' & Hall).
    cbn [fst snd] in *.
    apply find_spec in Hf as HS. destruct HS as (Hs & Hp & HM & _).
    cbn [fst snd] in *. subst p'.
    exists ((sk, m) :: ps), tail. cbn [original replaced matchedIn map snd].
    rewrite <- Hs', <- Hout. repeat split; auto.
    intros [|fuel] b Hl; [lia|]. cbn [allMatches]. rewrite Hf.
    pose proof (nullable_false_nonempty _ _ _ _ HM Hn) as Hm.
    rewrite (isNil_false m Hm), andb_false_r. f_equal.
    apply Hall. apply (f_equal (@length byte)) in Hs.
    rewrite !length_app in Hs. destruct m; [congruence|simpl in Hs; lia].
Qed.

Lemma ReplaceAll_pieces re repl D :
  nullable re = false ->
  exists ps tail,
    D = original ps tail /\ ReplaceAll re D repl = replaced (fun _ => repl) ps tail
    /\ matchedIn re None ps tail /\ FindAll re D = map snd ps.
Proof.
  intros Hn.
  destruct (Pass_pieces re (fun _ => repl) (None, D) (ReplaceAll re D repl))
    as (ps & tail & H1 & H2 & H3 & H4); auto.
  { apply ReplaceAllFunc_Pass; auto. }
  exists ps, tail. repeat split; auto. apply H4. simpl. lia.
Qed.

(** C8: [redact] only modifies matched spans.  The document is the
    stretches between the matches of the PII pattern, the matches and a
    tail; the first pass keeps the stretches and the tail, byte for byte and
    in order, and puts [[redacted]] for each match; the second pass does the
    same to the result of the first with the matches of the SPII pattern. *)
Theorem redact_touches_matches_only (D : bytes) :
  exists ps1 tail1 ps2 tail2,
    D = original ps1 tail1
    /\ matchedIn Pat.redactPii None ps1 tail1
    /\ FindAll Pat.redactPii D = map snd ps1
    /\ replaced (fun _ => redacted) ps1 tail1 = original ps2 tail2
    /\ matchedIn Pat.redactSpii None ps2 tail2
    /\ FindAll Pat.redactSpii (replaced (fun _ => redacted) ps1 tail1)
       = map snd ps2
    /\ redact D = replaced (fun _ => redacted) ps2 tail2.
Proof.
  destruct (ReplaceAll_pieces Pat.redactPii redacted D eq_refl)
    as (ps1 & tail1 & H1 & H2 & H3 & H4).
  destruct (ReplaceAll_pieces Pat.redactSpii redacted
              (ReplaceAll Pat.redactPii D redacted) eq_refl)
    as (ps2 & tail2 & H5 & H6 & H7 & H8).
  exists ps1, tail1, ps2, tail2. unfold redact.
  rewrite <- H2. repeat split; auto.
Qed.

(** ** The mode switch *)

(** C9, as the specification has it, fails for [detokenize]: a token that
    is not valid UTF-8 makes [regexp.MustCompile] panic. *)
Lemma detokenize_mode_can_fail :
  knownMode "detokenize"
  /\ applyMode "detokenize" [xff] (bytes_of "some text") = Panicked.
Proof. split; [right; left; reflexivity|reflexivity]. Qed.

Lemma applyMode_unknown mode token input :
  ~ knownMode mode -> applyMode mode token input = UnknownMode.
Proof.
  intros H. unfold applyMode, knownMode in *.
  destruct (String.eqb_spec mode "tokenize"); [tauto|].
  destruct (String.eqb_spec mode "detokenize"); [tauto|].
  destruct (String.eqb_spec mode "redact"); [tauto|]. reflexivity.
Qed.

(** C9 (amended): an unknown mode is reported and nothing is written (the
    file system is the one [processFile] was given); [tokenize] and [redact]
    always produce an output, and so does [detokenize] when the token is
    valid UTF-8. *)
Theorem mode_switch_outcomes :
  (forall mode token input,
     ~ knownMode mode -> applyMode mode token input = UnknownMode)
  /\ (forall (FS : Type) ReadFile WriteFile outputFileOf (fs : FS)
        file mode token outputDir input,
        ReadFile fs file = Some input -> ~ knownMode mode ->
        Driver.processFile FS ReadFile WriteFile outputFileOf
          fs file mode token outputDir
        = Driver.Returned FS fs
            [Driver.Found file (length (FindAll Pat.piiRegex input))
               (length (FindAll Pat.spiiRegex input));
             Driver.UnknownModeError mode])
  /\ (forall token input,
        applyMode "tokenize" token input = Output (tokenize input token))
  /\ (forall token input,
        applyMode "redact" token input = Output (redact input))
  /\ (forall token input,
        validToken token ->
        exists out, detokenize input token = Some out
                    /\ applyMode "detokenize" token input = Output out).
Proof.
  split; [exact applyMode_unknown|]. split.
  { intros FS ReadFile WriteFile outputFileOf fs file mode token dir input
      Hr Hm.
    unfold Driver.processFile. rewrite Hr, applyMode_unknown by exact Hm.
    reflexivity. }
  split; [reflexivity|]. split; [reflexivity|].
  intros token input Hv. unfold validToken in Hv.
  unfold applyMode. cbn [String.eqb Ascii.eqb Bool.eqb].
  unfold detokenize, Pat.quoted.
  destruct (Utf8.runes (length token) token) as [rs|]; [|congruence].
  eexists. split; reflexivity.
Qed.

Lemma mode_switch_outcomes_witness :
  applyMode "shred" (bytes_of "[TOKEN]") (bytes_of "My SSN") = UnknownMode
  /\ exists out,
       detokenize (bytes_of "My SSN") (bytes_of "[TOKEN]") = Some out
       /\ applyMode "detokenize" (bytes_of "[TOKEN]") (bytes_of "My SSN")
          = Output out.
Proof.
  destruct mode_switch_outcomes as (H1 & _ & _ & _ & H5). split.
  - apply H1. unfold knownMode. intros [H|[H|H]]; discriminate.
  - apply H5. unfold validToken. vm_compute. discriminate.
Defined.

(** ** Decoding and its context *)

(** A rune that is not [RuneError] is decoded from its own bytes alone. *)
Lemma DecodeRune_extend a y rn w :
  Utf8.DecodeRune a = (rn, w) -> rn <> RuneError ->
  Utf8.DecodeRune (a ++ y) = (rn, w).
Proof.
  intros H Hr. destruct a as [|b0 a]; [simpl in H; inversion H; congruence|].
  unfold Utf8.DecodeRune in *. cbn [app].
  destruct (bval b0 <? 128)%N; [exact H|].
  destruct (Utf8.lead (bval b0)) as [[[sz lo] hi]|] eqn:EL; [|exact H].
  apply lead_spec in EL as (_ & _ & Hsz).
  destruct a as [|b1 a]; [break_decode; inversion H; congruence|].
  cbn [app]. destruct (in_range lo hi (bval b1)); cbn [negb] in *;
    [|break_decode; inversion H; congruence].
  destruct Hsz as [->|[->| ->]].
  - cbn in *. exact H.
  - destruct a as [|b2 a]; [cbn in H; inversion H; congruence|].
    cbn in *. exact H.
  - destruct a as [|b2 a]; [cbn in H; inversion H; congruence|].
    destruct a as [|b3 a].
    + cbn in H. destruct (Utf8.cont (bval b2)); cbn in H; inversion H;
        congruence.
    + cbn in *. exact H.
Qed.

(** Decoding does not look past the bytes it takes, as long as they are
    there. *)
Lemma DecodeRune_shrink a x rn w :
  Utf8.DecodeRune (a ++ x) = (rn, w) -> w <= length a -> a <> [] ->
  Utf8.DecodeRune a = (rn, w).
Proof.
  intros H Hw Ha. destruct a as [|b0 a]; [congruence|].
  unfold Utf8.DecodeRune in *. cbn [app] in H.
  destruct (bval b0 <? 128)%N; [exact H|].
  destruct (Utf8.lead (bval b0)) as [[[sz lo] hi]|] eqn:EL; [|exact H].
  apply lead_spec in EL as (_ & _ & Hsz).
  destruct a as [|b1 a].
  { cbn [app length] in *. destruct Hsz as [->|[->| ->]]; cbn;
      break_decode; inversion H; subst; simpl in Hw; try lia; reflexivity. }
  cbn [app] in H. destruct (in_range lo hi (bval b1)); cbn [negb] in *;
    [|break_decode; inversion H; reflexivity].
  destruct Hsz as [->|[->| ->]].
  - cbn in *. exact H.
  - destruct a as [|b2 a].
    + cbn in *. break_decode; inversion H; subst; simpl in Hw; try lia;
        reflexivity.
    + cbn in *. exact H.
  - destruct a as [|b2 a].
    + cbn in *. break_decode; inversion H; subst; simpl in Hw; try lia;
        reflexivity.
    + destruct a as [|b3 a].
      * cbn in *. break_decode; inversion H; subst; simpl in Hw; try lia;
          reflexivity.
      * cbn in *. exact H.
Qed.

Lemma DecodeRune_context a x y rn :
  Utf8.DecodeRune (a ++ x) = (rn, length a) -> a <> [] -> rn <> RuneError ->
  Utf8.DecodeRune (a ++ y) = (rn, length a).
Proof.
  intros H Ha Hr. apply DecodeRune_extend; [|exact Hr].
  eapply DecodeRune_shrink; eauto.
Qed.

(** ** [detokenize] *)

(** When the replacement function gives every match back as it is, the
    loop of [replaceAll] copies its input; empty matches included. *)
Lemma replaceLoop_id re repl :
  repl [] = [] ->
  (forall p m r, Match re p m r -> repl m = m) ->
  forall fuel b pending st,
    replaceLoop fuel re repl b pending st = pending ++ snd st.
Proof.
  intros Hnil Hid. induction fuel as [|fuel IH]; intros b pending [p s];
    [reflexivity|].
  cbn [replaceLoop snd].
  destruct (find re (p, s)) as [[[sk m] st']|] eqn:E; [|reflexivity].
  apply find_spec in E as (Hs & _ & HM & _). apply Hid in HM.
  assert (Hins : (if negb (isNil (pending ++ sk ++ m)) || b && isNil sk
                  then repl m else []) = m).
  { destruct (isNil (pending ++ sk ++ m)) eqn:En; cbn [negb orb];
      [|exact HM].
    destruct pending; [|discriminate]. destruct sk; [|discriminate].
    destruct m; [|discriminate]. destruct (b && isNil []); auto. }
  rewrite Hins. clear Hins.
  set (w := snd (Utf8.DecodeRune s)).
  destruct (length sk + length m <? w) eqn:E1.
  - rewrite IH. apply Nat.ltb_lt in E1. rewrite advance_spec. cbn [snd].
    assert (Hsm : sk ++ m = firstn (length sk + length m) s).
    { rewrite Hs, app_assoc, <- length_app.
      rewrite firstn_app, Nat.sub_diag, firstn_all, firstn_O, app_nil_r.
      reflexivity. }
    assert (H1 : firstn (length sk + length m) s
                 = firstn (length sk + length m) (firstn w s)).
    { rewrite firstn_firstn, Nat.min_l by lia. reflexivity. }
    f_equal. rewrite (app_assoc sk m), Hsm, H1, app_assoc.
    rewrite (firstn_skipn _ (firstn w s)). apply firstn_skipn.
  - destruct (length sk + length m <? 1) eqn:E2.
    + apply Nat.ltb_lt in E2. apply Nat.ltb_ge in E1.
      destruct sk; [|simpl in E2; lia]. destruct m; [|simpl in E2; lia].
      assert (s = []).
      { destruct s as [|x s]; [reflexivity|]. subst w.
        destruct (Utf8.DecodeRune (x :: s)) as [rn w'] eqn:ED.
        apply DecodeRune_width in ED. simpl in E1. lia. }
      cbn [app] in *. congruence.
    + rewrite IH. cbn [app]. rewrite Hs. reflexivity.
Qed.

(** C6, as the specification has it, fails: a token with white space at
    its ends is matched after a word character and replaced by its trimmed
    text; and a token that is not valid UTF-8 gives no document at all. *)
Lemma detokenize_trims_token_fails :
  detokenize (bytes_of "x a y") (bytes_of " a ") = Some (bytes_of "xay")
  /\ detokenize (bytes_of "x a y") (bytes_of " a ") <> Some (bytes_of "x a y")
  /\ detokenize (bytes_of "x a y") [xff] = None.
Proof.
  split; [reflexivity|]. split; [vm_compute; discriminate|reflexivity].
Qed.

(** *** [strings.TrimSpace] on a string without white space at its ends *)

Lemma scanBack_bound n : forall l k, Strings.scanBack n l = Some k -> k < n /\ k < length l.
Proof.
  induction n as [|n IH]; intros l k H; [discriminate|].
  destruct l as [|b l]; [discriminate|]. simpl in H.
  destruct (Strings.RuneStart b); [inversion H; simpl; lia|].
  destruct (Strings.scanBack n l) as [k'|] eqn:E; [|discriminate].
  inversion H; subst. apply IH in E. simpl. lia.
Qed.

Lemma DecodeRune_single_high l :
  highByte l -> Utf8.DecodeRune [l] = (RuneError, 1).
Proof.
  intros H. unfold Utf8.DecodeRune, highByte in *.
  destruct (bval l <? 128)%N eqn:E; [apply N.ltb_lt in E; lia|].
  destruct (Utf8.lead (bval l)) as [[[sz lo] hi]|] eqn:EL; [|reflexivity].
  apply lead_spec in EL as (_ & _ & [->|[->| ->]]); reflexivity.
Qed.

Lemma skipn_last {A} (s0 : list A) l : skipn (length (s0 ++ [l]) - 1) (s0 ++ [l]) = [l].
Proof.
  rewrite length_app. simpl. rewrite Nat.add_sub.
  rewrite skipn_app, Nat.sub_diag, skipn_all. reflexivity.
Qed.

(** The last rune is the rune decoded forward from where it begins. *)
Lemma DecodeLastRune_spec s r w :
  Strings.DecodeLastRune s = (r, w) -> s <> [] ->
  1 <= w <= length s
  /\ Utf8.DecodeRune (skipn (length s - w) s) = (r, w).
Proof.
  intros H Hs. destruct (exists_last Hs) as (s0 & l & ->).
  unfold Strings.DecodeLastRune in H. rewrite rev_app_distr in H.
  cbn [rev app] in H.
  assert (Hlen : length (s0 ++ [l]) = S (length s0))
    by (rewrite length_app; simpl; lia).
  destruct (bval l <? 128)%N eqn:El.
  { inversion H; subst. rewrite skipn_last. split; [lia|].
    apply DecodeRune_ascii_byte. apply N.ltb_lt. exact El. }
  apply N.ltb_ge in El.
  assert (Hfall : (r, w) = (RuneError, 1) ->
          1 <= w <= length (s0 ++ [l])
          /\ Utf8.DecodeRune (skipn (length (s0 ++ [l]) - w) (s0 ++ [l])) = (r, w)).
  { intros E. inversion E; subst. rewrite skipn_last. split; [lia|].
    apply DecodeRune_single_high. exact El. }
  destruct (Strings.scanBack 3 (rev s0)) as [k|] eqn:Ek;
    [|apply Hfall; congruence].
  apply scanBack_bound in Ek as [_ Hk]. rewrite length_rev in Hk.
  destruct (Utf8.DecodeRune (skipn (length (s0 ++ [l]) - (k + 2)) (s0 ++ [l])))
    as [r' size] eqn:ED.
  destruct (size =? k + 2) eqn:Esz; [|apply Hfall; congruence].
  apply Nat.eqb_eq in Esz. inversion H; subst. split; [lia|exact ED].
Qed.

Lemma TrimRight_clean s : cleanEnd s -> Strings.TrimRight s = s.
Proof.
  unfold cleanEnd, Strings.TrimRight. intros H.
  destruct s as [|c s']; [reflexivity|].
  cbn [length Strings.lastIndexNotSpace].
  destruct (Strings.DecodeLastRune (c :: s')) as [r w] eqn:E.
  cbn [fst] in H. rewrite H.
  apply DecodeLastRune_spec in E as [Hw ED]; [|discriminate].
  remember (c :: s') as s eqn:Es.
  replace (S (length s')) with (length s) by (subst s; reflexivity).
  remember (length s - w) as i eqn:Ei.
  destruct (skipn i s) as [|c' t] eqn:Ek.
  { apply (f_equal (@length byte)) in Ek. rewrite length_skipn in Ek.
    change (length (@nil byte)) with 0 in Ek. lia. }
  destruct (128 <=? bval c')%N eqn:Ec.
  - rewrite ED. cbn [snd]. replace (i + w) with (length s) by lia.
    apply firstn_all.
  - apply N.leb_gt in Ec. rewrite DecodeRune_ascii_byte in ED by exact Ec.
    inversion ED; subst w. replace (i + 1) with (length s) by lia.
    apply firstn_all.
Qed.

Lemma asciiSpace_IsSpace c : Strings.asciiSpace c = true -> Strings.IsSpace c = true.
Proof.
  unfold Strings.asciiSpace, Strings.IsSpace. intros H.
  apply orb_true_iff in H as [H|H]; rewrite H; [reflexivity|].
  rewrite orb_true_r. reflexivity.
Qed.

Lemma TrimSpace_clean s :
  cleanStart s -> cleanEnd s -> Strings.TrimSpace s = s.
Proof.
  intros H1 H2. destruct s as [|c s']; [reflexivity|].
  cbn [Strings.TrimSpace].
  destruct (128 <=? bval c)%N eqn:Ec.
  - cbn [length Strings.TrimLeft]. unfold cleanStart in H1.
    destruct (Utf8.DecodeRune (c :: s')) as [r w]. cbn [fst] in H1.
    rewrite H1. apply TrimRight_clean. exact H2.
  - apply N.leb_gt in Ec. unfold cleanStart in H1.
    rewrite DecodeRune_ascii_byte in H1 by exact Ec. cbn [fst] in H1.
    destruct (Strings.asciiSpace (bval c)) eqn:Ea.
    { apply asciiSpace_IsSpace in Ea. congruence. }
    assert (Hne : c :: s' <> []) by discriminate.
    destruct (exists_last Hne) as (s0 & l & Hs). rewrite Hs.
    rewrite rev_app_distr. cbn [rev app Strings.trimTail].
    rewrite ?rev_involutive.
    destruct (128 <=? bval l)%N eqn:El.
    + apply TrimRight_clean. rewrite <- Hs. exact H2.
    + apply N.leb_gt in El. unfold cleanEnd in H2. rewrite Hs in H2.
      unfold Strings.DecodeLastRune in H2. rewrite rev_app_distr in H2.
      cbn [rev app] in H2. apply N.ltb_lt in El. rewrite El in H2.
      cbn [fst] in H2.
      destruct (Strings.asciiSpace (bval l)) eqn:Eb; [|reflexivity].
      apply asciiSpace_IsSpace in Eb. congruence.
Qed.

(** *** The bytes of a rune *)

Lemma lead_start b0 sz lo hi :
  Utf8.lead (bval b0) = Some (sz, lo, hi) -> Strings.RuneStart b0 = true.
Proof. destruct b0; vm_compute; intros H; try discriminate; reflexivity. Qed.

Lemma cont_not_start b : Utf8.cont (bval b) = true -> Strings.RuneStart b = false.
Proof. unfold Strings.RuneStart. intros ->. reflexivity. Qed.

Lemma ascii_start b : (bval b < 128)%N -> Strings.RuneStart b = true.
Proof.
  intros H. unfold Strings.RuneStart, Utf8.cont.
  rewrite in_range_false by lia. reflexivity.
Qed.

Lemma in_range_cont lo hi x :
  (128 <= lo)%N -> (hi <= 191)%N -> in_range lo hi x = true ->
  Utf8.cont x = true.
Proof.
  intros H1 H2 H. apply in_range_iff in H. apply in_range_iff. lia.
Qed.

(** A rune of several bytes is a leading byte and continuation bytes. *)
Lemma DecodeRune_conts s r w :
  Utf8.DecodeRune s = (r, w) -> 1 < w ->
  exists b0 t, s = b0 :: t /\ Strings.RuneStart b0 = true
    /\ Forall (fun b => Strings.RuneStart b = false) (firstn (w - 1) t).
Proof.
  unfold Utf8.DecodeRune.
  destruct s as [|b0 s]; [intros H; inversion H; lia|].
  destruct (bval b0 <? 128)%N eqn:E0; [intros H; inversion H; lia|].
  destruct (Utf8.lead (bval b0)) as [[[sz lo] hi]|] eqn:EL;
    [|intros H; inversion H; lia].
  pose proof (lead_start _ _ _ _ EL) as Hst.
  apply lead_facts in EL as (Hlo & Hhi & _).
  pose proof (in_range_cont lo hi) as Hin.
  intros H Hw. exists b0, s. split; [reflexivity|]. split; [exact Hst|].
  revert H. break_decode; intros H; inversion H; subst; try lia;
    cbn [firstn Nat.sub]; repeat constructor;
    apply cont_not_start; auto.
Qed.

Lemma valid_piece_start E rE :
  Utf8.DecodeRune E = (rE, length E) -> E <> [] -> rE <> RuneError ->
  exists b t, E = b :: t /\ Strings.RuneStart b = true.
Proof.
  intros H HE Hr. destruct E as [|b t]; [congruence|].
  exists b, t. split; [reflexivity|].
  destruct t as [|b1 t].
  - destruct (N.lt_ge_cases (bval b) 128) as [Hb|Hb]; [apply ascii_start; auto|].
    rewrite DecodeRune_single_high in H by exact Hb. inversion H. congruence.
  - apply DecodeRune_conts in H as (b0 & t0 & Hs & Hst & _); [|simpl; lia].
    inversion Hs; subst. exact Hst.
Qed.

(** *** Matches of a quoted token *)

Lemma lit_Decodes rs : forall p m r,
  Match (Pat.lit false rs) p m r -> Decodes rs m r.
Proof.
  induction rs as [|c rs IH]; intros p m r H.
  - cbn in H. inversion H; subst. constructor.
  - assert (HC : forall p m1 x, Match (RChar (CLit false c)) p m1 x ->
              m1 <> [] /\ Utf8.DecodeRune (m1 ++ x) = (c, length m1)).
    { intros p0 m1 x H1. apply Match_char_inv in H1 as (Hm & rn & HD & HM).
      cbn in HM. apply N.eqb_eq in HM. subst rn. auto. }
    destruct rs as [|c' rs'].
    + cbn in H. apply HC in H as [Hm HD].
      rewrite <- (app_nil_r m).
      apply DecCons; [exact Hm|cbn [app]; exact HD|constructor].
    + change (Pat.lit false (c :: c' :: rs'))
        with (RSeq (RChar (CLit false c)) (Pat.lit false (c' :: rs'))) in H.
      inversion H as [| | |? ? ? m1 m2 ? H1 H2| | | | | | |]; subst.
      apply HC in H1 as [Hm HD].
      apply DecCons; [exact Hm|exact HD|eapply IH; exact H2].
Qed.

Lemma Decodes_nonempty rs m r : Decodes rs m r -> rs <> [] -> m <> [].
Proof.
  intros H Hrs. destruct H; [congruence|].
  destruct m1; [congruence|discriminate].
Qed.

Lemma Decodes_first rn rs m r :
  Decodes (rn :: rs) m r -> fst (Utf8.DecodeRune m) = rn.
Proof.
  intros H. inversion H as [|? ? m1 m2 ? Hm HD HR]; subst.
  rewrite app_assoc in HD.
  apply DecodeRune_shrink in HD; [|rewrite length_app; lia|].
  - rewrite HD. reflexivity.
  - destruct m1; [congruence|discriminate].
Qed.

Lemma Decodes_nil_inv rs r : Decodes rs [] r -> rs = [].
Proof.
  intros H. inversion H as [|? ? m1 m2 ? Hm HD HR Hrs Heq]; [reflexivity|].
  destruct m1; [congruence|discriminate].
Qed.

(** If the matched text ends with the bytes of a valid rune, that rune is the
    last one the matcher took: it cannot have stepped over a leading byte. *)
Lemma Decodes_last rs m x :
  Decodes rs m x ->
  forall m' E rE, m = m' ++ E -> E <> [] ->
    Utf8.DecodeRune E = (rE, length E) -> rE <> RuneError ->
    exists rs', rs = rs' ++ [rE].
Proof.
  induction 1 as [r|rn rs m1 m2 r Hm1 HD HR IH]; intros m' E rE Hm HE HDE Hr.
  - symmetry in Hm. apply app_eq_nil in Hm as [_ Hm]. congruence.
  - assert (Hcase2 : forall l, m2 = l ++ E -> exists rs', rn :: rs = rs' ++ [rE]).
    { intros l Hl. destruct (IH l E rE Hl HE HDE Hr) as (rs' & ->).
      exists (rn :: rs'). reflexivity. }
    apply app_eq_app in Hm as (l & [[H1 H2]|[H1 H2]]); [|apply (Hcase2 l H2)].
    destruct l as [|e l'].
    { apply (Hcase2 []). rewrite H2. reflexivity. }
    destruct m' as [|a m''].
    + cbn [app] in H1. subst m1.
      pose proof (DecodeRune_extend E r rE _ HDE Hr) as HX.
      rewrite H2, <- app_assoc, HD in HX. inversion HX as [[Hrn Hlen]].
      rewrite length_app in Hlen. assert (m2 = []) by (destruct m2; [auto|simpl in Hlen; lia]).
      subst m2. apply Decodes_nil_inv in HR. subst rs. exists []. reflexivity.
    + exfalso. subst m1.
      destruct (valid_piece_start E rE HDE HE Hr) as (b & t & HEq & Hst).
      rewrite H2 in HEq. inversion HEq; subst b.
      apply DecodeRune_conts in HD
        as (b0 & t0 & Hs & _ & Hall); [|rewrite length_app; simpl; lia].
      cbn [app] in Hs. inversion Hs; subst b0 t0.
      rewrite length_app in Hall. cbn [length] in Hall.
      replace (S (length m'') + S (length l') - 1)
        with (length m'' + S (length l')) in Hall by lia.
      rewrite <- !app_assoc, firstn_app_2 in Hall.
      apply Forall_app in Hall as [_ Hall]. cbn in Hall.
      apply Forall_cons_iff in Hall as [He _]. congruence.
Qed.

Lemma runes_nil fuel s : Utf8.runes fuel s = Some [] -> s = [].
Proof.
  destruct s as [|b s]; [reflexivity|]. destruct fuel; [discriminate|].
  cbn [Utf8.runes]. destruct (Utf8.DecodeRune (b :: s)) as [r w].
  destruct ((bval b <? 128)%N || (1 <? w)); [|discriminate].
  destruct (Utf8.runes fuel (skipn w (b :: s))); discriminate.
Qed.

Lemma runes_first fuel T r1 rs :
  Utf8.runes fuel T = Some (r1 :: rs) -> fst (Utf8.DecodeRune T) = r1.
Proof.
  destruct T as [|b s]; [destruct fuel; discriminate|].
  destruct fuel; [discriminate|].
  cbn [Utf8.runes]. destruct (Utf8.DecodeRune (b :: s)) as [r w].
  destruct ((bval b <? 128)%N || (1 <? w)); [|discriminate].
  destruct (Utf8.runes fuel (skipn w (b :: s))); [|discriminate].
  cbn. intros H. inversion H. reflexivity.
Qed.

(** A valid string ends with the bytes of its last rune. *)
Lemma runes_last fuel : forall T rs' rE,
  Utf8.runes fuel T = Some (rs' ++ [rE]) ->
  exists T' E, T = T' ++ E /\ E <> [] /\ Utf8.DecodeRune E = (rE, length E)
    /\ ((exists b, E = [b] /\ (bval b < 128)%N) \/ 1 < length E).
Proof.
  induction fuel as [|fuel IH]; intros T rs' rE H.
  - destruct T; [|discriminate]. cbn in H. inversion H.
    destruct rs'; discriminate.
  - destruct T as [|b s].
    { cbn in H. inversion H. destruct rs'; discriminate. }
    cbn [Utf8.runes] in H.
    destruct (Utf8.DecodeRune (b :: s)) as [r w] eqn:ED.
    destruct ((bval b <? 128)%N || (1 <? w)) eqn:Ev; [|discriminate].
    destruct (Utf8.runes fuel (skipn w (b :: s))) as [rs0|] eqn:ER;
      [|discriminate].
    cbn in H. inversion H as [Hrs]. clear H.
    pose proof (DecodeRune_width _ _ _ _ ED) as Hw.
    destruct rs' as [|r' rs''].
    + cbn [app] in Hrs. inversion Hrs; subst r rs0.
      apply runes_nil in ER.
      assert (Hlen : w = length (b :: s)).
      { apply (f_equal (@length byte)) in ER. rewrite length_skipn in ER.
        change (length (@nil byte)) with 0 in ER. lia. }
      exists [], (b :: s). cbn [app]. split; [reflexivity|].
      split; [discriminate|]. split; [rewrite <- Hlen; exact ED|].
      apply orb_true_iff in Ev as [Ev|Ev].
      * left. apply N.ltb_lt in Ev. exists b.
        rewrite (DecodeRune_ascii_byte b s Ev) in ED.
        inversion ED as [[Hr1 Hw1]].
        destruct s; [auto|simpl in Hlen; lia].
      * right. apply Nat.ltb_lt in Ev. lia.
    + cbn [app] in Hrs. inversion Hrs; subst r rs0.
      destruct (IH _ rs'' rE ER) as (T' & E & HT & HE & HD & Hv).
      exists (firstn w (b :: s) ++ T'), E. rewrite <- app_assoc, <- HT.
      rewrite firstn_skipn. auto.
Qed.

Lemma scanBack_found a : forall n b0 z,
  Forall (fun b => Strings.RuneStart b = false) a ->
  Strings.RuneStart b0 = true -> length a < n ->
  Strings.scanBack n (a ++ b0 :: z) = Some (length a).
Proof.
  induction a as [|x a IH]; intros n b0 z Ha Hb Hn.
  - destruct n; [simpl in Hn; lia|]. cbn. rewrite Hb. reflexivity.
  - destruct n; [simpl in Hn; lia|]. apply Forall_cons_iff in Ha as [Hx Ha].
    cbn. rewrite Hx. rewrite IH; auto. simpl in Hn. lia.
Qed.

Lemma DecodeRune_width4 s r w : Utf8.DecodeRune s = (r, w) -> w <= 4.
Proof.
  unfold Utf8.DecodeRune. break_decode; intros H; inversion H; lia.
Qed.

(** The last rune of a string that ends with a valid rune is that rune. *)
Lemma DecodeLastRune_valid T' E rE :
  Utf8.DecodeRune E = (rE, length E) ->
  (exists b, E = [b] /\ (bval b < 128)%N) \/ 1 < length E ->
  Strings.DecodeLastRune (T' ++ E) = (rE, length E).
Proof.
  intros HD [(b & -> & Hb)|Hlen].
  - unfold Strings.DecodeLastRune. rewrite rev_app_distr. cbn [rev app].
    apply N.ltb_lt in Hb as Hb'. rewrite Hb'.
    rewrite DecodeRune_ascii_byte in HD by exact Hb. exact HD.
  - pose proof (DecodeRune_width4 _ _ _ HD) as H4.
    pose proof (DecodeRune_conts _ _ _ HD Hlen) as (b0 & t & -> & Hst & Hall).
    cbn [length] in Hall, Hlen, H4.
    replace (S (length t) - 1) with (length t) in Hall by lia.
    rewrite firstn_all in Hall.
    assert (Ht : t <> []) by (destruct t; [simpl in Hlen; lia|discriminate]).
    destruct (exists_last Ht) as (t0 & l & ->).
    apply Forall_app in Hall as [Hall0 Hl].
    apply Forall_cons_iff in Hl as [Hl _].
    rewrite length_app in H4. cbn [length] in H4.
    unfold Strings.DecodeLastRune.
    replace (rev (T' ++ b0 :: t0 ++ [l]))
      with (l :: rev t0 ++ b0 :: rev T').
    2:{ rewrite rev_app_distr. cbn [rev]. rewrite rev_app_distr. cbn [rev app].
        rewrite <- !app_assoc. reflexivity. }
    assert (Hhigh : (bval l <? 128)%N = false).
    { apply N.ltb_ge. unfold Strings.RuneStart in Hl.
      destruct (Utf8.cont (bval l)) eqn:Ec; [|discriminate].
      apply in_range_iff in Ec. lia. }
    rewrite Hhigh.
    rewrite scanBack_found;
      [|apply Forall_forall; intros x Hx; apply in_rev in Hx;
        eapply Forall_forall in Hall0; eauto
       |exact Hst|rewrite length_rev; lia].
    rewrite length_rev.
    replace (length (T' ++ b0 :: t0 ++ [l]) - (length t0 + 2)) with (length T').
    2:{ rewrite !length_app. cbn [length]. rewrite length_app. cbn [length]. lia. }
    rewrite skipn_app, Nat.sub_diag, skipn_all. cbn [skipn app].
    rewrite HD. cbn [length]. rewrite length_app. cbn [length].
    replace (S (length t0 + 1) =? length t0 + 2) with true
      by (symmetry; apply Nat.eqb_eq; lia).
    reflexivity.
Qed.

Lemma bounded_inv L p m r :
  Match (RSeq RBound (RSeq L RBound)) p m r ->
  Match L p m r /\ atBoundary (p, m ++ r) = true
  /\ atBoundary (after p m, r) = true.
Proof.
  intros H.
  inversion H as [| | |? ? ? m1 m23 ? H1 H23| | | | | | |]; subst; clear H.
  inversion H1; subst; clear H1.
  inversion H23 as [| | |? ? ? m2 m3 ? H2 H3| | | | | | |]; subst; clear H23.
  inversion H3; subst; clear H3.
  cbn [app] in *. rewrite app_nil_r in *. rewrite after_nil in *. auto.
Qed.

Lemma quoted_inv T re :
  Pat.quoted T = Some re ->
  exists rs, Utf8.runes (length T) T = Some rs
    /\ re = RSeq RBound (RSeq (Pat.lit false rs) RBound).
Proof.
  unfold Pat.quoted. destruct (Utf8.runes (length T) T) as [rs|]; [|discriminate].
  intros H. inversion H. exists rs. split; reflexivity.
Qed.

Lemma IsSpace_not_error r : Strings.IsSpace r = true -> r <> RuneError.
Proof. intros H ->. vm_compute in H. discriminate. Qed.

(** The text matched by a quoted token begins and ends as the token does. *)
Lemma quoted_match_clean T re p m r :
  Pat.quoted T = Some re -> cleanStart T -> cleanEnd T ->
  Match re p m r -> cleanStart m /\ cleanEnd m.
Proof.
  intros HQ HS HE HM. apply quoted_inv in HQ as (rs & HR & ->).
  apply bounded_inv in HM as (HM & _ & _). apply lit_Decodes in HM.
  destruct rs as [|r1 rs].
  { inversion HM; subst. split; reflexivity. }
  split.
  - unfold cleanStart in *. rewrite (Decodes_first _ _ _ _ HM).
    rewrite (runes_first _ _ _ _ HR) in HS. exact HS.
  - unfold cleanEnd in *.
    destruct (Strings.DecodeLastRune m) as [rE w] eqn:EL. cbn [fst].
    destruct (Strings.IsSpace rE) eqn:Esp; [|reflexivity]. exfalso.
    assert (Hm : m <> []) by (eapply Decodes_nonempty; eauto; discriminate).
    apply DecodeLastRune_spec in EL as [Hw ED]; [|exact Hm].
    pose proof (IsSpace_not_error _ Esp) as Hne.
    assert (Hlen : length (skipn (length m - w) m) = w)
      by (rewrite length_skipn; lia).
    rewrite <- Hlen in ED at 2.
    destruct (Decodes_last _ _ _ HM (firstn (length m - w) m)
                (skipn (length m - w) m) rE) as (rs' & Hrs); auto.
    { symmetry. apply firstn_skipn. }
    { intros E0. rewrite E0 in Hlen. simpl in Hlen. lia. }
    rewrite Hrs in HR.
    apply runes_last in HR as (T' & E & -> & HEne & HD & Hv).
    rewrite (DecodeLastRune_valid T' E rE HD Hv) in HE. cbn [fst] in HE.
    congruence.
Qed.

Lemma detokenize_clean (D T : bytes) :
  validToken T -> cleanStart T -> cleanEnd T -> detokenize D T = Some D.
Proof.
  intros HV HS HE. unfold detokenize.
  destruct (Pat.quoted T) as [re|] eqn:HQ.
  - f_equal. unfold ReplaceAllFunc. rewrite replaceLoop_id; [reflexivity| |].
    + reflexivity.
    + intros p m r HM.
      destruct (quoted_match_clean T re p m r HQ HS HE HM) as [H1 H2].
      apply TrimSpace_clean; assumption.
  - exfalso. apply HV. unfold Pat.quoted in HQ.
    destruct (Utf8.runes (length T) T); [discriminate|reflexivity].
Qed.

(** C6 (amended): for a token that is valid UTF-8 and neither begins nor
    ends with a white-space rune, [detokenize] returns the document
    unchanged: every match is replaced by its own trimmed text, which is the
    match. *)
Theorem detokenize_returns_document (D T : bytes) :
  validToken T -> cleanStart T -> cleanEnd T -> detokenize D T = Some D.
Proof. apply detokenize_clean. Qed.

Lemma detokenize_returns_document_witness :
  detokenize (bytes_of "see [TOKEN] and TOKEN here") (bytes_of "TOKEN")
  = Some (bytes_of "see [TOKEN] and TOKEN here").
Proof.
  apply detokenize_returns_document.
  - unfold validToken. vm_compute. discriminate.
  - reflexivity.
  - reflexivity.
Defined.

(** ** Idempotence of [redact] *)

Lemma atBoundary_words p r : atBoundary (p, r) = xorb (wordP p) (wordS r).
Proof. reflexivity. Qed.

Lemma wordS_app_nonempty c x y : c <> [] -> wordS (c ++ x) = wordS (c ++ y).
Proof. destruct c; [congruence|reflexivity]. Qed.

Lemma wordP_after_nonempty p q m : m <> [] -> after p m = after q m.
Proof.
  intros H. unfold after. destruct (rev m) eqn:E; [|reflexivity].
  apply (f_equal (@rev byte)) in E. rewrite rev_involutive in E. simpl in E.
  congruence.
Qed.

Lemma startsBound_boundFirst re : startsBound re = true -> boundFirst re.
Proof.
  unfold boundFirst.
  induction re as [|c| |a IHa b IHb|a IHa b IHb|a IHa|c|a IHa];
    cbn [startsBound run]; intros H st Hb; try discriminate.
  - rewrite Hb. reflexivity.
  - rewrite (IHa H st Hb). reflexivity.
  - apply andb_true_iff in H as [H1 H2].
    rewrite (IHa H1 st Hb), (IHb H2 st Hb). reflexivity.
  - apply IHa; auto.
Qed.

Lemma endsBound_spec re p m r :
  Match re p m r -> endsBound re = true -> atBoundary (after p m, r) = true.
Proof.
  induction 1; cbn [endsBound]; intros Hb; try discriminate.
  - exact H.
  - rewrite after_app. apply IHMatch2. exact Hb.
  - apply andb_true_iff in Hb as [Hb _]. auto.
  - apply andb_true_iff in Hb as [_ Hb]. auto.
  - auto.
Qed.

Lemma boundFirst_spec re p m r :
  boundFirst re -> Match re p m r -> atBoundary (p, m ++ r) = true.
Proof.
  intros HB HM. destruct (atBoundary (p, m ++ r)) eqn:E; [reflexivity|].
  apply run_complete in HM. rewrite (HB _ E) in HM. contradiction.
Qed.

Lemma avoids_app x a b :
  forallb (fun c => negb (clsMatches c x)) (classes a ++ classes b) = true ->
  forallb (fun c => negb (clsMatches c x)) (classes a) = true
  /\ forallb (fun c => negb (clsMatches c x)) (classes b) = true.
Proof. rewrite forallb_app. apply andb_true_iff. Qed.

Lemma avoids_char x c rn :
  avoids x (RChar c) = true -> clsMatches c rn = true -> rn <> x.
Proof.
  unfold avoids. cbn. rewrite andb_true_r. intros H HM ->.
  rewrite HM in H. discriminate.
Qed.

(** A match is the same match in another context, if the context agrees
    on the word characters next to it. *)
Lemma Match_transfer re p m r :
  Match re p m r -> avoids RuneError re = true ->
  forall p' r', wordP p = wordP p' -> wordS r = wordS r' -> Match re p' m r'.
Proof.
  unfold avoids.
  induction 1; cbn [classes]; intros Hav p' r' Hp Hr.
  - constructor.
  - apply MChar with (rn := rn); auto.
    eapply DecodeRune_context; eauto.
    eapply avoids_char; eauto.
  - constructor. rewrite atBoundary_words in *. rewrite <- Hp, <- Hr. exact H.
  - apply avoids_app in Hav as [Ha Hb]. apply MSeq.
    + apply IHMatch1; auto. destruct m2 as [|x m2]; [exact Hr|reflexivity].
    + apply IHMatch2; auto. destruct m1 as [|x m1]; [exact Hp|].
      f_equal. apply wordP_after_nonempty. discriminate.
  - apply avoids_app in Hav as [Ha Hb]. apply MAltL. auto.
  - apply avoids_app in Hav as [Ha Hb]. apply MAltR. auto.
  - apply MOptSome. auto.
  - apply MOptNone.
  - apply MPlusOne. apply IHMatch; auto.
  - apply MPlusMore.
    + apply IHMatch1; auto. destruct m2 as [|x m2]; [exact Hr|reflexivity].
    + apply IHMatch2; auto. destruct m1 as [|x m1]; [exact Hp|].
      f_equal. apply wordP_after_nonempty. discriminate.
  - apply MGroup. auto.
Qed.

(** A match contains no ASCII byte that the classes of the pattern avoid. *)
Lemma Match_avoids re p m r x :
  Match re p m r -> avoids (bval x) re = true -> (bval x < 128)%N ->
  ~ In x m.
Proof.
  unfold avoids.
  induction 1; cbn [classes]; intros Hav Hx Hin; try contradiction.
  - pose proof (avoids_char _ _ _ Hav H1) as Hne.
    destruct m as [|b [|b' m']]; [congruence| |].
    + destruct Hin as [->|[]]. cbn [app length] in H0.
      rewrite DecodeRune_ascii_byte in H0 by exact Hx. inversion H0. congruence.
    + apply DecodeRune_multi in H0; [|simpl; lia].
      rewrite firstn_app, Nat.sub_diag, firstn_all, firstn_O, app_nil_r in H0.
      eapply Forall_forall in H0; [|exact Hin]. unfold highByte in H0. lia.
  - apply avoids_app in Hav as [Ha Hb].
    apply in_app_or in Hin as [Hin|Hin]; [apply IHMatch1|apply IHMatch2]; auto.
  - apply avoids_app in Hav as [Ha Hb]. apply IHMatch; auto.
  - apply avoids_app in Hav as [Ha Hb]. apply IHMatch; auto.
  - apply IHMatch; auto.
  - apply IHMatch; auto.
  - apply in_app_or in Hin as [Hin|Hin]; [apply IHMatch1|apply IHMatch2]; auto.
  - apply IHMatch; auto.
Qed.

Lemma posAt_app_le p a b i :
  i <= length a -> posAt p (a ++ b) i = (after p (firstn i a), skipn i a ++ b).
Proof.
  intros H. unfold posAt. rewrite firstn_app, skipn_app.
  replace (i - length a) with 0 by lia. rewrite firstn_O, skipn_O, app_nil_r.
  reflexivity.
Qed.

Lemma posAt_app_ge p a b j :
  posAt p (a ++ b) (length a + j) = posAt (after p a) b j.
Proof.
  rewrite posAt_plus.
  rewrite firstn_app, Nat.sub_diag, firstn_all, firstn_O, app_nil_r.
  rewrite skipn_app, Nat.sub_diag, skipn_all, skipn_O. reflexivity.
Qed.

Lemma posAt_beyond p s i : length s <= i -> posAt p s i = posAt p s (length s).
Proof.
  intros H. unfold posAt.
  rewrite (firstn_all2 s H), firstn_all, (skipn_all2 s H), skipn_all.
  reflexivity.
Qed.

Lemma redacting_spec re :
  redacting re = true ->
  boundFirst re /\ endsBound re = true /\ nullable re = false
  /\ avoids 91 re = true /\ avoids 93 re = true
  /\ avoids RuneError re = true /\ NoMatch re None redacted.
Proof.
  unfold redacting. rewrite !andb_true_iff.
  intros [[[[[[H1 H2] H3] H4] H5] H6] H7].
  repeat split; auto.
  - apply startsBound_boundFirst. exact H1.
  - apply negb_true_iff. exact H3.
  - intros i. rewrite forallb_forall in H7.
    assert (Hk : forall k, k <= 10 -> run re (posAt None redacted k) = []).
    { intros k Hk. specialize (H7 k). rewrite in_seq in H7.
      destruct (run re (posAt None redacted k)); [reflexivity|].
      assert (false = true) by (apply H7; lia). discriminate. }
    destruct (Nat.le_gt_cases i 10) as [Hi|Hi]; [apply Hk; exact Hi|].
    rewrite posAt_beyond by (simpl; lia). apply Hk. simpl. lia.
Qed.

Lemma app_eq_barrier {A} (x : A) a : forall v r t,
  a ++ r = v ++ x :: t -> ~ In x a -> exists c, v = a ++ c /\ r = c ++ x :: t.
Proof.
  induction a as [|y a IH]; intros v r t H Hin.
  - exists v. split; [reflexivity|exact H].
  - destruct v as [|y' v].
    + cbn in H. inversion H; subst. exfalso. apply Hin. left. reflexivity.
    + cbn in H. inversion H; subst.
      destruct (IH v r t) as (c & -> & ->); auto.
      { intros Hi. apply Hin. right. exact Hi. }
      exists c. split; reflexivity.
Qed.

Lemma run_nil_wordP re p p' s :
  avoids RuneError re = true -> wordP p = wordP p' ->
  run re (p, s) = [] -> run re (p', s) = [].
Proof.
  intros Hav Hp H. destruct (run re (p', s)) as [|st' l] eqn:E; [reflexivity|].
  assert (Hin : In st' (run re (p', s))) by (rewrite E; left; reflexivity).
  apply run_sound in Hin as (m & Hs & _ & HM).
  apply Match_transfer with (p' := p) (r' := snd st') in HM; auto.
  apply run_complete in HM. rewrite <- Hs, H in HM. contradiction.
Qed.

(** A byte that the pattern avoids hides what comes after it. *)
Lemma run_nil_barrier re q v x t :
  avoids RuneError re = true -> avoids (bval x) re = true ->
  (bval x < 128)%N ->
  run re (q, v ++ [x]) = [] -> run re (q, v ++ x :: t) = [].
Proof.
  intros Hav Hx Hasc H.
  destruct (run re (q, v ++ x :: t)) as [|st' l] eqn:E; [reflexivity|].
  assert (Hin : In st' (run re (q, v ++ x :: t))) by (rewrite E; left; reflexivity).
  apply run_sound in Hin as (m & Hs & _ & HM).
  pose proof (Match_avoids _ _ _ _ x HM Hx Hasc) as Hni.
  symmetry in Hs. apply app_eq_barrier in Hs as (c & -> & Hr); [|exact Hni].
  apply Match_transfer with (p' := q) (r' := c ++ [x]) in HM; auto.
  - apply run_complete in HM. rewrite app_assoc, H in HM. contradiction.
  - rewrite Hr. destruct c; reflexivity.
Qed.

(** No new match in a stretch that the search skipped, when the match that
    followed it is replaced by text that begins with a byte the pattern
    avoids. *)
Lemma run_nil_gap re q q' v o x t :
  avoids RuneError re = true -> avoids (bval x) re = true ->
  (bval x < 128)%N -> isWordByte x = false -> endsBound re = true ->
  wordP q = wordP q' -> v <> [] ->
  (wordP (after q v) = true -> wordS o = false) ->
  run re (q, v ++ o) = [] -> run re (q', v ++ x :: t) = [].
Proof.
  intros Hav Hx Hasc Hxw Hend Hq Hv Ho H.
  destruct (run re (q', v ++ x :: t)) as [|st' l] eqn:E; [reflexivity|].
  assert (Hin : In st' (run re (q', v ++ x :: t))) by (rewrite E; left; reflexivity).
  apply run_sound in Hin as (m & Hs & _ & HM).
  pose proof (Match_avoids _ _ _ _ x HM Hx Hasc) as Hni.
  symmetry in Hs. apply app_eq_barrier in Hs as (c & -> & Hr); [|exact Hni].
  pose proof (endsBound_spec _ _ _ _ HM Hend) as Hb.
  apply Match_transfer with (p' := q) (r' := c ++ o) in HM; auto.
  - apply run_complete in HM. rewrite app_assoc, H in HM. contradiction.
  - rewrite Hr. destruct c as [|y c]; [|reflexivity].
    rewrite app_nil_r in *. cbn [app] in *.
    rewrite Hr, atBoundary_words in Hb.
    assert (Hws : wordS (x :: t) = false) by (unfold wordS, wordAfter; simpl; exact Hxw).
    rewrite Hws, xorb_false_r in Hb.
    rewrite (wordP_after_nonempty q' q m Hv) in Hb.
    rewrite (Ho Hb). exact Hws.
Qed.

Lemma run_avoided_head re q x t :
  nullable re = false -> avoids (bval x) re = true -> (bval x < 128)%N ->
  run re (q, x :: t) = [].
Proof.
  intros Hn Hx Hasc.
  destruct (run re (q, x :: t)) as [|st' l] eqn:E; [reflexivity|].
  assert (Hin : In st' (run re (q, x :: t))) by (rewrite E; left; reflexivity).
  apply run_sound in Hin as (m & Hs & _ & HM).
  pose proof (nullable_false_nonempty _ _ _ _ HM Hn) as Hm.
  pose proof (Match_avoids _ _ _ _ x HM Hx Hasc) as Hni.
  destruct m as [|y m]; [congruence|]. cbn in Hs. inversion Hs; subst.
  exfalso. apply Hni. left. reflexivity.
Qed.

Lemma firstn_nil_cases {A} i (s : list A) :
  firstn i s = [] -> skipn i s = s.
Proof.
  destruct i; [reflexivity|]. destruct s; [reflexivity|discriminate].
Qed.

Lemma NoMatch_sameSide re p p' s :
  boundFirst re -> avoids RuneError re = true -> sameSide p p' s ->
  NoMatch re p s -> NoMatch re p' s.
Proof.
  intros HB Hav Hside H i. specialize (H i). unfold posAt in *.
  destruct (firstn i s) as [|y f] eqn:Ef.
  - rewrite after_nil in *. destruct Hside as [Hp|[Hp Hs]].
    + eapply run_nil_wordP; eauto.
    + apply HB. rewrite atBoundary_words, Hp.
      rewrite (firstn_nil_cases _ _ Ef), Hs. reflexivity.
  - rewrite (wordP_after_nonempty p' p (y :: f)) by discriminate. exact H.
Qed.

(** One pass of [redact] with the pattern [sc] leaves no match of the
    pattern [ck], provided [ck] matched only where [sc] did. *)
Lemma pass_keeps_clean sc ck :
  boundFirst sc -> endsBound sc = true -> nullable sc = false ->
  redacting ck = true ->
  forall st out, Pass sc (fun _ => redacted) st out ->
  forall p', sameSide (fst st) p' (snd st) ->
  (forall i, run sc (posAt (fst st) (snd st) i) = [] ->
             run ck (posAt (fst st) (snd st) i) = []) ->
  NoMatch ck p' out.
Proof.
  intros HBs HEs HNs Hck.
  apply redacting_spec in Hck as (HB & HE & HN & H91 & H93 & Herr & Hred).
  induction 1 as [[p s] Hf|[p s] sk m [p1 s1] out Hf HP IH];
    intros p' Hside Hdom; cbn [fst snd] in *.
  - apply NoMatch_sameSide with (p := p); auto.
    intros i. apply Hdom. apply find_none; auto.
  - apply find_spec in Hf as (Hs & Hp1 & HM & _ & Hskip). cbn [fst snd] in *.
    pose proof (nullable_false_nonempty _ _ _ _ HM HNs) as Hm.
    pose proof (boundFirst_spec _ _ _ _ HBs HM) as Hstart.
    pose proof (endsBound_spec _ _ _ _ HM HEs) as Hend.
    rewrite atBoundary_words in Hstart, Hend.
    assert (IH' : NoMatch ck (Some "]"%byte) out).
    { apply IH.
      - subst p1. rewrite after_app.
        destruct (wordP (after (after p sk) m)) eqn:Ew.
        + right. split; [reflexivity|].
          destruct (wordS s1); [discriminate|reflexivity].
        + left. rewrite Ew. reflexivity.
      - intros j. subst p1 s.
        rewrite <- (posAt_app_ge p (sk ++ m) s1 j), <- app_assoc.
        apply Hdom. }
    intros i.
    destruct (Nat.lt_ge_cases i (length sk)) as [Hi|Hi].
    + (* inside the stretch that was skipped *)
      rewrite posAt_app_le by lia.
      assert (Hv : skipn i sk <> []).
      { intros E. apply (f_equal (@length byte)) in E.
        rewrite length_skipn in E. simpl in E. lia. }
      assert (Hold : run ck (after p (firstn i sk), skipn i sk ++ m ++ s1) = []).
      { rewrite <- posAt_app_le by lia. rewrite <- Hs.
        apply Hdom. apply Hskip; auto. }
      assert (Hafter : wordP (after (after p (firstn i sk)) (skipn i sk)) = true ->
                       wordS (m ++ s1) = false).
      { rewrite <- after_app, firstn_skipn. intros Hw. rewrite Hw in Hstart.
        destruct (wordS (m ++ s1)); [discriminate|reflexivity]. }
      change redacted with ("["%byte :: bytes_of "redacted]").
      cbn [app].
      destruct (firstn i sk) as [|y f] eqn:Ef.
      * rewrite after_nil in *. destruct Hside as [Hp|[Hp Hws]].
        -- eapply run_nil_gap with (q := p) (o := m ++ s1); eauto;
             reflexivity.
        -- apply HB. rewrite atBoundary_words, Hp.
           rewrite (firstn_nil_cases _ _ Ef) in *.
           rewrite Hs in Hws. destruct sk; [congruence|]. exact Hws.
      * rewrite (wordP_after_nonempty p' p (y :: f)) by discriminate.
        eapply run_nil_gap with (o := m ++ s1); eauto; reflexivity.
    + destruct (Nat.lt_ge_cases i (length sk + 10)) as [Hi2|Hi2].
      * (* inside the inserted text *)
        replace i with (length sk + (i - length sk)) by lia.
        rewrite posAt_app_ge.
        remember (i - length sk) as k eqn:Ek.
        destruct k as [|k].
        -- rewrite posAt_0.
           change redacted with ("["%byte :: bytes_of "redacted]").
           apply run_avoided_head; auto. reflexivity.
        -- change redacted with (bytes_of "[redacted" ++ ["]"%byte]).
           rewrite <- app_assoc. rewrite posAt_app_le by (simpl; lia).
           cbn [app].
           specialize (Hred (S k)).
           change redacted with (bytes_of "[redacted" ++ ["]"%byte]) in Hred.
           rewrite posAt_app_le in Hred by (simpl; lia).
           rewrite (wordP_after_nonempty _ None (firstn (S k) (bytes_of "[redacted")))
             by discriminate.
           apply run_nil_barrier; auto. reflexivity.
      * (* after the inserted text *)
        replace i with (length (sk ++ redacted) + (i - length sk - 10))
          by (rewrite length_app; simpl; lia).
        rewrite app_assoc, posAt_app_ge.
        rewrite after_app.
        replace (after (after p' sk) redacted) with (Some "]"%byte) by reflexivity.
        apply IH'.
Qed.

Lemma search_NoMatch re : forall fuel p s,
  NoMatch re p s -> search fuel re (p, s) = None.
Proof.
  induction fuel as [|fuel IH]; intros p s H; cbn [search].
  - pose proof (H 0) as H0. rewrite posAt_0 in H0.
    apply matchHere_None in H0. rewrite H0. reflexivity.
  - pose proof (H 0) as H0. rewrite posAt_0 in H0.
    apply matchHere_None in H0. rewrite H0. cbn [snd].
    destruct s as [|b s0]; [reflexivity|].
    rewrite advance_spec, IH; [reflexivity|].
    intros j. rewrite <- posAt_plus. apply H.
Qed.

Lemma ReplaceAll_NoMatch re D repl :
  NoMatch re None D -> ReplaceAll re D repl = D.
Proof.
  intros H. unfold ReplaceAll, ReplaceAllFunc. cbn [replaceLoop].
  unfold find. rewrite search_NoMatch by exact H. reflexivity.
Qed.

Lemma redacting_pii : redacting Pat.redactPii = true.
Proof. vm_compute. reflexivity. Qed.

Lemma redacting_spii : redacting Pat.redactSpii = true.
Proof. vm_compute. reflexivity. Qed.

Lemma redact_pass_clean sc ck D :
  redacting sc = true -> redacting ck = true ->
  (forall i, run sc (posAt None D i) = [] -> run ck (posAt None D i) = []) ->
  NoMatch ck None (ReplaceAll sc D redacted).
Proof.
  intros Hsc Hck Hdom.
  apply redacting_spec in Hsc as (HB & HE & HN & _).
  apply (pass_keeps_clean sc ck HB HE HN Hck (None, D)).
  - apply ReplaceAllFunc_Pass. exact HN.
  - left. reflexivity.
  - exact Hdom.
Qed.

(** C4: [redact] is idempotent.  After the two passes neither pattern has
    a match left, so a second [redact] copies its input. *)
Theorem redact_idempotent (D : bytes) : redact (redact D) = redact D.
Proof.
  assert (H1 : NoMatch Pat.redactPii None (ReplaceAll Pat.redactPii D redacted)).
  { apply redact_pass_clean; auto using redacting_pii. }
  assert (H2 : NoMatch Pat.redactPii None (redact D)).
  { unfold redact. apply redact_pass_clean;
      auto using redacting_pii, redacting_spii. }
  assert (H3 : NoMatch Pat.redactSpii None (redact D)).
  { unfold redact. apply redact_pass_clean; auto using redacting_spii. }
  unfold redact at 1.
  rewrite (ReplaceAll_NoMatch _ _ _ H2). apply ReplaceAll_NoMatch. exact H3.
Qed.

(** ** [detokenize] after [tokenize] *)

(** A byte is a word character exactly when the rune decoded at it is. *)
Lemma first_byte_word b t :
  isWordByte b = isWordRune (fst (Utf8.DecodeRune (b :: t))).
Proof.
  destruct (N.lt_ge_cases (bval b) 128) as [Hb|Hb].
  - rewrite DecodeRune_ascii_byte by exact Hb. reflexivity.
  - destruct (Utf8.DecodeRune (b :: t)) as [r w] eqn:E.
    apply DecodeRune_high in E; [|exact Hb]. cbn [fst].
    rewrite (isWordRune_high r E). apply highByte_not_word. exact Hb.
Qed.

Lemma wordS_rune s : s <> [] -> wordS s = isWordRune (fst (Utf8.DecodeRune s)).
Proof.
  destruct s as [|b t]; [congruence|]. intros _. apply first_byte_word.
Qed.

(** The last byte of the bytes of one rune is a word character exactly
    when the rune is. *)
Lemma piece_last_word q e rE :
  Utf8.DecodeRune e = (rE, length e) -> e <> [] ->
  wordP (after q e) = isWordRune rE.
Proof.
  intros H He. destruct e as [|b [|b' e']]; [congruence| |].
  - change (wordP (after q [b])) with (isWordByte b).
    rewrite (first_byte_word b []), H. reflexivity.
  - pose proof (DecodeRune_multi _ _ _ H) as Hall.
    rewrite firstn_all in Hall. specialize (Hall ltac:(simpl; lia)).
    assert (Hhigh : (128 <= rE)%N).
    { apply Forall_cons_iff in Hall as [Hb _].
      eapply DecodeRune_high; eauto. }
    rewrite (isWordRune_high rE Hhigh).
    unfold wordP, wordBefore, after. cbn [fst].
    destruct (rev (b :: b' :: e')) as [|l ls] eqn:Er.
    { apply (f_equal (@length byte)) in Er. rewrite length_rev in Er.
      simpl in Er. lia. }
    apply highByte_not_word. eapply Forall_forall; [exact Hall|].
    apply in_rev. rewrite Er. left. reflexivity.
Qed.

Lemma Decodes_snoc rs : forall m x rE,
  Decodes (rs ++ [rE]) m x ->
  exists m' e, m = m' ++ e /\ e <> [] /\ Utf8.DecodeRune (e ++ x) = (rE, length e).
Proof.
  induction rs as [|r rs IH]; intros m x rE H;
    inversion H as [|? ? m1 m2 ? Hm HD HR]; subst.
  - inversion HR; subst.
    exists [], m1. rewrite app_nil_r. cbn [app] in *. auto.
  - apply IH in HR as (m' & e & -> & He & HDe).
    exists (m1 ++ m'), e. rewrite app_assoc. auto.
Qed.

(** The text matched by a quoted token begins and ends with a word
    character exactly when the token does. *)
Lemma quoted_match_ends T re p m r :
  Pat.quoted T = Some re -> T <> [] -> Match re p m r ->
  m <> [] /\ wordS (m ++ r) = wordS T
  /\ (forall q q', wordP (after q m) = wordP (after q' T)).
Proof.
  intros HQ HT HM. apply quoted_inv in HQ as (rs & HR & ->).
  apply bounded_inv in HM as (HM & _ & _). apply lit_Decodes in HM.
  destruct rs as [|r1 rs0] eqn:Ers.
  { apply runes_nil in HR. congruence. }
  assert (Hm : m <> []) by (eapply Decodes_nonempty; eauto; discriminate).
  split; [exact Hm|]. split.
  - rewrite (wordS_app_nonempty m r []) by exact Hm. rewrite app_nil_r.
    rewrite !wordS_rune by auto.
    rewrite (Decodes_first _ _ _ _ HM), (runes_first _ _ _ _ HR). reflexivity.
  - intros q q'.
    assert (Hne : r1 :: rs0 <> []) by discriminate.
    destruct (exists_last Hne) as (rs' & rE & Hrs). rewrite Hrs in *.
    apply runes_last in HR as (T' & E & -> & HEne & HD & _).
    apply Decodes_snoc in HM as (m' & e & -> & He & HDe).
    apply DecodeRune_shrink in HDe; [|lia|exact He].
    rewrite !after_app.
    rewrite (piece_last_word _ e rE HDe He), (piece_last_word _ E rE HD HEne).
    reflexivity.
Qed.

Lemma isWordRune_bounds r : isWordRune r = true -> (48 <= r <= 122)%N.
Proof.
  unfold isWordRune. rewrite !orb_true_iff, !in_range_iff, N.eqb_eq. lia.
Qed.

Lemma word_not_space r : isWordRune r = true -> Strings.IsSpace r = false.
Proof.
  intros H. apply isWordRune_bounds in H. unfold Strings.IsSpace.
  rewrite !in_range_false by lia.
  repeat match goal with
  | |- context [N.eqb r ?k] => destruct (N.eqb_spec r k); [lia|]
  end. reflexivity.
Qed.

Lemma quoted_nullable T re :
  Pat.quoted T = Some re -> T <> [] -> nullable re = false.
Proof.
  intros HQ HT. apply quoted_inv in HQ as (rs & HR & ->).
  destruct rs as [|r [|r' rs]].
  - apply runes_nil in HR. congruence.
  - reflexivity.
  - reflexivity.
Qed.

(** A pass that replaced something has a last match, after which the
    document is copied. *)
Lemma Pass_last re repl st out :
  Pass re repl st out ->
  (find re st = None /\ out = snd st)
  \/ exists u u' m g q,
       snd st = u ++ m ++ g /\ out = u' ++ g /\ Match re q m g.
Proof.
  induction 1 as [[p s] Hf|[p s] sk m [p1 s1] out Hf HP IH].
  - left. auto.
  - right. apply find_spec in Hf as (Hs & _ & HM & _). cbn [fst snd] in *.
    destruct IH as [[Hn ->]|(u & u' & m1 & g & q & Hs1 & -> & HM1)].
    + exists sk, (sk ++ repl m), m, s1, (after p sk). cbn [snd].
      rewrite <- app_assoc. auto.
    + exists (sk ++ m ++ u), (sk ++ repl m ++ u'), m1, g, q.
      rewrite Hs, Hs1, <- !app_assoc. auto.
Qed.

Lemma Pass_first re repl st out :
  Pass re repl st out ->
  (find re st = None /\ out = snd st)
  \/ exists sk m st' out',
       find re st = Some (sk, m, st') /\ out = sk ++ repl m ++ out'.
Proof.
  intros H. destruct H as [st Hf|st sk m st' out Hf HP].
  - left. auto.
  - right. exists sk, m, st', out. auto.
Qed.

Lemma noWord_dec s :
  noWord s \/ exists b, In b s /\ isWordByte b = true.
Proof.
  induction s as [|x s IH]; [left; constructor|].
  destruct (isWordByte x) eqn:Ex.
  - right. exists x. split; [left; reflexivity|exact Ex].
  - destruct IH as [IH|(b & Hin & Hb)].
    + left. constructor; auto.
    + right. exists b. split; [right; exact Hin|exact Hb].
Qed.

Lemma first_word_split s :
  (exists b, In b s /\ isWordByte b = true) ->
  exists g w t, s = g ++ w :: t /\ noWord g /\ isWordByte w = true.
Proof.
  induction s as [|x s IH]; intros (b & Hin & Hb); [contradiction|].
  destruct (isWordByte x) eqn:Ex.
  - exists [], x, s. repeat split; auto. constructor.
  - destruct Hin as [->|Hin]; [congruence|].
    destruct IH as (g & w & t & -> & Hg & Hw); [exists b; auto|].
    exists (x :: g), w, t. repeat split; auto. constructor; auto.
Qed.

Lemma last_word_split s :
  (exists b, In b s /\ isWordByte b = true) ->
  exists a w t, s = a ++ w :: t /\ isWordByte w = true /\ noWord t.
Proof.
  induction s as [|x s IH]; intros (b & Hin & Hb); [contradiction|].
  destruct (noWord_dec s) as [Hs|Hs].
  - destruct Hin as [->|Hin].
    + exists [], b, s. repeat split; auto.
    + eapply Forall_forall in Hs; [|exact Hin]. cbn in Hs. congruence.
  - destruct (IH Hs) as (a & w & t & -> & Hw & Ht).
    exists (x :: a), w, t. repeat split; auto.
Qed.

Lemma maskWords_last_run T w b :
  isWordByte w = true -> noWord b ->
  forall d f, exists y,
    maskWords T f (d ++ w :: b) = y ++ b
    /\ ((f = true /\ y = []) \/ exists y', y = y' ++ T).
Proof.
  intros Hw Hb. induction d as [|x d IH]; intros f.
  - cbn [app maskWords]. rewrite Hw, (maskWords_noWord T true b Hb).
    destruct f.
    + exists []. split; [reflexivity|]. left. auto.
    + exists T. split; [reflexivity|]. right. exists []. reflexivity.
  - cbn [app maskWords]. destruct (isWordByte x) eqn:Ex.
    + destruct (IH true) as (y & -> & Hy). destruct f.
      * exists y. split; [reflexivity|].
        destruct Hy as [[_ ->]|Hy]; [left; auto|right; exact Hy].
      * exists (T ++ y). rewrite <- app_assoc. split; [reflexivity|].
        right. destruct Hy as [[_ ->]|(y' & ->)].
        -- exists []. rewrite app_nil_r. reflexivity.
        -- exists (T ++ y'). rewrite app_assoc. reflexivity.
    + destruct (IH false) as (y & -> & Hy).
      exists (x :: y). split; [reflexivity|]. right.
      destruct Hy as [[Hf _]|(y' & ->)]; [discriminate|].
      exists (x :: y'). reflexivity.
Qed.

Lemma wordP_last q a l : wordP (after q (a ++ [l])) = isWordByte l.
Proof. rewrite after_app. reflexivity. Qed.

Lemma wordP_true_word s :
  wordP (after None s) = true -> exists b, In b s /\ isWordByte b = true.
Proof.
  destruct s as [|x s'] eqn:Es; [discriminate|]. rewrite <- Es.
  assert (Hne : s <> []) by (subst; discriminate).
  destruct (exists_last Hne) as (a & l & ->). rewrite wordP_last.
  intros H. exists l. split; [apply in_or_app; right; left; reflexivity|exact H].
Qed.

(** The first match of a token that does not begin with a word character
    cannot come after a word character of the document. *)
Lemma first_match_contra T t0 T' sk d m rest :
  T = t0 :: T' -> isWordByte t0 = false ->
  maskWords T false (sk ++ d) = sk ++ m ++ rest ->
  wordP (after None sk) = true -> False.
Proof.
  intros HT Ht0 HX Hw. apply wordP_true_word in Hw.
  apply first_word_split in Hw as (g & w & t & -> & Hg & Hw).
  rewrite <- !app_assoc in HX. cbn [app] in HX.
  rewrite maskWords_skip in HX by (auto; right; reflexivity).
  apply app_inv_head in HX. cbn [maskWords] in HX. rewrite Hw, HT in HX.
  cbn [app] in HX. inversion HX; subst. congruence.
Qed.

(** The last match of a token that does not end with a word character
    cannot be followed by a word character of the document. *)
Lemma last_match_contra T u' u m g :
  T <> [] -> wordP (after None T) = false ->
  maskWords T false (u' ++ g) = u ++ m ++ g ->
  wordS g = true -> False.
Proof.
  intros HT Hlast HX Hg.
  assert (Hex : exists b, In b g /\ isWordByte b = true).
  { destruct g as [|x g']; [discriminate|]. exists x.
    split; [left; reflexivity|exact Hg]. }
  apply last_word_split in Hex as (a & w & t & -> & Hw & Ht).
  rewrite app_assoc in HX.
  destruct (maskWords_last_run T w t Hw Ht (u' ++ a) false) as (y & Hy & Hy').
  rewrite Hy in HX. destruct Hy' as [[Hf _]|(y' & ->)]; [discriminate|].
  destruct (exists_last HT) as (T0 & l & ->).
  rewrite wordP_last in Hlast.
  replace (u ++ m ++ a ++ w :: t) with ((u ++ m ++ a ++ [w]) ++ t) in HX
    by (rewrite <- !app_assoc; reflexivity).
  apply app_inv_tail in HX.
  rewrite !app_assoc in HX. apply app_inj_tail in HX as [_ HX]. congruence.
Qed.

Lemma maskWords_OnlyTokens T : forall d f, OnlyTokens T (maskWords T f d).
Proof.
  induction d as [|b d IH]; intros f; cbn [maskWords]; [constructor|].
  destruct (isWordByte b) eqn:Eb.
  - destruct f; [apply IH|]. apply OnlyToken. apply IH.
  - apply OnlySep; auto.
Qed.

Lemma clean_word_ends T t0 T' :
  T = t0 :: T' -> isWordByte t0 = true -> wordP (after None T) = true ->
  cleanStart T /\ cleanEnd T.
Proof.
  intros HT Ht0 Hlast. split.
  - unfold cleanStart. apply word_not_space.
    rewrite HT, <- first_byte_word. exact Ht0.
  - unfold cleanEnd.
    assert (Hne : T <> []) by (subst; discriminate).
    destruct (exists_last Hne) as (a & l & Ha). rewrite Ha in *.
    rewrite wordP_last in Hlast.
    unfold Strings.DecodeLastRune. rewrite rev_app_distr. cbn [rev app].
    pose proof (wordByte_ascii l Hlast) as Hl. apply N.ltb_lt in Hl.
    rewrite Hl. cbn [fst]. apply word_not_space. exact Hlast.
Qed.

(** If [detokenize] gives the document back after [tokenize], then
    [tokenize] had changed nothing. *)
Lemma detokenize_tokenize_fixed D T :
  detokenize (tokenize D T) T = Some D -> tokenize D T = D.
Proof.
  rewrite tokenize_maskWords. intros H.
  assert (HV : validToken T).
  { unfold validToken. unfold detokenize, Pat.quoted in H.
    destruct (Utf8.runes (length T) T); [discriminate|discriminate]. }
  assert (Hclean : cleanStart T -> cleanEnd T -> maskWords T false D = D).
  { intros H1 H2. rewrite (detokenize_clean _ T HV H1 H2) in H.
    inversion H. congruence. }
  destruct T as [|t0 T'] eqn:ET.
  { apply Hclean; reflexivity. }
  rewrite <- ET in *. assert (HT : T <> []) by (subst; discriminate).
  unfold detokenize in H. destruct (Pat.quoted T) as [re|] eqn:HQ; [|discriminate].
  assert (HD : ReplaceAllFunc re (maskWords T false D) Strings.TrimSpace = D)
    by congruence.
  clear H.
  pose proof (quoted_nullable T re HQ HT) as Hn.
  pose proof (ReplaceAllFunc_Pass re Strings.TrimSpace (maskWords T false D) Hn)
    as HP.
  rewrite HD in HP.
  assert (Hre : exists L, re = RSeq RBound (RSeq L RBound)).
  { apply quoted_inv in HQ as (rs & _ & ->). eexists. reflexivity. }
  destruct Hre as (L & HL).
  destruct (isWordByte t0) eqn:Ht0.
  - destruct (wordP (after None T)) eqn:Hlast.
    + destruct (clean_word_ends T t0 T' ET Ht0 Hlast) as [H1 H2].
      apply Hclean; assumption.
    + apply Pass_last in HP as [[_ HP]|(u & u' & m & g & q & HX & HDg & HM)].
      { cbn [snd] in HP. congruence. }
      exfalso. cbn [snd] in HX.
      destruct (quoted_match_ends T re q m g HQ HT HM) as (_ & _ & Hend).
      rewrite HL in HM. apply bounded_inv in HM as (_ & _ & Hb).
      rewrite atBoundary_words, (Hend q None), Hlast in Hb. cbn in Hb.
      apply (last_match_contra T u' u m g HT Hlast); [|exact Hb].
      rewrite <- HDg. exact HX.
  - apply Pass_first in HP as [[_ HP]|(sk & m & st' & out & Hf & Hout)].
    { cbn [snd] in HP. congruence. }
    exfalso.
    apply find_spec in Hf as (HX & _ & HM & _).
    destruct (quoted_match_ends T re _ m (snd st') HQ HT HM) as (_ & Hfirst & _).
    rewrite HL in HM. apply bounded_inv in HM as (_ & Hb & _).
    rewrite atBoundary_words, Hfirst in Hb.
    assert (HwT : wordS T = false) by (rewrite ET; exact Ht0).
    rewrite HwT, xorb_false_r in Hb.
    apply (first_match_contra T t0 T' sk (Strings.TrimSpace m ++ out) m (snd st')
             ET Ht0); [|exact Hb].
    rewrite <- Hout. exact HX.
Qed.

(** C7: [detokenize] does not invert [tokenize].  On ["Hello world"] with
    the token [***] it returns ["*** ***"]; and whenever it does return the
    document, [tokenize] had not changed it: the document already consisted
    solely of copies of the token and of non-word bytes. *)
Theorem detokenize_does_not_invert_tokenize :
  (exists D T, detokenize (tokenize D T) T <> Some D)
  /\ detokenize (tokenize (bytes_of "Hello world") (bytes_of "***"))
       (bytes_of "***") = Some (bytes_of "*** ***")
  /\ (forall D T,
        detokenize (tokenize D T) T = Some D ->
        tokenize D T = D /\ OnlyTokens T D).
Proof.
  split; [|split].
  - exists (bytes_of "Hello world"), (bytes_of "***"). vm_compute. discriminate.
  - vm_compute. reflexivity.
  - intros D T H. apply detokenize_tokenize_fixed in H as HF.
    split; [exact HF|]. rewrite <- HF, tokenize_maskWords.
    apply maskWords_OnlyTokens.
Qed.

Lemma detokenize_does_not_invert_tokenize_witness :
  tokenize (bytes_of "***, ***") (bytes_of "***") = bytes_of "***, ***"
  /\ OnlyTokens (bytes_of "***") (bytes_of "***, ***").
Proof.
  destruct detokenize_does_not_invert_tokenize as (_ & _ & H).
  apply H. vm_compute. reflexivity.
Defined.

(* ================================================================== *)
(** * Further properties *)

(** ** [tokenize]: composition, size and what it forgets *)

Lemma maskWords_head_nonword T : forall d, wordS (maskWords T true d) = false.
Proof.
  induction d as [|b d IH]; [reflexivity|]. cbn [maskWords].
  destruct (isWordByte b) eqn:Eb; [exact IH|].
  unfold wordS, wordAfter. cbn. exact Eb.
Qed.

Lemma maskWords_app_sep U : forall a f b,
  wordS b = false ->
  maskWords U f (a ++ b) = maskWords U f a ++ maskWords U false b.
Proof.
  induction a as [|x a IH]; intros f b Hb.
  - cbn [app maskWords]. destruct f; [|reflexivity].
    apply (maskWords_flag U None b Hb).
  - cbn [app maskWords]. destruct (isWordByte x).
    + rewrite IH by exact Hb. rewrite app_assoc. reflexivity.
    + rewrite IH by exact Hb. reflexivity.
Qed.

Lemma maskWords_compose T U : forall d,
  maskWords U false (maskWords T false d)
  = maskWords (maskWords U false T) false d
  /\ forall g, maskWords U g (maskWords T true d)
               = maskWords (maskWords U false T) true d.
Proof.
  induction d as [|x d [IH1 IH2]]; [split; [reflexivity|intros []; reflexivity]|].
  cbn [maskWords]. destruct (isWordByte x) eqn:Ex.
  - split.
    + rewrite maskWords_app_sep by apply maskWords_head_nonword.
      rewrite (IH2 false). reflexivity.
    + intros g. cbn [app]. apply IH2.
  - split.
    + cbn [maskWords]. rewrite Ex, IH1. reflexivity.
    + intros g. cbn [maskWords]. rewrite Ex, IH1. reflexivity.
Qed.

Lemma tokenize_compose D T U :
  tokenize (tokenize D T) U = tokenize D (tokenize T U).
Proof.
  rewrite !tokenize_maskWords. apply maskWords_compose.
Qed.

(** X1: tokenizing a tokenized document is tokenizing the document once,
    with the tokenized token as the token. *)
Theorem tokenize_tokenize (D T U : bytes) :
  tokenize (tokenize D T) U = tokenize D (tokenize T U).
Proof. apply tokenize_compose. Qed.

Lemma maskWords_length T : forall d f,
  length (maskWords T f d)
  = length (nonWords d) + wordRuns f d * length T.
Proof.
  unfold nonWords.
  induction d as [|b d IH]; intros f; [reflexivity|].
  cbn [maskWords wordRuns filter]. destruct (isWordByte b); cbn [negb].
  - rewrite length_app, IH. destruct f; cbn [length]; lia.
  - cbn [length]. rewrite IH. lia.
Qed.

(** X2: the size of a tokenized document: the bytes that are no word
    characters stay, and each maximal run of word characters becomes one
    token. *)
Theorem tokenize_length (D T : bytes) :
  length (tokenize D T)
  = length (nonWords D) + wordRuns false D * length T.
Proof. rewrite tokenize_maskWords. apply maskWords_length. Qed.

Lemma tokenize_size D T :
  length (tokenize D T)
  = length (nonWords D) + wordRuns false D * length T.
Proof. rewrite tokenize_maskWords. apply maskWords_length. Qed.

Lemma nonWords_wordBytes_length d :
  length (nonWords d) + length (wordBytes d) = length d.
Proof.
  unfold nonWords, wordBytes. induction d as [|b d IH]; [reflexivity|].
  cbn [filter]. destruct (isWordByte b); cbn [negb length]; lia.
Qed.

Lemma wordRuns_le_wordBytes : forall d f, wordRuns f d <= length (wordBytes d).
Proof.
  unfold wordBytes. induction d as [|b d IH]; intros f; [reflexivity|].
  cbn [wordRuns filter]. destruct (isWordByte b).
  - cbn [length]. specialize (IH true). destruct f; lia.
  - apply IH.
Qed.

Lemma wordRuns_positive d :
  wordBytes d <> [] -> 0 < wordRuns false d.
Proof.
  unfold wordBytes. induction d as [|b d IH]; [simpl; congruence|].
  cbn [wordRuns filter]. destruct (isWordByte b); [lia|exact IH].
Qed.

(** X3: [tokenize] is idempotent for a token without word characters and
    for a token made of word characters only; for any other token a second
    application makes every document with a word character longer. *)
Theorem tokenize_idempotent_iff (T : bytes) :
  (noWord T -> forall D, tokenize (tokenize D T) T = tokenize D T)
  /\ (allWord T -> forall D, tokenize (tokenize D T) T = tokenize D T)
  /\ (wordBytes T <> [] -> nonWords T <> [] ->
      forall D, wordBytes D <> [] ->
        length (tokenize D T) < length (tokenize (tokenize D T) T)).
Proof.
  split; [|split].
  - intros HT D. rewrite tokenize_compose. f_equal.
    rewrite tokenize_maskWords. apply maskWords_noWord. exact HT.
  - intros HT D. rewrite tokenize_compose. f_equal.
    rewrite tokenize_maskWords. destruct T as [|t T']; [reflexivity|].
    pose proof (maskWords_run (t :: T') (t :: T') [] HT ltac:(discriminate))
      as H.
    rewrite !app_nil_r in H. exact H.
  - intros Hw Hn D HD. rewrite tokenize_compose, !tokenize_size.
    pose proof (wordRuns_positive D HD) as HrD.
    pose proof (wordRuns_positive T Hw) as HrT.
    pose proof (nonWords_wordBytes_length T) as HlT.
    pose proof (wordRuns_le_wordBytes T false) as Hle.
    assert (Hnl : 0 < length (nonWords T))
      by (destruct (nonWords T); [congruence|simpl; lia]).
    assert (HT : length T < length (nonWords T) + wordRuns false T * length T)
      by nia.
    nia.
Qed.

Lemma tokenize_idempotent_iff_witness :
  tokenize (tokenize (bytes_of "a b") (bytes_of "***")) (bytes_of "***")
  = tokenize (bytes_of "a b") (bytes_of "***")
  /\ length (tokenize (bytes_of "a b") (bytes_of "[T]"))
     < length (tokenize (tokenize (bytes_of "a b") (bytes_of "[T]"))
                 (bytes_of "[T]")).
Proof.
  split.
  - destruct (tokenize_idempotent_iff (bytes_of "***")) as (H & _ & _).
    apply H. unfold noWord. repeat (constructor; [reflexivity|]). constructor.
  - destruct (tokenize_idempotent_iff (bytes_of "[T]")) as (_ & _ & H).
    apply H; discriminate.
Defined.

(** X4: with the empty token [tokenize] deletes the word characters and
    nothing else. *)
Theorem tokenize_empty_token (D : bytes) : tokenize D [] = nonWords D.
Proof.
  rewrite tokenize_maskWords. unfold nonWords.
  generalize false. induction D as [|b D IH]; intros f; [reflexivity|].
  cbn [maskWords filter]. destruct (isWordByte b); cbn [negb].
  - destruct f; cbn [app]; apply IH.
  - f_equal. apply IH.
Qed.

Lemma maskWords_skeleton T d d' :
  sameSkeleton d d' -> forall f, maskWords T f d = maskWords T f d'.
Proof.
  induction 1 as [|a b d d' [Hab Heq] _ IH]; intros f; [reflexivity|].
  cbn [maskWords]. rewrite <- Hab. destruct (isWordByte a) eqn:Ea.
  - rewrite IH. reflexivity.
  - rewrite (Heq eq_refl), IH. reflexivity.
Qed.

(** X5: [tokenize] forgets the words: two documents that have their words
    at the same places and agree on every other byte give the same output,
    whatever the words are. *)
Theorem tokenize_forgets_words (D D' T : bytes) :
  sameSkeleton D D' -> tokenize D T = tokenize D' T.
Proof.
  intros H. rewrite !tokenize_maskWords. apply maskWords_skeleton. exact H.
Qed.

Lemma tokenize_forgets_words_witness :
  tokenize (bytes_of "Alice, 42") (bytes_of "#")
  = tokenize (bytes_of "Carol, 07") (bytes_of "#").
Proof.
  apply tokenize_forgets_words. unfold sameSkeleton.
  repeat (constructor; [split; [reflexivity|intros H; try discriminate H; reflexivity]|]).
  constructor.
Defined.

(** ** [redact]: what it keeps and when it does nothing *)

Lemma keptByte_spec b :
  keptByte b = true ->
  (bval b < 128)%N /\ avoids (bval b) Pat.redactPii = true
  /\ avoids (bval b) Pat.redactSpii = true /\ ~ In b redacted.
Proof.
  destruct b; vm_compute; intros H; try discriminate H;
    (split; [reflexivity|]); (split; [reflexivity|]); (split; [reflexivity|]);
    intros HIn; repeat (destruct HIn as [HIn|HIn]; [discriminate HIn|]);
    exact HIn.
Qed.

Lemma filter_none {A} (P : A -> bool) l :
  (forall x, In x l -> P x = false) -> filter P l = [].
Proof.
  induction l as [|x l IH]; intros H; [reflexivity|]. cbn [filter].
  rewrite (H x) by (left; reflexivity). apply IH.
  intros y Hy. apply H. right. exact Hy.
Qed.

Lemma pieces_filter re (P : byte -> bool) repl :
  (forall b, P b = true -> (bval b < 128)%N /\ avoids (bval b) re = true) ->
  (forall b, In b repl -> P b = false) ->
  forall ps p tail, matchedIn re p ps tail ->
    filter P (replaced (fun _ => repl) ps tail) = filter P (original ps tail).
Proof.
  intros HP Hrepl. induction ps as [|[g m] ps IH]; intros p tail HM;
    [reflexivity|].
  cbn [matchedIn replaced original] in *. destruct HM as [HM Hrest].
  rewrite !filter_app. rewrite (IH _ _ Hrest).
  rewrite (filter_none P repl Hrepl).
  rewrite (filter_none P m); [reflexivity|].
  intros x Hx. destruct (P x) eqn:E; [|reflexivity]. exfalso.
  destruct (HP x E) as [Hasc Hav].
  exact (Match_avoids _ _ _ _ x HM Hav Hasc Hx).
Qed.

Lemma ReplaceAll_filter re (P : byte -> bool) repl D :
  nullable re = false ->
  (forall b, P b = true -> (bval b < 128)%N /\ avoids (bval b) re = true) ->
  (forall b, In b repl -> P b = false) ->
  filter P (ReplaceAll re D repl) = filter P D.
Proof.
  intros Hn HP Hrepl.
  destruct (ReplaceAll_pieces re repl D Hn) as (ps & tail & HD & Hout & HM & _).
  rewrite Hout, HD. eapply pieces_filter; eauto.
Qed.

(** X6: [redact] keeps every ASCII byte that is no letter, no white space
    of [\s], no apostrophe and no bracket, in its place among its like; in
    particular every digit of the document is in the output. *)
Theorem redact_keeps_plain_bytes (D : bytes) :
  filter keptByte (redact D) = filter keptByte D
  /\ filter isDigit (redact D) = filter isDigit D.
Proof.
  assert (Hk : forall b, In b redacted -> keptByte b = false).
  { intros b Hb. destruct (keptByte b) eqn:E; [|reflexivity].
    apply keptByte_spec in E as (_ & _ & _ & Hn). contradiction. }
  assert (Hd : forall b, isDigit b = true -> keptByte b = true).
  { intros b. destruct b; vm_compute; intros H; try discriminate H;
      reflexivity. }
  assert (Hgen : forall P : byte -> bool,
            (forall b, P b = true -> keptByte b = true) ->
            filter P (redact D) = filter P D).
  { intros P HP. unfold redact.
    rewrite ReplaceAll_filter, ReplaceAll_filter; try reflexivity.
    - intros b Hb. apply HP, keptByte_spec in Hb. tauto.
    - intros b Hb. destruct (P b) eqn:E; [|reflexivity].
      apply HP in E. rewrite (Hk b Hb) in E. discriminate.
    - intros b Hb. apply HP, keptByte_spec in Hb. tauto.
    - intros b Hb. destruct (P b) eqn:E; [|reflexivity].
      apply HP in E. rewrite (Hk b Hb) in E. discriminate. }
  split; apply Hgen; auto.
Qed.

Lemma FindAll_NoMatch re D : NoMatch re None D -> FindAll re D = [].
Proof.
  intros H. unfold FindAll. cbn [allMatches]. unfold find.
  rewrite search_NoMatch by exact H. reflexivity.
Qed.

Lemma FindAll_nil_NoMatch re D :
  nullable re = false -> boundFirst re ->
  FindAll re D = [] -> NoMatch re None D.
Proof.
  intros Hn HB H. unfold FindAll in H. cbn [allMatches] in H.
  destruct (find re (None, D)) as [[[sk m] st']|] eqn:E.
  - apply find_spec in E as (_ & _ & HM & _).
    apply (nullable_false_nonempty _ _ _ _ HM) in Hn.
    rewrite (isNil_false m Hn), andb_false_r in H. discriminate.
  - intros i. apply find_none; auto.
Qed.

Lemma redact_NoMatch D :
  NoMatch Pat.redactPii None (redact D)
  /\ NoMatch Pat.redactSpii None (redact D).
Proof.
  assert (H1 : NoMatch Pat.redactPii None (ReplaceAll Pat.redactPii D redacted)).
  { apply redact_pass_clean; auto using redacting_pii. }
  split; unfold redact; apply redact_pass_clean;
    auto using redacting_pii, redacting_spii.
Qed.

(** X7: in the output of [redact] neither of its two patterns matches
    anywhere: listing their matches gives nothing. *)
Theorem redact_leaves_no_match (D : bytes) :
  FindAll Pat.redactPii (redact D) = []
  /\ FindAll Pat.redactSpii (redact D) = [].
Proof.
  destruct (redact_NoMatch D) as [H1 H2].
  split; apply FindAll_NoMatch; assumption.
Qed.

Lemma run_alt_first a b st :
  run (RGroup (RAlt a b)) st = [] -> run a st = [].
Proof. cbn [run]. intros H. apply app_eq_nil in H. tauto. Qed.

(** X8: where the detector reports nothing, [redact] changes nothing: a
    document without a match of the package-level PII and SPII patterns is
    returned as it is. *)
Theorem redact_silent_detector (D : bytes) :
  FindAll Pat.piiRegex D = [] -> FindAll Pat.spiiRegex D = [] ->
  redact D = D.
Proof.
  intros Hp Hs.
  apply FindAll_nil_NoMatch in Hp;
    [|reflexivity|apply startsBound_boundFirst; reflexivity].
  apply FindAll_nil_NoMatch in Hs;
    [|reflexivity|apply startsBound_boundFirst; reflexivity].
  assert (Hp' : NoMatch Pat.redactPii None D).
  { intros i. eapply run_alt_first. apply (Hp i). }
  assert (Hs' : NoMatch Pat.redactSpii None D).
  { intros i. eapply run_alt_first. apply (Hs i). }
  unfold redact. rewrite (ReplaceAll_NoMatch _ _ _ Hp').
  apply ReplaceAll_NoMatch. exact Hs'.
Qed.

Lemma redact_silent_detector_witness :
  redact (bytes_of "call 555-0100 before 9am") = bytes_of "call 555-0100 before 9am".
Proof.
  apply redact_silent_detector; vm_compute; reflexivity.
Defined.

(** X9: the documents that [redact] returns unchanged are exactly those
    in which neither of its two patterns has a match. *)
Theorem redact_fixed_points (D : bytes) :
  redact D = D
  <-> FindAll Pat.redactPii D = [] /\ FindAll Pat.redactSpii D = [].
Proof.
  split.
  - intros H. destruct (redact_NoMatch D) as [H1 H2]. rewrite H in H1, H2.
    split; apply FindAll_NoMatch; assumption.
  - intros [Hp Hs].
    apply FindAll_nil_NoMatch in Hp;
      [|reflexivity|apply startsBound_boundFirst; reflexivity].
    apply FindAll_nil_NoMatch in Hs;
      [|reflexivity|apply startsBound_boundFirst; reflexivity].
    unfold redact. rewrite (ReplaceAll_NoMatch _ _ _ Hp).
    apply ReplaceAll_NoMatch. exact Hs.
Qed.

(** ** The counts that [processFile] prints *)




(** ** [detokenize]: all it can remove is white space *)
















(** ** The program *)


Section MainProperties.

Variable FS : Type.
Variable Console : Type.
Variable Stat : FS -> string -> option Main.FileInfo.
Variable ReadDir : FS -> string -> option (list Main.FileInfo).
Variable ReadFile : FS -> string -> option bytes.
Variable WriteFile : FS -> string -> bytes -> option FS.
Variable outputFileOf : FS -> string -> string -> string.
Variable Abs : string -> option string.
Variable Join : string -> string -> string.
Variable ToLower : string -> string.
Variable Scanln : Console -> string * Console.
Variable mode : string.
Variable token : bytes.
Variable outputDir : string.

#[local] Abbreviation world := (Main.world FS Console).
#[local] Abbreviation fs := (Main.fs FS Console).
#[local] Abbreviation console := (Main.console FS Console).
#[local] Abbreviation printed := (Main.printed FS Console).
#[local] Abbreviation isIllegalDirectory := (Main.isIllegalDirectory Abs).
#[local] Abbreviation listFiles := (Main.listFiles FS ReadDir Join).
#[local] Abbreviation approveFile := (Main.approveFile FS Console ToLower Scanln).
#[local] Abbreviation callProcessFile :=
  (Main.callProcessFile FS Console ReadFile WriteFile outputFileOf
     mode token outputDir).
#[local] Abbreviation processEach :=
  (Main.processEach FS Console ReadFile WriteFile outputFileOf
     mode token outputDir).
#[local] Abbreviation approveEach :=
  (Main.approveEach FS Console ReadFile WriteFile outputFileOf
     ToLower Scanln mode token outputDir).
#[local] Abbreviation main :=
  (Main.main FS Console Stat ReadDir ReadFile WriteFile outputFileOf
     Abs Join ToLower Scanln mode token outputDir).

(** What a call of [processFile] does to the world: it leaves standard
    input alone, prints lines of its own, the first of them about its
    file, and panics only in [detokenize] mode on a token that is not valid
    UTF-8; with an unknown mode it leaves the file system alone. *)
Lemma callProcessFile_spec (w : world) file :
  exists ls,
    console (snd (callProcessFile w file)) = console w
    /\ printed (snd (callProcessFile w file)) = printed w ++ ls
    /\ Forall (fun l => fromProcessFile l = true) ls
    /\ Exists (handles file) ls
    /\ (fst (callProcessFile w file) = Main.Crashed ->
        mode = "detokenize"%string /\ ~ validToken token)
    /\ fst (callProcessFile w file) <> Main.Exit1
    /\ (~ knownMode mode -> fs (snd (callProcessFile w file)) = fs w).
Proof.
  unfold Main.callProcessFile, Driver.processFile.
  destruct (ReadFile (fs w) file) as [input|].
  { destruct (applyMode mode token input) as [out| |] eqn:EA.
    - destruct (WriteFile (fs w) (outputFileOf (fs w) file outputDir) out);
        eexists; cbn [fst snd Main.console Main.printed Main.fs map];
        (split; [reflexivity|]); (split; [reflexivity|]);
        (split; [repeat constructor|]);
        (split; [left; right; eauto|]);
        (split; [discriminate|]); (split; [discriminate|]);
        intros Hk; try reflexivity;
        rewrite applyMode_unknown in EA by exact Hk; discriminate.
    - eexists; cbn [fst snd Main.console Main.printed Main.fs map].
      split; [reflexivity|]. split; [reflexivity|].
      split; [repeat constructor|]. split; [left; right; eauto|].
      split; [discriminate|]. split; [discriminate|]. reflexivity.
    - eexists; cbn [fst snd Main.console Main.printed Main.fs map].
      split; [reflexivity|]. split; [reflexivity|].
      split; [repeat constructor|]. split; [left; right; eauto|].
      split; [|split; [discriminate|reflexivity]].
      intros _. unfold applyMode in EA.
      destruct (String.eqb_spec mode "tokenize"); [discriminate|].
      destruct (String.eqb_spec mode "detokenize") as [Hm|];
        [|destruct (mode =? "redact")%string; discriminate].
      split; [exact Hm|]. unfold validToken. intros Hv.
      unfold detokenize, Pat.quoted in EA.
      destruct (Utf8.runes (length token) token); [discriminate|congruence]. }
  eexists; cbn [fst snd Main.console Main.printed Main.fs map].
  split; [reflexivity|]. split; [reflexivity|].
  split; [repeat constructor|]. split; [left; left; reflexivity|].
  split; [discriminate|]. split; [discriminate|]. reflexivity.
Qed.

Lemma approveFile_spec (w : world) file :
  fs (snd (approveFile w file)) = fs w
  /\ console (snd (approveFile w file)) = snd (Scanln (console w))
  /\ printed (snd (approveFile w file)) = printed w ++ [Main.AskFile file]
  /\ fst (approveFile w file)
     = String.eqb (ToLower (fst (Scanln (console w)))) "y".
Proof.
  unfold Main.approveFile, Main.print. cbn [Main.console].
  destruct (Scanln (console w)) as [input c]. repeat split.
Qed.

(** The loop that processes every file. *)
Lemma processEach_spec files : forall (w : world),
  exists ls,
    console (snd (processEach w files)) = console w
    /\ printed (snd (processEach w files)) = printed w ++ ls
    /\ Forall (fun l => fromProcessFile l = true) ls
    /\ (fst (processEach w files) = Main.Finished ->
        forall x, In x files -> Exists (handles x) ls)
    /\ (fst (processEach w files) = Main.Crashed ->
        mode = "detokenize"%string /\ ~ validToken token)
    /\ fst (processEach w files) <> Main.Exit1
    /\ (~ knownMode mode -> fs (snd (processEach w files)) = fs w).
Proof.
  induction files as [|file files IH]; intros w.
  { exists []. cbn. rewrite app_nil_r. repeat split; try discriminate.
    - constructor.
    - intros _ x []. }
  cbn [Main.processEach].
  destruct (callProcessFile_spec w file)
    as (ls & Hc & Hp & Hall & Hex & Hcr & Hx & Hfs).
  destruct (callProcessFile w file) as [st w1]. cbn [fst snd] in *.
  destruct st.
  - destruct (IH w1) as (ls' & Hc' & Hp' & Hall' & Hex' & Hcr' & Hx' & Hfs').
    exists (ls ++ ls').
    split; [congruence|]. split; [rewrite Hp', Hp, app_assoc; reflexivity|].
    split; [apply Forall_app; split; assumption|].
    split; [|split; [exact Hcr'|split; [exact Hx'|]]].
    + intros Hf x [<-|Hin]; apply Exists_app; [left; exact Hex|right; auto].
    + intros Hk. rewrite Hfs', Hfs by exact Hk. reflexivity.
  - congruence.
  - exists ls. cbn [fst snd].
    split; [exact Hc|]. split; [exact Hp|]. split; [exact Hall|].
    split; [discriminate|]. split; [exact Hcr|]. split; [discriminate|].
    exact Hfs.
Qed.

(** The loop that asks about every file. *)
Lemma approveEach_spec files : forall (w : world),
  exists ls,
    printed (snd (approveEach w files)) = printed w ++ ls
    /\ (fst (approveEach w files) = Main.Finished ->
        forall x, In x files -> In (Main.AskFile x) ls)
    /\ (fst (approveEach w files) = Main.Crashed ->
        mode = "detokenize"%string /\ ~ validToken token)
    /\ fst (approveEach w files) <> Main.Exit1
    /\ (~ knownMode mode -> fs (snd (approveEach w files)) = fs w)
    /\ ((forall c, ToLower (fst (Scanln c)) <> "y"%string) ->
        fst (approveEach w files) = Main.Finished
        /\ fs (snd (approveEach w files)) = fs w
        /\ Forall (fun l => fromProcessFile l = false) ls).
Proof.
  induction files as [|file files IH]; intros w.
  { exists []. cbn. rewrite app_nil_r. repeat split; try discriminate.
    - intros _ x [].
    - constructor. }
  cbn [Main.approveEach].
  destruct (approveFile_spec w file) as (Hafs & Hac & Hap & Hok).
  destruct (approveFile w file) as [ok w1]. cbn [fst snd] in *.
  destruct ok; cbn [negb].
  - destruct (callProcessFile_spec w1 file)
      as (ls & Hc & Hp & Hall & Hex & Hcr & Hx & Hfs).
    destruct (callProcessFile w1 file) as [st w2]. cbn [fst snd] in *.
    assert (Hno : (forall c, ToLower (fst (Scanln c)) <> "y"%string) -> False).
    { intros Hn. symmetry in Hok. apply String.eqb_eq in Hok.
      exact (Hn _ Hok). }
    destruct st.
    + destruct (IH w2) as (ls' & Hp' & Hex' & Hcr' & Hx' & Hfs' & Hno').
      exists (Main.AskFile file :: ls ++ ls').
      split; [rewrite Hp', Hp, Hap, <- !app_assoc; reflexivity|].
      split; [|split; [exact Hcr'|split; [exact Hx'|split]]].
      * intros Hf x [<-|Hin]; [left; reflexivity|].
        right. apply in_or_app. right. auto.
      * intros Hk. rewrite Hfs', Hfs, Hafs by exact Hk. reflexivity.
      * intros Hn. destruct (Hno Hn).
    + congruence.
    + exists (Main.AskFile file :: ls). cbn [fst snd].
      split; [rewrite Hp, Hap, <- app_assoc; reflexivity|].
      split; [discriminate|]. split; [exact Hcr|]. split; [discriminate|].
      split; [intros Hk; rewrite Hfs, Hafs by exact Hk; reflexivity|].
      intros Hn. destruct (Hno Hn).
  - destruct (IH w1) as (ls' & Hp' & Hex' & Hcr' & Hx' & Hfs' & Hno').
    exists (Main.AskFile file :: ls').
    split; [rewrite Hp', Hap, <- app_assoc; reflexivity|].
    split; [|split; [exact Hcr'|split; [exact Hx'|split]]].
    + intros Hf x [<-|Hin]; [left; reflexivity|right; auto].
    + intros Hk. rewrite Hfs', Hafs by exact Hk. reflexivity.
    + intros Hn. destruct (Hno' Hn) as (H1 & H2 & H3).
      split; [exact H1|]. split; [congruence|].
      constructor; [reflexivity|exact H3].
Qed.


(** X13: the program ends with exit status 1 exactly when no path is
    given, the path cannot be examined, it is an illegal directory, or it
    is a directory that cannot be listed; it has then printed one line,
    read nothing from standard input and left the file system alone. *)
Theorem main_exit_status (file : string) (f0 : FS) (c0 : Console) :
  (fst (main file f0 c0) = Main.Exit1
   <-> file = EmptyString
       \/ Stat f0 file = None
       \/ exists fileInfo,
            Stat f0 file = Some fileInfo
            /\ (isIllegalDirectory fileInfo = true
                \/ Main.IsDir fileInfo = true /\ ReadDir f0 file = None))
  /\ (fst (main file f0 c0) = Main.Exit1 ->
      fs (snd (main file f0 c0)) = f0
      /\ console (snd (main file f0 c0)) = c0
      /\ length (printed (snd (main file f0 c0))) = 1).
Proof.
  unfold Main.main.
  destruct (String.eqb_spec file EmptyString) as [He|He].
  { cbn. split; [split; auto|auto]. }
  destruct (Stat f0 file) as [fileInfo|].
  2:{ cbn. split; [split; auto|auto]. }
  destruct (isIllegalDirectory fileInfo) eqn:Eill.
  { cbn. split; [|auto]. split; [|reflexivity].
    intros _. right. right. exists fileInfo. auto. }
  assert (Happ : forall w files, fst (approveEach w files) <> Main.Exit1).
  { intros w files. destruct (approveEach_spec files w) as (ls & H). tauto. }
  assert (Hpro : forall w files, fst (processEach w files) <> Main.Exit1).
  { intros w files. destruct (processEach_spec files w) as (ls & H). tauto. }
  destruct (Main.IsDir fileInfo) eqn:Edir.
  - unfold Main.listFiles. destruct (ReadDir f0 file) as [fileInfos|] eqn:ER.
    + set (files := map _ _).
      assert (Hne : fst (if 20 <? length files
                         then
                           let w := Main.print FS Console
                                      {| Main.fs := f0; Main.console := c0;
                                         Main.printed := [] |}
                                      (Main.AskAll (length files)) in
                           let '(input, c) := Scanln (console w) in
                           let w := {| Main.fs := fs w; Main.console := c;
                                       Main.printed := printed w |} in
                           if negb (String.eqb (ToLower input) "y")
                           then processEach w files
                           else approveEach w files
                         else approveEach
                                {| Main.fs := f0; Main.console := c0;
                                   Main.printed := [] |} files)
                    <> Main.Exit1).
      { destruct (20 <? length files); [|apply Happ].
        cbn [Main.print Main.console]. destruct (Scanln c0) as [input c].
        destruct (negb _); [apply Hpro|apply Happ]. }
      split; [|intros H; destruct (Hne H)].
      split; [intros H; destruct (Hne H)|].
      intros [H|[H|(fi & H1 & [H2|[_ H2]])]]; try congruence.
    + cbn. split; [|auto]. split; [|reflexivity].
      intros _. right. right. exists fileInfo. auto.
  - destruct (approveFile _ file) as [ok w1].
    assert (Hne : fst (if ok then callProcessFile w1 file
                       else (Main.Finished, w1)) <> Main.Exit1).
    { destruct ok; [|discriminate].
      destruct (callProcessFile_spec w1 file) as (ls & H). tauto. }
    split; [|intros H; destruct (Hne H)].
    split; [intros H; destruct (Hne H)|].
    intros [H|[H|(fi & H1 & [H2|[H2 _]])]]; congruence.
Qed.

(** X14: the question about a directory of more than twenty files is read
    the wrong way round.  Any answer but yes makes the program process
    every file of the directory: it asks about no single file, reads
    standard input no further and, unless it panics, calls [processFile] on
    each file. *)
Theorem main_bulk_refusal_processes_all (file : string) (f0 : FS)
    (c0 c1 : Console) (fileInfo : Main.FileInfo) (files : list string)
    (input : string) :
  file <> EmptyString ->
  Stat f0 file = Some fileInfo ->
  isIllegalDirectory fileInfo = false ->
  Main.IsDir fileInfo = true ->
  listFiles f0 file = Some files ->
  20 < length files ->
  Scanln c0 = (input, c1) ->
  ToLower input <> "y"%string ->
  console (snd (main file f0 c0)) = c1
  /\ Forall (fun l => asksFile l = false) (printed (snd (main file f0 c0)))
  /\ (fst (main file f0 c0) = Main.Finished ->
      forall x, In x files ->
        Exists (handles x) (printed (snd (main file f0 c0)))).
Proof.
  intros Hfile HS Hill Hdir HL Hlen HSc Hans.
  unfold Main.main.
  destruct (String.eqb_spec file EmptyString) as [He|He]; [contradiction|].
  rewrite HS, Hill, Hdir, HL.
  apply Nat.ltb_lt in Hlen. rewrite Hlen.
  cbn [Main.print Main.console Main.fs Main.printed app]. rewrite HSc.
  apply String.eqb_neq in Hans. rewrite Hans. cbn [negb].
  destruct (processEach_spec files
              {| Main.fs := f0; Main.console := c1;
                 Main.printed := [Main.AskAll (length files)] |})
    as (ls & Hc & Hp & Hall & Hex & _).
  cbn [Main.console Main.printed] in Hc, Hp.
  split; [exact Hc|]. rewrite Hp. split.
  - constructor; [reflexivity|].
    eapply Forall_impl; [|exact Hall].
    intros [] H; try discriminate. reflexivity.
  - intros Hf x Hin. apply Exists_cons_tl. auto.
Qed.


(** X16: the program panics only in [detokenize] mode, and only on a
    token that is not valid UTF-8. *)
Theorem main_panics_only_on_bad_token (file : string) (f0 : FS)
    (c0 : Console) :
  fst (main file f0 c0) = Main.Crashed ->
  mode = "detokenize"%string /\ ~ validToken token.
Proof.
  assert (Happ : forall w files, fst (approveEach w files) = Main.Crashed ->
            mode = "detokenize"%string /\ ~ validToken token).
  { intros w files. destruct (approveEach_spec files w) as (ls & H). tauto. }
  assert (Hpro : forall w files, fst (processEach w files) = Main.Crashed ->
            mode = "detokenize"%string /\ ~ validToken token).
  { intros w files. destruct (processEach_spec files w) as (ls & H). tauto. }
  unfold Main.main.
  destruct (String.eqb file EmptyString); [discriminate|].
  destruct (Stat f0 file) as [fileInfo|]; [|discriminate].
  destruct (isIllegalDirectory fileInfo); [discriminate|].
  destruct (Main.IsDir fileInfo).
  - destruct (listFiles f0 file) as [files|]; [|discriminate].
    destruct (20 <? length files); [|apply Happ].
    cbn [Main.print Main.console]. destruct (Scanln c0) as [input c].
    destruct (negb _); [apply Hpro|apply Happ].
  - destruct (approveFile _ file) as [ok w1].
    destruct ok; [|discriminate].
    destruct (callProcessFile_spec w1 file) as (ls & H). tauto.
Qed.

(** X17: with a mode that is none of [tokenize], [detokenize] and
    [redact], the program leaves the file system as it found it, whatever
    the path and whatever is answered. *)
Theorem main_unknown_mode_writes_nothing (file : string) (f0 : FS)
    (c0 : Console) :
  ~ knownMode mode -> fs (snd (main file f0 c0)) = f0.
Proof.
  intros Hk.
  assert (Happ : forall w files, fs (snd (approveEach w files)) = fs w).
  { intros w files.
    destruct (approveEach_spec files w) as (ls & _ & _ & _ & _ & H & _).
    apply H. exact Hk. }
  assert (Hpro : forall w files, fs (snd (processEach w files)) = fs w).
  { intros w files. destruct (processEach_spec files w) as (ls & H).
    apply H. exact Hk. }
  unfold Main.main.
  destruct (String.eqb file EmptyString); [reflexivity|].
  destruct (Stat f0 file) as [fileInfo|]; [|reflexivity].
  destruct (isIllegalDirectory fileInfo); [reflexivity|].
  destruct (Main.IsDir fileInfo).
  - destruct (listFiles f0 file) as [files|]; [|reflexivity].
    destruct (20 <? length files); [|apply Happ].
    cbn [Main.print Main.console]. destruct (Scanln c0) as [input c].
    destruct (negb _); [rewrite Hpro|rewrite Happ]; reflexivity.
  - destruct (approveFile_spec
                {| Main.fs := f0; Main.console := c0; Main.printed := [] |}
                file) as (Hfs & _).
    destruct (approveFile _ file) as [ok w1]. cbn [snd] in Hfs.
    destruct ok; [|exact Hfs].
    destruct (callProcessFile_spec w1 file) as (ls & H).
    transitivity (fs w1); [apply H; exact Hk|exact Hfs].
Qed.

(** X18: when no answer is yes and the path is a file, or a directory of
    at most twenty files, nothing happens: the program returns without a
    call of [processFile] and leaves the file system as it found it. *)
Theorem main_without_consent (file : string) (f0 : FS) (c0 : Console) :
  (forall c, ToLower (fst (Scanln c)) <> "y"%string) ->
  (forall files, listFiles f0 file = Some files -> length files <= 20) ->
  fst (main file f0 c0) <> Main.Crashed
  /\ fs (snd (main file f0 c0)) = f0
  /\ Forall (fun l => fromProcessFile l = false)
       (printed (snd (main file f0 c0))).
Proof.
  intros Hn Hfew.
  assert (Happ : forall files,
            let r := approveEach {| Main.fs := f0; Main.console := c0;
                                    Main.printed := [] |} files in
            fst r <> Main.Crashed /\ fs (snd r) = f0
            /\ Forall (fun l => fromProcessFile l = false) (printed (snd r))).
  { intros files r. subst r.
    destruct (approveEach_spec files
                {| Main.fs := f0; Main.console := c0; Main.printed := [] |})
      as (ls & Hp & _ & _ & _ & _ & H).
    destruct (H Hn) as (H1 & H2 & H3). rewrite Hp.
    split; [congruence|]. split; [exact H2|exact H3]. }
  unfold Main.main.
  destruct (String.eqb file EmptyString).
  { cbn. repeat split; try discriminate. repeat constructor. }
  destruct (Stat f0 file) as [fileInfo|].
  2:{ cbn. repeat split; try discriminate. repeat constructor. }
  destruct (isIllegalDirectory fileInfo).
  { cbn. repeat split; try discriminate. repeat constructor. }
  destruct (Main.IsDir fileInfo).
  - destruct (listFiles f0 file) as [files|].
    2:{ cbn. repeat split; try discriminate. repeat constructor. }
    specialize (Hfew files eq_refl).
    apply Nat.ltb_ge in Hfew. rewrite Hfew. apply Happ.
  - destruct (approveFile_spec
                {| Main.fs := f0; Main.console := c0; Main.printed := [] |}
                file) as (Hfs & _ & Hp & Hok).
    destruct (approveFile _ file) as [ok w1]. cbn [fst snd] in *.
    destruct ok.
    { symmetry in Hok. apply String.eqb_eq in Hok. destruct (Hn _ Hok). }
    cbn [fst snd]. split; [discriminate|]. split; [exact Hfs|].
    rewrite Hp. repeat constructor.
Qed.

Lemma within_app files ls ls' :
  within files ls -> within files ls' -> within files (ls ++ ls').
Proof.
  intros H H' l x Hin. apply in_app_or in Hin as [Hin|Hin]; eauto.
Qed.

Lemma within_more files files' ls :
  incl files files' -> within files ls -> within files' ls.
Proof. intros Hi H l x Hin Hs. apply Hi. eauto. Qed.

Lemma callProcessFile_within (w : world) file :
  exists ls,
    printed (snd (callProcessFile w file)) = printed w ++ ls
    /\ within [file] ls.
Proof.
  unfold Main.callProcessFile, Driver.processFile.
  destruct (ReadFile (fs w) file) as [input|].
  - destruct (applyMode mode token input) as [out| |];
      [destruct (WriteFile (fs w) (outputFileOf (fs w) file outputDir) out)
      | | ];
      eexists; (split; [reflexivity|]); intros l x Hin Hs;
      cbn [map In] in Hin;
      repeat (destruct Hin as [<-|Hin]; [cbn in Hs; try discriminate;
                                          inversion Hs; left; reflexivity|]);
      destruct Hin.
  - eexists. split; [reflexivity|]. intros l x Hin Hs.
    cbn [map In] in Hin. destruct Hin as [<-|[]].
    cbn in Hs. inversion Hs. left. reflexivity.
Qed.

Lemma processEach_within files : forall (w : world),
  exists ls,
    printed (snd (processEach w files)) = printed w ++ ls
    /\ within files ls.
Proof.
  induction files as [|file files IH]; intros w.
  { exists []. cbn. rewrite app_nil_r. split; [reflexivity|]. intros l x []. }
  cbn [Main.processEach].
  destruct (callProcessFile_within w file) as (ls & Hp & Hw).
  assert (Hw' : within (file :: files) ls).
  { eapply within_more; [|exact Hw]. intros x [<-|[]]. left. reflexivity. }
  destruct (callProcessFile w file) as [st w1]. cbn [snd] in Hp.
  destruct st; try (exists ls; split; [exact Hp|exact Hw']).
  destruct (IH w1) as (ls' & Hp' & Hw1).
  exists (ls ++ ls'). split; [rewrite Hp', Hp, app_assoc; reflexivity|].
  apply within_app; [exact Hw'|].
  eapply within_more; [|exact Hw1]. apply incl_tl, incl_refl.
Qed.

Lemma approveEach_within files : forall (w : world),
  exists ls,
    printed (snd (approveEach w files)) = printed w ++ ls
    /\ within files ls.
Proof.
  induction files as [|file files IH]; intros w.
  { exists []. cbn. rewrite app_nil_r. split; [reflexivity|]. intros l x []. }
  cbn [Main.approveEach].
  destruct (approveFile_spec w file) as (_ & _ & Hap & _).
  destruct (approveFile w file) as [ok w1]. cbn [snd] in Hap.
  assert (Hask : within (file :: files) [Main.AskFile file]).
  { intros l x [<-|[]] Hs. discriminate. }
  destruct ok; cbn [negb].
  - destruct (callProcessFile_within w1 file) as (ls & Hp & Hw).
    assert (Hw' : within (file :: files) ls).
    { eapply within_more; [|exact Hw]. intros x [<-|[]]. left. reflexivity. }
    destruct (callProcessFile w1 file) as [st w2]. cbn [snd] in Hp.
    destruct st; cbn [snd];
      try (exists ([Main.AskFile file] ++ ls);
           split; [rewrite Hp, Hap, app_assoc; reflexivity
                  |apply within_app; assumption]).
    destruct (IH w2) as (ls' & Hp' & Hw2).
    exists (([Main.AskFile file] ++ ls) ++ ls').
    split; [rewrite Hp', Hp, Hap, !app_assoc; reflexivity|].
    apply within_app; [apply within_app; assumption|].
    eapply within_more; [|exact Hw2]. apply incl_tl, incl_refl.
  - destruct (IH w1) as (ls' & Hp' & Hw1).
    exists ([Main.AskFile file] ++ ls').
    split; [rewrite Hp', Hap, app_assoc; reflexivity|].
    apply within_app; [exact Hask|].
    eapply within_more; [|exact Hw1]. apply incl_tl, incl_refl.
Qed.

(** X19: the program hands to [processFile] nothing but the path itself,
    when that is no directory, or else the entries of the directory that
    are no directories: it never goes into a sub-directory. *)
Theorem main_processes_entries_only (file : string) (f0 : FS) (c0 : Console)
    (l : Main.line) (x : string) :
  In l (printed (snd (main file f0 c0))) ->
  subject l = Some x ->
  exists fileInfo,
    Stat f0 file = Some fileInfo
    /\ (Main.IsDir fileInfo = false -> x = file)
    /\ (Main.IsDir fileInfo = true ->
        exists entries entry,
          ReadDir f0 file = Some entries /\ In entry entries
          /\ Main.IsDir entry = false
          /\ x = Join file (Main.Name entry)).
Proof.
  unfold Main.main.
  destruct (String.eqb file EmptyString).
  { cbn. intros [<-|[]]. discriminate. }
  destruct (Stat f0 file) as [fileInfo|].
  2:{ cbn. intros [<-|[]]. discriminate. }
  destruct (isIllegalDirectory fileInfo).
  { cbn. intros [<-|[]]. discriminate. }
  destruct (Main.IsDir fileInfo) eqn:Edir.
  - unfold Main.listFiles. destruct (ReadDir f0 file) as [entries|].
    2:{ cbn. intros [<-|[]]. discriminate. }
    set (files := map _ _).
    assert (Hfiles : forall y, In y files ->
              exists entry, In entry entries /\ Main.IsDir entry = false
                            /\ y = Join file (Main.Name entry)).
    { intros y Hy. apply in_map_iff in Hy as (entry & <- & He).
      apply filter_In in He as [He Hd]. apply negb_true_iff in Hd.
      exists entry. auto. }
    assert (Hend : forall ls, within files ls -> In l ls ->
              subject l = Some x ->
              exists fi, Some fileInfo = Some fi
                /\ (Main.IsDir fi = false -> x = file)
                /\ (Main.IsDir fi = true ->
                    exists es e, Some entries = Some es /\ In e es
                      /\ Main.IsDir e = false /\ x = Join file (Main.Name e))).
    { intros ls Hw Hin Hs. exists fileInfo. split; [reflexivity|].
      split; [congruence|]. intros _.
      destruct (Hfiles x (Hw l x Hin Hs)) as (e & H1 & H2 & H3).
      exists entries, e. auto. }
    destruct (20 <? length files).
    + cbn [Main.print Main.console Main.fs Main.printed app].
      destruct (Scanln c0) as [input c].
      destruct (negb _).
      * destruct (processEach_within files
                    {| Main.fs := f0; Main.console := c;
                       Main.printed := [Main.AskAll (length files)] |})
          as (ls & Hp & Hw).
        rewrite Hp. cbn [Main.printed app]. intros [<-|Hin]; [discriminate|].
        eauto.
      * destruct (approveEach_within files
                    {| Main.fs := f0; Main.console := c;
                       Main.printed := [Main.AskAll (length files)] |})
          as (ls & Hp & Hw).
        rewrite Hp. cbn [Main.printed app]. intros [<-|Hin]; [discriminate|].
        eauto.
    + destruct (approveEach_within files
                  {| Main.fs := f0; Main.console := c0; Main.printed := [] |})
        as (ls & Hp & Hw).
      rewrite Hp. cbn [Main.printed app]. eauto.
  - destruct (approveFile_spec
                {| Main.fs := f0; Main.console := c0; Main.printed := [] |}
                file) as (_ & _ & Hap & _).
    destruct (approveFile _ file) as [ok w1]. cbn [snd Main.printed app] in Hap.
    assert (Hend : x = file ->
              exists fi, Some fileInfo = Some fi
                /\ (Main.IsDir fi = false -> x = file)
                /\ (Main.IsDir fi = true ->
                    exists es e, ReadDir f0 file = Some es /\ In e es
                      /\ Main.IsDir e = false /\ x = Join file (Main.Name e))).
    { intros ->. exists fileInfo. split; [reflexivity|].
      split; [reflexivity|congruence]. }
    destruct ok.
    + destruct (callProcessFile_within w1 file) as (ls & Hp & Hw).
      rewrite Hp, Hap. cbn [app]. intros [<-|Hin] Hs; [discriminate|].
      apply Hend. destruct (Hw l x Hin Hs) as [<-|[]]. reflexivity.
    + cbn [snd]. rewrite Hap. intros [<-|[]]. discriminate.
Qed.

End MainProperties.


Lemma main_bulk_refusal_processes_all_witness :
  Main.console _ _
    (snd (Sample.main 21 "redact" (bytes_of "[TOKEN]") "docs" ["n"%string]))
  = []
  /\ Forall (fun l => asksFile l = false)
       (Main.printed _ _
          (snd (Sample.main 21 "redact" (bytes_of "[TOKEN]") "docs"
                  ["n"%string])))
  /\ Exists (handles "docs/a.txt")
       (Main.printed _ _
          (snd (Sample.main 21 "redact" (bytes_of "[TOKEN]") "docs"
                  ["n"%string]))).
Proof.
  destruct (main_bulk_refusal_processes_all
              Sample.FS Sample.Console Sample.Stat (Sample.ReadDir 21)
              Sample.ReadFile Sample.WriteFile Sample.outputFileOf
              Sample.Abs Sample.Join Sample.ToLower Sample.Scanln
              "redact" (bytes_of "[TOKEN]") EmptyString "docs" []
              ["n"%string] []
              {| Main.Name := "docs"; Main.IsDir := true |}
              (repeat "docs/a.txt"%string 21) "n")
    as (H1 & H2 & H3);
    [discriminate|reflexivity|reflexivity|reflexivity|reflexivity
    |rewrite repeat_length; lia|reflexivity|discriminate|].
  split; [exact H1|]. split; [exact H2|].
  apply H3; [vm_compute; reflexivity|left; reflexivity].
Defined.


Lemma main_panics_only_on_bad_token_witness :
  "detokenize"%string = "detokenize"%string /\ ~ validToken [xff].
Proof.
  apply (main_panics_only_on_bad_token
           Sample.FS Sample.Console Sample.Stat (Sample.ReadDir 2)
           Sample.ReadFile Sample.WriteFile Sample.outputFileOf
           Sample.Abs Sample.Join Sample.ToLower Sample.Scanln
           "detokenize" [xff] EmptyString "docs" [] ["y"%string]).
  vm_compute. reflexivity.
Defined.

Lemma main_unknown_mode_writes_nothing_witness :
  Main.fs _ _
    (snd (Sample.main 21 "shred" (bytes_of "[TOKEN]") "docs" ["n"%string]))
  = [].
Proof.
  apply (main_unknown_mode_writes_nothing
           Sample.FS Sample.Console Sample.Stat (Sample.ReadDir 21)
           Sample.ReadFile Sample.WriteFile Sample.outputFileOf
           Sample.Abs Sample.Join Sample.ToLower Sample.Scanln
           "shred" (bytes_of "[TOKEN]") EmptyString "docs" [] ["n"%string]).
  intros [H|[H|H]]; discriminate.
Defined.

Lemma main_without_consent_witness :
  fst (Main.main Sample.FS unit Sample.Stat (Sample.ReadDir 2)
         Sample.ReadFile Sample.WriteFile Sample.outputFileOf
         Sample.Abs Sample.Join Sample.ToLower Sample.closed
         "redact" (bytes_of "[TOKEN]") EmptyString "docs" [] tt)
  <> Main.Crashed
  /\ Main.fs _ _
       (snd (Main.main Sample.FS unit Sample.Stat (Sample.ReadDir 2)
               Sample.ReadFile Sample.WriteFile Sample.outputFileOf
               Sample.Abs Sample.Join Sample.ToLower Sample.closed
               "redact" (bytes_of "[TOKEN]") EmptyString "docs" [] tt))
     = []
  /\ Forall (fun l => fromProcessFile l = false)
       (Main.printed _ _
          (snd (Main.main Sample.FS unit Sample.Stat (Sample.ReadDir 2)
                  Sample.ReadFile Sample.WriteFile Sample.outputFileOf
                  Sample.Abs Sample.Join Sample.ToLower Sample.closed
                  "redact" (bytes_of "[TOKEN]") EmptyString "docs" [] tt))).
Proof.
  apply (main_without_consent
           Sample.FS unit Sample.Stat (Sample.ReadDir 2)
           Sample.ReadFile Sample.WriteFile Sample.outputFileOf
           Sample.Abs Sample.Join Sample.ToLower Sample.closed
           "redact" (bytes_of "[TOKEN]") EmptyString "docs" [] tt).
  - intros c. discriminate.
  - intros files H. inversion H. cbn [length map filter]. lia.
Defined.

Lemma main_processes_entries_only_witness :
  exists fileInfo,
    Sample.Stat [] "docs" = Some fileInfo
    /\ (Main.IsDir fileInfo = false -> "docs/a.txt"%string = "docs"%string)
    /\ (Main.IsDir fileInfo = true ->
        exists entries entry,
          Sample.ReadDir 2 [] "docs" = Some entries /\ In entry entries
          /\ Main.IsDir entry = false
          /\ "docs/a.txt"%string = Sample.Join "docs" (Main.Name entry)).
Proof.
  apply (main_processes_entries_only
           Sample.FS Sample.Console Sample.Stat (Sample.ReadDir 2)
           Sample.ReadFile Sample.WriteFile Sample.outputFileOf
           Sample.Abs Sample.Join Sample.ToLower Sample.Scanln
           "redact" (bytes_of "[TOKEN]") EmptyString "docs" []
           ["y"%string]
           (Main.FromProcessFile (Driver.Found "docs/a.txt" 1 0))).
  - vm_compute. right. left. reflexivity.
  - reflexivity.
Defined.

(** ** The name of the output file *)

Lemma append_empty (s : string) : (s ++ EmptyString)%string = s.
Proof. induction s as [|c s IH]; [reflexivity|]. cbn. rewrite IH. reflexivity. Qed.

Lemma append_assoc (a b c : string) :
  ((a ++ b) ++ c)%string = (a ++ b ++ c)%string.
Proof. induction a as [|x a IH]; [reflexivity|]. cbn. rewrite IH. reflexivity. Qed.

Lemma length_append (a b : string) :
  String.length (a ++ b) = String.length a + String.length b.
Proof. induction a as [|x a IH]; [reflexivity|]. cbn. rewrite IH. reflexivity. Qed.

Lemma substring_stem (a b : string) :
  substring 0 (String.length a) (a ++ b) = a.
Proof.
  induction a as [|x a IH]; [destruct b; reflexivity|].
  cbn. rewrite IH. reflexivity.
Qed.

Lemma forwards_backwards path : forall acc t,
  forwards (Naming.backwards path acc) t = forwards acc (path ++ t).
Proof.
  induction path as [|c path IH]; intros acc t; [reflexivity|].
  cbn [Naming.backwards]. rewrite IH. reflexivity.
Qed.

Lemma extLoop_spec sep rpath : forall suffix,
  exists stem,
    forwards rpath suffix = (stem ++ Naming.extLoop sep rpath suffix)%string
    /\ (Naming.extLoop sep rpath suffix = EmptyString
        \/ exists e, Naming.extLoop sep rpath suffix = String Naming.dot e).
Proof.
  induction rpath as [|c rpath IH]; intros suffix; cbn [Naming.extLoop forwards].
  - exists suffix. rewrite append_empty. auto.
  - destruct (sep c).
    + exists (forwards rpath (String c suffix)). rewrite append_empty. auto.
    + destruct (Ascii.eqb_spec c Naming.dot) as [->|Hc].
      * exists (forwards rpath EmptyString). split; [|eauto].
        clear. generalize (String Naming.dot suffix). intros t.
        change t with (EmptyString ++ t)%string at 1.
        generalize EmptyString.
        induction rpath as [|c rpath IH]; intros u; [reflexivity|].
        cbn [forwards]. rewrite <- IH. reflexivity.
      * apply IH.
Qed.

Section NamingProperties.

Variable FS : Type.
Variable Stat : FS -> string -> option Main.FileInfo.
Variable IsPathSeparator : Ascii.ascii -> bool.
Variable Join : string -> string -> string.
Variable Dir : string -> string.
Variable Base : string -> string.

#[local] Abbreviation Ext := (Naming.Ext IsPathSeparator).
#[local] Abbreviation outputFileOf :=
  (Naming.outputFileOf FS Stat IsPathSeparator Join Dir Base).

(** X20: how [processFile] names its output.  The path is a stem followed
    by its extension, which is empty or begins with a dot.  Without an
    output directory, or with one that does not exist or is no directory,
    the output goes beside the input, named by the base name of the stem,
    [_redacted] and the extension.  Into an output directory that exists,
    the name is the base name of the whole path, extension included, then
    [_redacted.], then the extension with its own dot, so that a file with
    an extension gets two dots in a row. *)
Theorem outputFileOf_spec (f : FS) (file outputDir : string) :
  exists stem,
    file = (stem ++ Ext file)%string
    /\ (Ext file = EmptyString \/ exists e, Ext file = String Naming.dot e)
    /\ (outputDir = EmptyString \/ Stat f outputDir = None
        \/ (exists fileInfo, Stat f outputDir = Some fileInfo
                             /\ Main.IsDir fileInfo = false) ->
        outputFileOf f file outputDir
        = Join (Dir file) (Base stem ++ "_redacted" ++ Ext file))
    /\ (forall fileInfo,
          outputDir <> EmptyString ->
          Stat f outputDir = Some fileInfo -> Main.IsDir fileInfo = true ->
          Join outputDir (Base file ++ "_redacted." ++ Ext file)
            <> EmptyString ->
          outputFileOf f file outputDir
          = Join outputDir (Base file ++ "_redacted." ++ Ext file)
          /\ forall e, Ext file = String Naming.dot e ->
               outputFileOf f file outputDir
               = Join outputDir (Base file ++ "_redacted.." ++ e)).
Proof.
  destruct (extLoop_spec IsPathSeparator (Naming.backwards file [])
              EmptyString) as (stem & Hs & He).
  rewrite forwards_backwards in Hs. cbn [forwards] in Hs.
  rewrite append_empty in Hs. fold (Ext file) in Hs, He.
  exists stem. split; [exact Hs|]. split; [exact He|].
  assert (Hstem : substring 0 (String.length file - String.length (Ext file))
                    file = stem).
  { rewrite Hs at 1 3. rewrite length_append, Nat.add_sub.
    apply substring_stem. }
  unfold Naming.outputFileOf, Naming.namedBeside, Naming.namedInto.
  fold (Ext file). rewrite Hstem. split.
  - intros [->|[H|(fileInfo & H & Hd)]]; [reflexivity| |].
    + rewrite H. destruct (negb _); reflexivity.
    + rewrite H, Hd. destruct (negb _); reflexivity.
  - intros fileInfo Ho HS Hd Hj. rewrite HS, Hd.
    apply String.eqb_neq in Ho, Hj. rewrite Ho. cbn [negb]. rewrite Hj.
    split; [reflexivity|]. intros e He'. rewrite He'. reflexivity.
Qed.

End NamingProperties.

Lemma outputFileOf_spec_witness :
  Naming.outputFileOf Sample.FS Sample.Stat Sample.IsPathSeparator
    Sample.Join Sample.Dir Sample.Base [] "report.txt" "docs"
  = "docs/report.txt_redacted..txt"%string
  /\ Naming.outputFileOf Sample.FS Sample.Stat Sample.IsPathSeparator
       Sample.Join Sample.Dir Sample.Base [] "report.txt" "gone"
     = "./report_redacted.txt"%string.
Proof.
  split.
  - destruct (outputFileOf_spec Sample.FS Sample.Stat Sample.IsPathSeparator
                Sample.Join Sample.Dir Sample.Base [] "report.txt" "docs")
      as (stem & _ & _ & _ & H).
    destruct (H {| Main.Name := "docs"; Main.IsDir := true |})
      as [_ H2]; [discriminate|reflexivity|reflexivity|discriminate|].
    exact (H2 "txt"%string eq_refl).
  - destruct (outputFileOf_spec Sample.FS Sample.Stat Sample.IsPathSeparator
                Sample.Join Sample.Dir Sample.Base [] "report.txt" "gone")
      as (stem & Hs & _ & H & _).
    rewrite H by (right; left; reflexivity).
    change (Naming.Ext Sample.IsPathSeparator "report.txt")
      with ".txt"%string in Hs |- *.
    assert (Hstem : stem = "report"%string).
    { destruct stem as [|c0 [|c1 [|c2 [|c3 [|c4 [|c5 [|c6 stem]]]]]]];
        try discriminate.
      - inversion Hs. reflexivity.
      - exfalso. apply (f_equal String.length) in Hs.
        rewrite length_append in Hs. cbn in Hs. lia. }
    rewrite Hstem. reflexivity.
Defined.
